(** * ECNU shell assistant: a shallow embedding of [ecnu_shell_assistant.py]

    The development follows the Python source function by function:
    Python strings are sequences of Unicode code points, instants are
    integer seconds, mutable attributes of the assistant object live in a
    [world] record threaded through a small state-and-exception monad, and
    everything the operating system or the remote model decides is read
    from an explicit environment record. *)

From Stdlib Require Import List ZArith NArith Bool Lia String Ascii.
Import ListNotations.
Local Open Scope Z_scope.

(* ================================================================== *)
(** * Python strings *)

(** A Python [str] is a sequence of code points. *)
Definition pychar := N.
Definition pystr := list pychar.

Definition of_ascii (s : string) : pystr :=
  map (fun a => N_of_ascii a) (list_ascii_of_string s).

Definition pychar_eqb (a b : pychar) : bool := N.eqb a b.

Fixpoint pystr_eqb (a b : pystr) : bool :=
  match a, b with
  | [], [] => true
  | x :: a', y :: b' => pychar_eqb x y && pystr_eqb a' b'
  | _, _ => false
  end.

(** [str.isspace] on one code point, the set used by [strip()] and
    [split()] without arguments. *)
Definition is_space (c : pychar) : bool :=
  ((9 <=? c) && (c <=? 13) || (28 <=? c) && (c <=? 32)
   || (c =? 133) || (c =? 160) || (c =? 5760)
   || (8192 <=? c) && (c <=? 8202)
   || (c =? 8232) || (c =? 8233) || (c =? 8239) || (c =? 8287)
   || (c =? 12288))%N.

Fixpoint lstrip (s : pystr) : pystr :=
  match s with
  | [] => []
  | c :: r => if is_space c then lstrip r else s
  end.

Definition rstrip (s : pystr) : pystr := rev (lstrip (rev s)).

(** [s.strip()] *)
Definition strip (s : pystr) : pystr := rstrip (lstrip s).

(** [s.startswith(p)] *)
Fixpoint startswith (p s : pystr) : bool :=
  match p, s with
  | [], _ => true
  | _ :: _, [] => false
  | a :: p', b :: s' => pychar_eqb a b && startswith p' s'
  end.

(** [p in s] for strings. *)
Fixpoint contains (p s : pystr) : bool :=
  startswith p s || match s with [] => false | _ :: s' => contains p s' end.

(** [s.split(sep)] for a one-character separator: never empty. *)
Fixpoint split_char (sep : pychar) (s : pystr) : list pystr :=
  match s with
  | [] => [[]]
  | c :: r =>
      if pychar_eqb c sep then [] :: split_char sep r
      else match split_char sep r with
           | h :: t => (c :: h) :: t
           | [] => [[c]]
           end
  end.

(** [s.split()]: the maximal runs of non-whitespace characters. *)
Fixpoint split_ws (s : pystr) : list pystr :=
  match s with
  | [] => []
  | c :: r =>
      if is_space c then split_ws r
      else match r with
           | [] => [[c]]
           | d :: _ =>
               if is_space d then [c] :: split_ws r
               else match split_ws r with
                    | h :: t => (c :: h) :: t
                    | [] => [[c]]
                    end
           end
  end.

(** [sep.join(parts)] *)
Fixpoint join (sep : pystr) (parts : list pystr) : pystr :=
  match parts with
  | [] => []
  | [x] => x
  | x :: rest => x ++ sep ++ join sep rest
  end.

(** Python's [l[i:]], for any integer [i]. *)
Definition slice_from {A} (i : Z) (l : list A) : list A :=
  let n := Z.of_nat (List.length l) in
  let start := if i <? 0 then Z.max 0 (i + n) else Z.min i n in
  skipn (Z.to_nat start) l.

(** [s[len(p):]] *)
Definition drop_prefix (p s : pystr) : pystr := skipn (List.length p) s.

(* ================================================================== *)
(** * [_clean_command] *)

Definition fence : pystr := of_ascii "```".
Definition newline : pystr := [10%N].
Definition space : pystr := [32%N].

(** The four labels: the two-character Chinese word for "command"
    followed by [': '], then ['bash: '], ['shell: '] and ['$ ']. *)
Definition prefixes : list pystr :=
  [ [21629%N; 20196%N; 58%N; 32%N];
    of_ascii "bash: "; of_ascii "shell: "; of_ascii "$ " ].

(** The [for prefix in prefixes: ... break] loop. *)
Fixpoint strip_first_prefix (ps : list pystr) (command : pystr) : pystr :=
  match ps with
  | [] => command
  | p :: ps' =>
      if startswith p command then drop_prefix p command
      else strip_first_prefix ps' command
  end.

Definition unfence (command : pystr) : pystr :=
  if startswith fence command then
    join newline
      (filter (fun line => negb (startswith fence line))
              (tl (split_char 10%N command)))
  else command.

Definition _clean_command (command : pystr) : pystr :=
  let command := strip command in
  let command := unfence command in
  let command := strip_first_prefix prefixes command in
  let command := join space (split_ws command) in
  strip command.

(* ================================================================== *)
(** * [_is_dangerous_command]: the regular expressions and [re.search] *)

(** The fragment of Python's [re] syntax the patterns use: literal
    characters (escaped or not), [.] and [.*], concatenation. *)
Inductive regex : Type :=
| REmpty : regex                       (* matches nothing *)
| REps : regex                         (* matches the empty string *)
| RLit : pychar -> regex
| RDot : regex                         (* any character but a newline *)
| RCat : regex -> regex -> regex
| RAlt : regex -> regex -> regex
| RStar : regex -> regex.

Fixpoint nullable (r : regex) : bool :=
  match r with
  | REmpty => false
  | REps => true
  | RLit _ => false
  | RDot => false
  | RCat a b => nullable a && nullable b
  | RAlt a b => nullable a || nullable b
  | RStar _ => true
  end.

(** Brzozowski derivative. *)
Fixpoint deriv (c : pychar) (r : regex) : regex :=
  match r with
  | REmpty => REmpty
  | REps => REmpty
  | RLit d => if pychar_eqb c d then REps else REmpty
  | RDot => if pychar_eqb c 10%N then REmpty else REps
  | RCat a b =>
      if nullable a then RAlt (RCat (deriv c a) b) (deriv c b)
      else RCat (deriv c a) b
  | RAlt a b => RAlt (deriv c a) (deriv c b)
  | RStar a => RCat (deriv c a) (RStar a)
  end.

(** Does some prefix of [s] match [r]?  ([re.match]) *)
Fixpoint re_match (r : regex) (s : pystr) : bool :=
  nullable r ||
  match s with
  | [] => false
  | c :: s' => re_match (deriv c r) s'
  end.

(** Does [r] match somewhere in [s]?  ([re.search]) *)
Fixpoint re_search (r : regex) (s : pystr) : bool :=
  re_match r s ||
  match s with
  | [] => false
  | _ :: s' => re_search r s'
  end.

Fixpoint re_lit (s : pystr) : regex :=
  match s with
  | [] => REps
  | c :: s' => RCat (RLit c) (re_lit s')
  end.

(** [a.*b] for two literal strings. *)
Definition re_gap (a b : string) : regex :=
  RCat (re_lit (of_ascii a)) (RCat (RStar RDot) (re_lit (of_ascii b))).

Definition dangerous_patterns : list regex :=
  [ re_gap "rm" "-rf";              (* 'rm.*-rf' *)
    re_lit (of_ascii "mkfs.");      (* r'mkfs\.' *)
    re_gap "dd" "of=";              (* 'dd.*of=' *)
    re_gap "chmod" "777";           (* 'chmod.*777' *)
    re_gap ">" "/etc/";             (* r'>.*\/etc\/' *)
    re_gap "||" "rm";               (* r'\|\|.*rm' *)
    re_lit (of_ascii "shutdown");
    re_lit (of_ascii "reboot");
    re_lit (of_ascii "poweroff") ].

Definition _is_dangerous_command (command : pystr) : bool :=
  existsb (fun pattern => re_search pattern command) dangerous_patterns.

(* ================================================================== *)
(** * Session state, exceptions and effects *)

Inductive role : Type := System | User | Assistant.

Definition role_eqb (a b : role) : bool :=
  match a, b with
  | System, System | User, User | Assistant, Assistant => true
  | _, _ => false
  end.

(** One entry of [self.history]: [{"role": ..., "content": ...}]. *)
Record message : Type := mkMessage { msg_role : role; msg_content : pystr }.

(** The exception classes the code raises or names in a handler. *)
Inductive exn_kind : Type :=
| KValueError | KAttributeError | KImportError | KIndexError
| KUnboundLocalError | KOSError | KEOFError
| KRequestsTimeout | KRequestsConnectionError | KRequestsHTTPError
| KRequestException                   (* another [requests] failure *)
| KOtherException                     (* any other subclass of [Exception] *)
| KKeyboardInterrupt
| KSystemExit (code : Z).

Record exn : Type := mkExn { exn_kind_of : exn_kind; exn_str : pystr }.

(** [isinstance(e, Exception)]: everything except the two
    [BaseException]-only classes. *)
Definition is_Exception (e : exn) : bool :=
  match exn_kind_of e with
  | KKeyboardInterrupt | KSystemExit _ => false
  | _ => true
  end.

Definition is_KeyboardInterrupt (e : exn) : bool :=
  match exn_kind_of e with KKeyboardInterrupt => true | _ => false end.

(** [isinstance(e, requests.exceptions.RequestException)] *)
Definition is_RequestException (e : exn) : bool :=
  match exn_kind_of e with
  | KRequestsTimeout | KRequestsConnectionError | KRequestsHTTPError
  | KRequestException => true
  | _ => false
  end.

(** What a call of [input()] finds on standard input. *)
Inductive input_event : Type :=
| Line (s : pystr)
| CtrlC                               (* KeyboardInterrupt at the prompt *)
| CtrlD.                              (* end of input: EOFError *)

(** The two pipes of a child process. *)
Inductive stream : Type := Stdout | Stderr.

Definition stream_eqb (a b : stream) : bool :=
  match a, b with
  | Stdout, Stdout | Stderr, Stderr => true
  | _, _ => false
  end.

(** Effects on the outside world, in the order they happen.  Console
    output is left out. *)
Inductive event : Type :=
| EvSleep (seconds : Z)
| EvApiCall (model_id : pystr) (messages : list message) (no_thinking : bool)
| EvFallback (text : pystr)
| EvLogError
| EvOsSystem (command : pystr)
| EvPopen (command : pystr)
| EvSigterm
| EvKill
| EvWait
| EvLogOutput (command out err : pystr) (returncode : Z)
| EvAdvisor (command out err : pystr) (returncode : Z)
| EvAdvisorPost (command out err : pystr) (returncode : Z)
| EvBuiltin (user_input : pystr)
| EvWelcome
| EvSaveHistory (commands : list pystr).

(** The attributes of the assistant object the modelled methods touch,
    the clock, the pending console input, the child processes and the
    trace of effects.  [child_running] is the state of the process the
    variable [process] refers to; a process whose handle is overwritten
    while it runs is never waited for or signalled again, and is counted
    in [abandoned]. *)
Record world : Type := mkWorld {
  history : list message;             (* self.history *)
  api_key : option pystr;             (* self.api_key, None or a str *)
  model : pystr;                      (* self.model *)
  max_history_size : Z;               (* self.max_history_size *)
  rpm : Z;                            (* self.rate_limit['rpm'] *)
  rph : Z;
  rpd : Z;
  requests : list Z;                  (* self.rate_limit['requests'] *)
  rate_limit_enabled : bool;
  command_history : list pystr;       (* self.command_history *)
  quiet_mode : bool;                  (* config.get("quiet_mode", False) *)
  command_timeout : option Z;         (* config.get("command_timeout") *)
  clock : Z;                          (* time.time(), in seconds *)
  stdin : list input_event;
  child_running : bool;               (* process.poll() is None *)
  abandoned : nat;                    (* children whose handle was dropped *)
  trace : list event
}.

Definition set_history (h : list message) (w : world) : world :=
  mkWorld h (api_key w) (model w) (max_history_size w) (rpm w) (rph w)
    (rpd w) (requests w) (rate_limit_enabled w) (command_history w)
    (quiet_mode w) (command_timeout w) (clock w) (stdin w)
    (child_running w) (abandoned w) (trace w).

Definition set_requests (r : list Z) (w : world) : world :=
  mkWorld (history w) (api_key w) (model w) (max_history_size w) (rpm w)
    (rph w) (rpd w) r (rate_limit_enabled w) (command_history w)
    (quiet_mode w) (command_timeout w) (clock w) (stdin w)
    (child_running w) (abandoned w) (trace w).

Definition set_rate_limit_enabled (b : bool) (w : world) : world :=
  mkWorld (history w) (api_key w) (model w) (max_history_size w) (rpm w)
    (rph w) (rpd w) (requests w) b (command_history w)
    (quiet_mode w) (command_timeout w) (clock w) (stdin w)
    (child_running w) (abandoned w) (trace w).

Definition set_command_history (c : list pystr) (w : world) : world :=
  mkWorld (history w) (api_key w) (model w) (max_history_size w) (rpm w)
    (rph w) (rpd w) (requests w) (rate_limit_enabled w) c
    (quiet_mode w) (command_timeout w) (clock w) (stdin w)
    (child_running w) (abandoned w) (trace w).

Definition set_clock (t : Z) (w : world) : world :=
  mkWorld (history w) (api_key w) (model w) (max_history_size w) (rpm w)
    (rph w) (rpd w) (requests w) (rate_limit_enabled w) (command_history w)
    (quiet_mode w) (command_timeout w) t (stdin w)
    (child_running w) (abandoned w) (trace w).

Definition set_stdin (i : list input_event) (w : world) : world :=
  mkWorld (history w) (api_key w) (model w) (max_history_size w) (rpm w)
    (rph w) (rpd w) (requests w) (rate_limit_enabled w) (command_history w)
    (quiet_mode w) (command_timeout w) (clock w) i
    (child_running w) (abandoned w) (trace w).

Definition set_child_running (b : bool) (w : world) : world :=
  mkWorld (history w) (api_key w) (model w) (max_history_size w) (rpm w)
    (rph w) (rpd w) (requests w) (rate_limit_enabled w) (command_history w)
    (quiet_mode w) (command_timeout w) (clock w) (stdin w)
    b (abandoned w) (trace w).

Definition set_abandoned (n : nat) (w : world) : world :=
  mkWorld (history w) (api_key w) (model w) (max_history_size w) (rpm w)
    (rph w) (rpd w) (requests w) (rate_limit_enabled w) (command_history w)
    (quiet_mode w) (command_timeout w) (clock w) (stdin w)
    (child_running w) n (trace w).

Definition set_trace (t : list event) (w : world) : world :=
  mkWorld (history w) (api_key w) (model w) (max_history_size w) (rpm w)
    (rph w) (rpd w) (requests w) (rate_limit_enabled w) (command_history w)
    (quiet_mode w) (command_timeout w) (clock w) (stdin w)
    (child_running w) (abandoned w) t.

(** ** The state-and-exception monad *)

Inductive result (A : Type) : Type :=
| Ok (a : A)
| Exn (e : exn).
Arguments Ok {A} a.
Arguments Exn {A} e.

Definition M (A : Type) : Type := world -> result A * world.

Definition ret {A} (a : A) : M A := fun w => (Ok a, w).

Definition bind {A B} (m : M A) (f : A -> M B) : M B :=
  fun w => match m w with
           | (Ok a, w') => f a w'
           | (Exn e, w') => (Exn e, w')
           end.

Definition raise {A} (e : exn) : M A := fun w => (Exn e, w).

(** [try: m  except ...: h e]; the handler re-raises what it does not
    catch. *)
Definition try_catch {A} (m : M A) (h : exn -> M A) : M A :=
  fun w => match m w with
           | (Ok a, w') => (Ok a, w')
           | (Exn e, w') => h e w'
           end.

(** [try: m  finally: f] *)
Definition try_finally {A} (m : M A) (f : M unit) : M A :=
  fun w => match m w with
           | (r, w') =>
               match f w' with
               | (Ok _, w'') => (r, w'')
               | (Exn e, w'') => (Exn e, w'')
               end
           end.

Declare Scope monad_scope.
Delimit Scope monad_scope with monad.
Notation "x <- c1 ;; c2" := (bind c1 (fun x => c2))
  (at level 61, c1 at next level, right associativity) : monad_scope.
Notation "c1 ;; c2" := (bind c1 (fun _ => c2))
  (at level 61, right associativity) : monad_scope.
Notation "' pat <- c1 ;; c2" :=
  (bind c1 (fun x => match x with pat => c2 end))
  (at level 61, pat pattern, c1 at next level, right associativity)
  : monad_scope.
Local Open Scope monad_scope.

Definition get {A} (f : world -> A) : M A := fun w => (Ok (f w), w).
Definition modify (f : world -> world) : M unit := fun w => (Ok tt, f w).

Definition emit (ev : event) : M unit :=
  modify (fun w => set_trace (trace w ++ [ev]) w).

(** [time.sleep(n)] *)
Definition sleep (n : Z) : M unit :=
  emit (EvSleep n) ;; modify (fun w => set_clock (clock w + n) w).

(** [input(...)] *)
Definition input : M pystr :=
  fun w => match stdin w with
           | [] => (Exn (mkExn KEOFError []), w)
           | Line s :: rest => (Ok s, set_stdin rest w)
           | CtrlC :: rest => (Exn (mkExn KKeyboardInterrupt []), set_stdin rest w)
           | CtrlD :: rest => (Exn (mkExn KEOFError []), set_stdin rest w)
           end.

Definition lit (s : string) : pystr := of_ascii s.

(* ================================================================== *)
(** * The rate limiter: [_check_rate_limit] and [_record_request] *)

Definition count_if {A} (p : A -> bool) (l : list A) : Z :=
  Z.of_nat (List.length (filter p l)).

Definition within (window current_time t : Z) : bool :=
  current_time - t <? window.

Definition _check_rate_limit : M bool := fun w =>
  if negb (rate_limit_enabled w) then (Ok true, w)
  else
    let current_time := clock w in
    let kept := filter (within 86400 current_time) (requests w) in
    let w1 := set_requests kept w in
    let requests_last_minute := count_if (within 60 current_time) kept in
    let requests_last_hour := count_if (within 3600 current_time) kept in
    let requests_last_day := Z.of_nat (List.length kept) in
    if rpm w <=? requests_last_minute then
      (* the wait time printed is 60 - (now - min(requests[-n:])), and
         min raises on an empty slice *)
      match slice_from (- requests_last_minute) kept with
      | [] => (Exn (mkExn KValueError (lit "min() arg is an empty sequence")), w1)
      | _ :: _ => (Ok false, w1)
      end
    else if rph w <=? requests_last_hour then (Ok false, w1)
    else if rpd w <=? requests_last_day then (Ok false, w1)
    else (Ok true, w1).

Definition _record_request : M unit :=
  modify (fun w => set_requests (requests w ++ [clock w]) w).

(* ================================================================== *)
(** * The model registry ([_init_model_manager]) *)

Record provider_config : Type := mkProvider {
  provider : pystr;
  api_base_url : pystr;
  api_key_env : pystr;
  endpoint : pystr;
  model_id : option pystr
}.

Definition modelscope (id : option pystr) : provider_config :=
  mkProvider (lit "modelscope") (lit "https://api-inference.modelscope.cn/v1")
    (lit "MODEL_SCOPE_API") (lit "/chat/completions") id.

Definition ecnu : provider_config :=
  mkProvider (lit "ecnu") (lit "https://chat.ecnu.edu.cn/open/api/v1")
    (lit "ECNU_API_KEY") (lit "/chat/completions") None.

Definition qwen : pystr := lit "Qwen/Qwen3-32B".

Definition model_providers : list (pystr * provider_config) :=
  [ (qwen, modelscope None);
    (lit "GLM-4.6", modelscope (Some (lit "ZhipuAI/GLM-4.6")));
    (lit "ecnu-plus", ecnu);
    (lit "ecnu-max", ecnu);
    (lit "ChatECNU", ecnu) ].

(** [self.model_providers.get(name)] *)
Definition lookup_model (name : pystr) : option provider_config :=
  match find (fun kv => pystr_eqb (fst kv) name) model_providers with
  | Some (_, c) => Some c
  | None => None
  end.

(** [model_config.get('model_id', self.model)] with
    [model_config = self.model_providers.get(self.model, {})]. *)
Definition request_model_id (name : pystr) : pystr :=
  match lookup_model name with
  | Some c => match model_id c with Some i => i | None => name end
  | None => name
  end.

(* ================================================================== *)
(** * The environment: what the interpreter, the network and the
      operating system answer *)

(** What [client.chat.completions.create] does. *)
Inductive api_outcome : Type :=
| ApiContent (full_response : option pystr)  (* choices[0].message.content *)
| ApiNoChoices                               (* no or empty [choices] *)
| ApiNoMessage                               (* a choice without message/content *)
| ApiRaise (e : exn).

(** One turn of the [select] loop: the time it took and, for each ready
    pipe, what [readline()] returned (the empty string at end of file). *)
Record select_round : Type := mkRound {
  round_seconds : Z;
  round_interrupted : bool;           (* Ctrl-C while waiting *)
  ready_stdout : option pystr;        (* None: not ready *)
  ready_stderr : option pystr
}.

(** How a child process started by [subprocess.Popen] behaves. *)
Record process_script : Type := mkScript {
  ps_popen : option exn;              (* Popen itself raising *)
  ps_stdout : list pystr;             (* lines read by iterating stdout *)
  ps_stdout_end : option exn;         (* the iteration ending in an exception *)
  ps_stderr : list pystr;
  ps_stderr_end : option exn;
  ps_read_seconds : Z;                (* time spent in the direct reads *)
  ps_rounds : list select_round;      (* the select fallback *)
  ps_exited_at_check : bool;          (* child gone when reading ends *)
  ps_sigterm : option exn;            (* send_signal raising *)
  ps_sigterm_obeyed : bool;           (* child exits within the grace second *)
  ps_grace_interrupted : bool;        (* Ctrl-C during the grace sleep *)
  ps_wait : result Z;                 (* process.wait() *)
  ps_wait_seconds : Z;
  ps_rest_stdout : pystr;             (* stream.read() after the wait *)
  ps_rest_stderr : pystr
}.

(** The settings a console command can change: [model <name>] switches
    the model and looks its key up again, [config model <name>] sets
    the model alone and [config command_timeout <n>] the deadline. *)
Record settings : Type := mkSettings {
  settings_model : pystr;
  settings_api_key : option pystr;
  settings_command_timeout : option Z
}.

Record environment : Type := mkEnv {
  os_nt : bool;                                   (* os.name == 'nt' *)
  py_lower : pystr -> pystr;                      (* str.lower *)
  has_anthropic : bool;                           (* import anthropic *)
  has_openai : bool;                              (* from openai import OpenAI *)
  chat_reply : pystr -> list message -> api_outcome;
  advisor_post : pystr -> option exn;             (* requests.post raising *)
  os_system : pystr -> result Z;                  (* os.system(command) *)
  spawn : pystr -> process_script;
  builtin_settings : pystr -> world -> settings;  (* the other console commands *)
  builtin_outcome : pystr -> option exn;
  welcome_outcome : option exn;                   (* _display_welcome *)
  init_outcome : option exn                       (* ECNUShellAssistant() *)
}.

(* ================================================================== *)
(** * [setup_prompt] *)

Definition os_type (env : environment) : pystr :=
  if os_nt env then lit "Windows" else lit "Linux/Unix".

(** The text before the operating system's name in the system prompt. *)
Definition system_prompt_head : pystr :=
  [20320; 26159; 19968; 20010; 19987; 19994; 30340; 83; 104; 101; 108;
   108; 21629; 20196; 36716; 25442; 21161; 25163; 12290; 29992; 25143;
   20250; 29992; 33258; 28982; 35821; 35328; 25551; 36848; 20182; 20204;
   24819; 35201; 25191; 34892; 30340; 25805; 20316; 65292; 35831; 23558;
   20854; 36716; 25442; 20026; 27491; 30830; 12289; 39640; 25928; 12289;
   23433; 20840; 30340]%N.

(** The text after it: the eight rules. *)
Definition system_prompt_tail : pystr :=
  [32; 83; 104; 101; 108; 108; 21629; 20196; 12290; 10; 35831; 20005;
   26684; 36981; 24490; 20197; 19979; 35268; 21017; 65306; 10; 49; 46; 32;
   21482; 36755; 20986; 35201; 25191; 34892; 30340; 83; 104; 101; 108; 108;
   21629; 20196; 65292; 19981; 35201; 26377; 20219; 20309; 39069; 22806;
   30340; 35299; 37322; 12289; 35828; 26126; 25991; 23383; 25110; 26684;
   24335; 26631; 35760; 10; 50; 46; 32; 30830; 20445; 21629; 20196; 26159;
   23433; 20840; 30340; 65292; 36991; 20813; 20351; 29992; 21487; 33021;
   30772; 22351; 31995; 32479; 30340; 25805; 20316; 65288; 22914; 114; 109;
   32; 45; 114; 102; 12289; 26684; 24335; 21270; 31561; 65289; 10; 51; 46;
   32; 20248; 20808; 20351; 29992; 24120; 35265; 12289; 36890; 29992;
   30340; 21629; 20196; 65292; 30830; 20445; 22312; 30446; 26631; 25805;
   20316; 31995; 32479; 19978; 21487; 29992; 10; 52; 46; 32; 23545; 20110;
   26597; 30475; 25991; 20214; 20869; 23481; 65292; 26681; 25454; 25991;
   20214; 22823; 23567; 36873; 25321; 21512; 36866; 30340; 21629; 20196;
   10; 53; 46; 32; 23545; 20110; 22797; 26434; 25805; 20316; 65292; 20351;
   29992; 31649; 36947; 21644; 37325; 23450; 21521; 31561; 83; 104; 101;
   108; 108; 29305; 24615; 26500; 24314; 39640; 25928; 21629; 20196; 10;
   54; 46; 32; 20026; 20102; 23433; 20840; 65292; 28155; 21152; 36866;
   24403; 30340; 36873; 39033; 65288; 22914; 114; 109; 21629; 20196; 28155;
   21152; 45; 105; 36873; 39033; 65289; 10; 55; 46; 32; 22914; 26524;
   29992; 25143; 35831; 27714; 19981; 26126; 30830; 65292; 29983; 25104;
   19968; 20010; 26368; 25509; 36817; 30340; 36890; 29992; 21629; 20196;
   10; 56; 46; 32; 36755; 20986; 24517; 39035; 26159; 21333; 20010; 12289;
   23436; 25972; 12289; 21487; 30452; 25509; 25191; 34892; 30340; 83; 104;
   101; 108; 108; 21629; 20196]%N.

Definition system_prompt (env : environment) : message :=
  mkMessage System (system_prompt_head ++ os_type env ++ system_prompt_tail).

(** [self.history.append(system_prompt)] *)
Definition setup_prompt (env : environment) : M unit :=
  modify (fun w => set_history (history w ++ [system_prompt env]) w).

(* ================================================================== *)
(** * [_simple_command_fallback] *)

(** [command_map], in insertion order; the keys that are Chinese words
    are glossed in English. *)
Definition command_map : list (pystr * pystr) :=
  [ ([21015; 20986; 25991; 20214]%N, lit "dir");         (* list files *)
    (lit "ls", lit "dir");
    ([26174; 31034; 24403; 21069; 30446; 24405]%N, lit "cd"); (* show current directory *)
    (lit "pwd", lit "cd");
    ([20999; 25442; 30446; 24405]%N, lit "cd");          (* change directory *)
    ([21019; 24314; 30446; 24405]%N, lit "mkdir");       (* create directory *)
    ([21024; 38500; 30446; 24405]%N, lit "rmdir");       (* remove directory *)
    ([21019; 24314; 25991; 20214]%N, lit "echo >");      (* create file *)
    ([26597; 30475; 25991; 20214]%N, lit "type");        (* view file *)
    ([21024; 38500; 25991; 20214]%N, lit "del");         (* delete file *)
    ([22797; 21046; 25991; 20214]%N, lit "copy");        (* copy file *)
    ([31227; 21160; 25991; 20214]%N, lit "move");        (* move file *)
    ([31995; 32479; 20449; 24687]%N, lit "systeminfo");  (* system information *)
    ([105; 112; 22320; 22336]%N, lit "ipconfig");        (* ip address *)
    ([36827; 31243; 21015; 34920]%N, lit "tasklist");    (* process list *)
    ([28165; 23631]%N, lit "cls");                       (* clear screen *)
    ([36864; 20986]%N, lit "exit") ].                    (* quit *)

(** ['echo ' followed by "test command executed successfully"]. *)
Definition echo_test : pystr :=
  [101; 99; 104; 111; 32; 27979; 35797; 21629; 20196; 25191; 34892; 25104;
   21151]%N.

(** The default answer: ['echo '] and a sentence saying the command was
    not recognised. *)
Definition echo_unrecognized : pystr :=
  [101; 99; 104; 111; 32; 26080; 27861; 35782; 21035; 30340; 21629; 20196;
   12290; 35797; 35797; 36755; 20837; 39; 21015; 20986; 25991; 20214; 39;
   12289; 39; 31995; 32479; 20449; 24687; 39; 25110; 39; 20320; 22909; 39;
   31561; 31616; 21333; 21629; 20196; 12290]%N.

Definition _simple_command_fallback (env : environment)
    (natural_language : pystr) : pystr :=
  let natural_language := py_lower env natural_language in
  let has (key : pystr) := contains key natural_language in
  match find (fun kv => has (fst kv)) command_map with
  | Some (_, cmd) => cmd
  | None =>
      if has (lit "hello") || has [20320; 22909]%N then lit "echo Hello, World!"
      else if has (lit "test") then echo_test
      else if has (lit "list") || has (lit "ls") || has (lit "dir") then lit "dir"
      else if has (lit "cd") || has [20999; 25442; 30446; 24405]%N
              || has [30446; 24405]%N then lit "cd"
      else if has (lit "file") || has [25991; 20214]%N then lit "dir"
      else if has (lit "system") || has [31995; 32479]%N then lit "systeminfo"
      else if has (lit "exit") || has [36864; 20986]%N || has (lit "quit")
           then lit "exit"
      else if has (lit "clear") || has [28165; 23631]%N then lit "cls"
      else echo_unrecognized
  end.

(* ================================================================== *)
(** * [natural_language_to_shell] *)

Definition enhanced_head : pystr := [22312]%N.

Definition enhanced_mid : pystr :=
  [31995; 32479; 19978; 65292; 23558; 20197; 19979; 33258; 28982; 35821;
   35328; 36716; 25442; 20026; 83; 104; 101; 108; 108; 21629; 20196; 58;
   32]%N.

Definition enhanced_tail : pystr :=
  [10; 35831; 36755; 20986; 21333; 20010; 12289; 23436; 25972; 12289;
   21487; 25191; 34892; 30340; 21629; 20196; 65292; 19981; 35201; 20854;
   20182; 20869; 23481; 12290]%N.

(** The f-string that wraps the request. *)
Definition enhanced_input (env : environment) (natural_language : pystr)
  : pystr :=
  enhanced_head ++ os_type env ++ enhanced_mid ++ natural_language
    ++ enhanced_tail.

(** The system prompt used when the history holds none. *)
Definition default_system_prompt : pystr :=
  [20320; 26159; 19968; 20010; 83; 104; 101; 108; 108; 21629; 20196;
   36716; 25442; 21161; 25163; 65292; 35831; 23558; 33258; 28982; 35821;
   35328; 36716; 25442; 20026; 20934; 30830; 30340; 83; 104; 101; 108; 108;
   21629; 20196; 12290; 21482; 36820; 22238; 21629; 20196; 65292; 19981;
   35201; 28155; 21152; 35299; 37322; 12290]%N.

(** The messages of the two [ValueError]s raised on a malformed reply. *)
Definition msg_no_choices : pystr :=
  [21709; 24212; 20013; 27809; 26377; 99; 104; 111; 105; 99; 101; 115;
   23383; 27573]%N.

Definition msg_no_message : pystr :=
  [21709; 24212; 20013; 27809; 26377; 25214; 21040; 109; 101; 115; 115;
   97; 103; 101; 25110; 99; 111; 110; 116; 101; 110; 116]%N.

Definition append_history (m : message) : M unit :=
  modify (fun w => set_history (history w ++ [m]) w).

(** [not self.api_key or len(self.api_key) < 10] *)
Definition credential_invalid (key : option pystr) : bool :=
  match key with
  | None => true
  | Some k => match k with [] => true | _ => false end
              || (Z.of_nat (List.length k) <? 10)
  end.

(** The system prompt and the latest user turn, as sent upstream. *)
Definition outbound_messages (hist : list message) (natural_language : pystr)
  : list message :=
  let system_message :=
    match find (fun m => role_eqb (msg_role m) System) hist with
    | Some m => mkMessage System (msg_content m)
    | None => mkMessage System default_system_prompt
    end in
  let user_messages := filter (fun m => role_eqb (msg_role m) User) hist in
  let user_message :=
    match rev user_messages with
    | m :: _ => mkMessage User (msg_content m)
    | [] => mkMessage User natural_language
    end in
  [system_message; user_message].

(** The cap at the end of a successful translation:
    [[history[0]] + history[-max_history_size+1:]]. *)
Definition trim_history : M unit := fun w =>
  let h := history w in
  if max_history_size w <? Z.of_nat (List.length h) then
    match h with
    | [] => (Exn (mkExn KIndexError (lit "list index out of range")), w)
    | system_prompt :: _ =>
        (Ok tt,
         set_history (system_prompt :: slice_from (- max_history_size w + 1) h) w)
    end
  else (Ok tt, w).

(** The body of the inner [try]: from the import of the client to the
    [return shell_command]. *)
Definition call_model (env : environment) (natural_language : pystr)
  : M (option pystr) :=
  if negb (has_openai env) then
    raise (mkExn KImportError (lit "No module named 'openai'"))
  else
    hist <- get history ;;
    name <- get model ;;
    let messages := outbound_messages hist natural_language in
    let id := request_model_id name in
    emit (EvApiCall id messages (pystr_eqb name qwen)) ;;
    match chat_reply env id messages with
    | ApiRaise e => raise e
    | ApiNoChoices => raise (mkExn KValueError msg_no_choices)
    | ApiNoMessage => raise (mkExn KValueError msg_no_message)
    | ApiContent None =>
        raise (mkExn KAttributeError
                 (lit "'NoneType' object has no attribute 'strip'"))
    | ApiContent (Some full_response) =>
        let shell_command := _clean_command full_response in
        append_history (mkMessage Assistant shell_command) ;;
        trim_history ;;
        ret (Some shell_command)
    end.

(** The inner [except Exception as e]. *)
Definition api_error_handler (env : environment) (e : exn)
  : M (option pystr) :=
  if is_Exception e then
    (if contains (lit "429") (exn_str e)
        || contains (lit "rate limit") (py_lower env (exn_str e))
     then sleep 10 else ret tt) ;;
    ret None
  else raise e.

(** The outer handlers, in the order they are written.  The one for
    [HTTPError] reads [response], which no path that reaches it has bound. *)
Definition translate_error_handler (env : environment)
    (natural_language : pystr) (e : exn) : M (option pystr) :=
  match exn_kind_of e with
  | KRequestsTimeout => ret None
  | KRequestsConnectionError => ret None
  | KRequestsHTTPError =>
      raise (mkExn KUnboundLocalError
               (lit "cannot access local variable 'response'"))
  | _ =>
      if is_Exception e then
        emit EvLogError ;;
        emit (EvFallback natural_language) ;;
        let shell_command := _simple_command_fallback env natural_language in
        match shell_command with
        | [] => ret None
        | _ :: _ =>
            append_history (mkMessage Assistant shell_command) ;;
            ret (Some shell_command)
        end
      else raise e
  end.

Definition natural_language_to_shell (env : environment)
    (natural_language : pystr) : M (option pystr) :=
  if negb (has_anthropic env) then ret None
  else
    let natural_language := strip natural_language in
    try_catch
      (match natural_language with
       | [] => ret None
       | _ :: _ =>
           append_history
             (mkMessage User (enhanced_input env natural_language)) ;;
           key <- get api_key ;;
           if credential_invalid key then ret None
           else
             allowed <- _check_rate_limit ;;
             allowed <- (if allowed then ret true
                         else sleep 2 ;; _check_rate_limit) ;;
             if negb allowed then ret None
             else
               _record_request ;;
               sleep 1 ;;
               try_catch (call_model env natural_language)
                         (api_error_handler env)
       end)
      (translate_error_handler env natural_language).

(* ================================================================== *)
(** * [_get_error_solution_from_llm] and [_log_command_output] *)

(** [_log_command_output] swallows its own failures. *)
Definition _log_command_output (command out err : pystr) (returncode : Z)
  : M unit :=
  emit (EvLogOutput command out err returncode).

(** [s[:2000] + ("[...]" if len(s) > 2000 else "")] *)
Definition truncate_output (s : pystr) : pystr :=
  firstn 2000 s
  ++ (if 2000 <? Z.of_nat (List.length s) then lit "[...]" else []).

Definition key_missing (key : option pystr) : bool :=
  match key with
  | None | Some [] => true
  | Some (_ :: _) => false
  end.

Definition _get_error_solution_from_llm (env : environment)
    (command out err : pystr) (returncode : Z) : M unit :=
  emit (EvAdvisor command out err returncode) ;;
  allowed <- _check_rate_limit ;;
  if negb allowed then ret tt
  else
    let stdout_truncated := truncate_output out in
    let stderr_truncated := truncate_output err in
    try_catch
      (name <- get model ;;
       match lookup_model name with
       | None => ret tt
       | Some _ =>
           key <- get api_key ;;
           if key_missing key then ret tt
           else
             emit (EvAdvisorPost command stdout_truncated stderr_truncated
                     returncode) ;;
             match advisor_post env command with
             | Some e => raise e
             | None => _record_request
             end
       end)
      (fun e =>
         if is_RequestException e || is_KeyboardInterrupt e || is_Exception e
         then ret tt else raise e).

(* ================================================================== *)
(** * [execute_shell_command] *)

(** What the function hands back: the 3-tuple or a bare integer. *)
Inductive exec_return : Type :=
| RetTuple (stdout_text stderr_text : pystr) (returncode : Z)
| RetInt (n : Z).

(** [self.config.get("command_timeout", 60)] *)
Definition configured_timeout (w : world) : Z :=
  match command_timeout w with Some t => t | None => 60 end.

Definition nonempty (s : pystr) : bool :=
  match s with [] => false | _ :: _ => true end.

Definition interrupt : exn := mkExn KKeyboardInterrupt [].

(** [process.kill()] *)
Definition kill : M unit :=
  emit EvKill ;; modify (set_child_running false).

(** The branch for [sudo] commands outside Windows. *)
Definition run_sudo (env : environment) (command : pystr) : M exec_return :=
  try_catch
    (emit (EvOsSystem command) ;;
     match os_system env command with
     | Exn e => raise e
     | Ok status =>
         let returncode := if os_nt env then status else status / 256 in
         _log_command_output command [] [] returncode ;;
         (if returncode =? 0 then ret tt
          else _get_error_solution_from_llm env command [] [] returncode) ;;
         ret (RetTuple [] [] returncode)
     end)
    (fun e => if is_Exception e then ret (RetTuple [] (exn_str e) (-1))
              else raise e).

(** [process = subprocess.Popen(...)]: a new child is started and the
    variable [process] refers to it from now on; the child it referred
    to before, if still running, is left to itself. *)
Definition popen (script : process_script) (command : pystr) : M unit :=
  emit (EvPopen command) ;;
  match ps_popen script with
  | Some e => raise e
  | None =>
      modify (fun w =>
        set_abandoned
          (if child_running w then S (abandoned w) else abandoned w) w) ;;
      modify (set_child_running true)
  end.

(** The two [for line in ...] loops.  The lines read before a failure
    stay in the buffers. *)
Definition read_directly (script : process_script)
  : M (list pystr * list pystr * option exn) :=
  let stdout_lines := filter nonempty (ps_stdout script) in
  modify (fun w => set_clock (clock w + ps_read_seconds script) w) ;;
  match ps_stdout_end script with
  | Some e => ret (stdout_lines, [], Some e)
  | None =>
      ret (stdout_lines, filter nonempty (ps_stderr script),
           ps_stderr_end script)
  end.

Definition mem_stream (s : stream) (l : list stream) : bool :=
  existsb (stream_eqb s) l.

Definition remove_stream (s : stream) (l : list stream) : list stream :=
  filter (fun x => negb (stream_eqb s x)) l.

(** One pipe reported ready by [select]: [readline()], then either the
    pipe leaves [readable] or the line joins its buffer. *)
Definition read_ready (s : stream) (line : option pystr)
    (st : list stream * list pystr * list pystr)
  : list stream * list pystr * list pystr :=
  let '(readable, out, err) := st in
  match line with
  | None => st
  | Some l =>
      if negb (mem_stream s readable) then st
      else if negb (nonempty l) then (remove_stream s readable, out, err)
      else match s with
           | Stdout => (readable, out ++ [l], err)
           | Stderr => (readable, out, err ++ [l])
           end
  end.

(** [while readable and time.time() - start_time < timeout].  When the
    scripted turns are used up the child stays silent, so [select] keeps
    timing out until the deadline. *)
Fixpoint select_loop (timeout start_time : Z) (rounds : list select_round)
    (readable : list stream) (out err : list pystr)
  : M (list pystr * list pystr) :=
  fun w =>
    match readable with
    | [] => (Ok (out, err), w)
    | _ :: _ =>
        if timeout <=? clock w - start_time then (Ok (out, err), w)
        else
          match rounds with
          | [] =>
              (Ok (out, err),
               set_clock (Z.max (clock w) (start_time + timeout)) w)
          | r :: rest =>
              let w1 := set_clock (clock w + round_seconds r) w in
              if round_interrupted r then (Exn interrupt, w1)
              else
                let '(readable', out', err') :=
                  read_ready Stderr (ready_stderr r)
                    (read_ready Stdout (ready_stdout r) (readable, out, err)) in
                select_loop timeout start_time rest readable' out' err' w1
          end
    end.

(** The branch taken when the deadline has passed. *)
Definition terminate_child (env : environment) (script : process_script)
  : M unit :=
  if os_nt env then kill
  else
    try_catch
      (emit EvSigterm ;;
       match ps_sigterm script with
       | Some e => raise e
       | None =>
           (if ps_sigterm_obeyed script
            then modify (set_child_running false) else ret tt) ;;
           sleep 1 ;;
           (if ps_grace_interrupted script then raise interrupt else ret tt) ;;
           running <- get child_running ;;
           if running then kill else ret tt
       end)
      (fun _ => kill).

(** From [Popen] to the end of output reading: the two buffers and
    [start_time]. *)
Definition read_output (env : environment) (command : pystr) (timeout : Z)
  : M (list pystr * list pystr * Z) :=
  let script := spawn env command in
  popen script command ;;
  (if os_nt env then ret tt else popen script command) ;;
  start_time <- get clock ;;
  '(stdout_lines, stderr_lines, failure) <- read_directly script ;;
  '(stdout_lines, stderr_lines) <-
    match failure with
    | None => ret (stdout_lines, stderr_lines)
    | Some e =>
        if is_Exception e then
          select_loop timeout start_time (ps_rounds script) [Stdout; Stderr]
            stdout_lines stderr_lines
        else raise e
    end ;;
  (if ps_exited_at_check script
   then modify (set_child_running false) else ret tt) ;;
  ret (stdout_lines, stderr_lines, start_time).

(** After a run that met its deadline: [process.wait()], the residual
    output, the log and, on a non-zero code, the advisor. *)
Definition finish_child (env : environment) (command : pystr)
    (stdout_lines stderr_lines : list pystr) : M exec_return :=
  let script := spawn env command in
  emit EvWait ;;
  modify (fun w => set_clock (clock w + ps_wait_seconds script) w) ;;
  match ps_wait script with
  | Exn e => raise e
  | Ok returncode =>
      modify (set_child_running false) ;;
      let stdout_lines :=
        if nonempty (ps_rest_stdout script)
        then stdout_lines ++ [ps_rest_stdout script] else stdout_lines in
      let stderr_lines :=
        if nonempty (ps_rest_stderr script)
        then stderr_lines ++ [ps_rest_stderr script] else stderr_lines in
      let out := List.concat stdout_lines in
      let err := List.concat stderr_lines in
      _log_command_output command out err returncode ;;
      (if returncode =? 0 then ret tt
       else _get_error_solution_from_llm env command out err returncode) ;;
      ret (RetTuple out err returncode)
  end.

(** The body of the outer [try], for a command run through [Popen]. *)
Definition run_child (env : environment) (command : pystr) : M exec_return :=
  timeout <- get configured_timeout ;;
  '(stdout_lines, stderr_lines, start_time) <-
    read_output env command timeout ;;
  now <- get clock ;;
  if timeout <=? now - start_time then
    terminate_child env (spawn env command) ;;
    ret (RetInt (-1))
  else finish_child env command stdout_lines stderr_lines.

Definition is_sudo_command (command : pystr) : bool :=
  contains (lit "sudo") command && negb (startswith (lit "#") command).

Definition execute_shell_command (env : environment) (command : pystr)
  : M exec_return :=
  try_catch
    (modify (fun w => set_command_history (command_history w ++ [command]) w) ;;
     if is_sudo_command command && negb (os_nt env)
     then run_sudo env command
     else run_child env command)
    (fun e =>
       if is_KeyboardInterrupt e then ret (RetInt (-1))
       else if is_Exception e then
         _get_error_solution_from_llm env command [] (exn_str e) (-1) ;;
         ret (RetInt (-1))
       else raise e).

(* ================================================================== *)
(** * The interactive loop: [main] *)

Definition set_api_key (k : option pystr) (w : world) : world :=
  mkWorld (history w) k (model w) (max_history_size w) (rpm w)
    (rph w) (rpd w) (requests w) (rate_limit_enabled w) (command_history w)
    (quiet_mode w) (command_timeout w) (clock w) (stdin w)
    (child_running w) (abandoned w) (trace w).

Definition set_model (m : pystr) (w : world) : world :=
  mkWorld (history w) (api_key w) m (max_history_size w) (rpm w)
    (rph w) (rpd w) (requests w) (rate_limit_enabled w) (command_history w)
    (quiet_mode w) (command_timeout w) (clock w) (stdin w)
    (child_running w) (abandoned w) (trace w).

Definition set_command_timeout (t : option Z) (w : world) : world :=
  mkWorld (history w) (api_key w) (model w) (max_history_size w) (rpm w)
    (rph w) (rpd w) (requests w) (rate_limit_enabled w) (command_history w)
    (quiet_mode w) t (clock w) (stdin w)
    (child_running w) (abandoned w) (trace w).

Inductive loop_step : Type := Continue | Break.

(** [s in [a, b, ...]] for a list of ASCII literals. *)
Definition one_of (s : pystr) (l : list string) : bool :=
  existsb (fun x => pystr_eqb s (lit x)) l.

(** A console command whose work lies outside this model (help, clear,
    history, emblem, config, model, explain): it is recorded, and the
    environment says with which settings it leaves the session and
    whether it raises. *)
Definition run_builtin (env : environment) (user_input : pystr) : M unit :=
  emit (EvBuiltin user_input) ;;
  modify (fun w =>
    let s := builtin_settings env user_input w in
    set_model (settings_model s)
      (set_api_key (settings_api_key s)
         (set_command_timeout (settings_command_timeout s) w))) ;;
  match builtin_outcome env user_input with
  | Some e => raise e
  | None => ret tt
  end.

(** The words that make teach mode suspect a request in plain language;
    the last three are Chinese ("I want", "please", "help"). *)
Definition natural_language_words : list pystr :=
  [ lit "how"; lit "what"; lit "where"; lit "list"; lit "show";
    lit "create"; lit "delete"; lit "find";
    [25105; 24819]%N; [35831]%N; [24110]%N ].

(** One turn of the teach-mode loop, inside its [try]. *)
Definition teach_body (env : environment) : M loop_step :=
  raw <- input ;;
  let teach_input := strip raw in
  let lower := py_lower env teach_input in
  if negb (nonempty teach_input) then ret Continue
  else if pystr_eqb lower (lit "exit") then ret Break
  else if pystr_eqb lower (lit "help") then ret Continue
  else if startswith (lit "explain ") lower then
    let natural_language := strip (skipn 8 teach_input) in
    (if nonempty natural_language then run_builtin env natural_language
     else ret tt) ;;
    ret Continue
  else if Z.of_nat (List.length teach_input) <? 2 then ret Continue
  else if one_of lower [""; " "; "a"; "aa"; "test"; "abc"; "xxx"]%string
  then ret Continue
  else
    handled <-
      (if contains (lit " ") teach_input
          && (10 <? Z.of_nat (List.length teach_input))
       then
         let words := split_ws lower in
         if existsb (fun word => existsb (pystr_eqb word) words)
                    natural_language_words
         then
           response <- input ;;
           if pystr_eqb (py_lower env response) (lit "y")
           then run_builtin env teach_input ;; ret true
           else ret false
         else ret false
       else ret false) ;;
    if handled : bool then ret Continue
    else run_builtin env teach_input ;; ret Continue.

(** The teach-mode [while True]; [false] means the fuel ran out. *)
Fixpoint teach_loop (env : environment) (fuel : nat) : M bool :=
  match fuel with
  | O => ret false
  | S fuel' =>
      step <- try_catch (teach_body env)
                (fun e => if is_KeyboardInterrupt e then ret Continue
                          else raise e) ;;
      match step with
      | Break => ret true
      | Continue => teach_loop env fuel'
      end
  end.

(** The cap applied by [main] after a command has run:
    [history[-max_history_size:]]. *)
Definition main_trim_history : M unit :=
  modify (fun w =>
    if max_history_size w <? Z.of_nat (List.length (history w))
    then set_history (slice_from (- max_history_size w) (history w)) w
    else w).

(** One turn of the main loop, inside its [try].  [None] means the teach
    loop ran out of fuel. *)
Definition main_body (env : environment) : M (option loop_step) :=
  raw <- input ;;
  let user_input := strip raw in
  let lower := py_lower env user_input in
  if one_of lower ["exit"; "quit"; "q"]%string then ret (Some Break)
  else if one_of lower ["help"; "h"; "clear"; "cls"; "history"]%string
          || startswith (lit "emblem_rgb") lower
          || startswith (lit "emblem") lower
          || startswith (lit "show_emblem") lower
          || startswith (lit "config") lower
          || startswith (lit "model") lower
  then run_builtin env user_input ;; ret (Some Continue)
  else if one_of lower ["rate_limit off"; "ratelimit off"]%string then
    modify (set_rate_limit_enabled false) ;; ret (Some Continue)
  else if one_of lower ["rate_limit on"; "ratelimit on"]%string then
    modify (set_rate_limit_enabled true) ;; ret (Some Continue)
  else if one_of lower ["rate_limit status"; "ratelimit status"]%string then
    ret (Some Continue)
  else if startswith (lit "teach") lower then
    fuel <- get (fun w => S (List.length (stdin w))) ;;
    finished <- teach_loop env fuel ;;
    ret (if finished : bool then Some Continue else None)
  else if startswith (lit "explain ") lower then
    let natural_language := strip (skipn 8 user_input) in
    (if nonempty natural_language then run_builtin env natural_language
     else ret tt) ;;
    ret (Some Continue)
  else if negb (nonempty user_input) then ret (Some Continue)
  else
    shell_command <- natural_language_to_shell env user_input ;;
    match shell_command with
    | Some (c :: cs) =>
        let shell_command := c :: cs in
        confirmed <-
          (if _is_dangerous_command shell_command then
             confirm <- input ;;
             ret (pystr_eqb (py_lower env confirm) (lit "yes"))
           else
             confirm <- input ;;
             ret (pystr_eqb (py_lower env confirm) (lit "y"))) ;;
        if confirmed : bool then
          execute_shell_command env shell_command ;;
          main_trim_history ;;
          ret (Some Continue)
        else ret (Some Continue)
    | _ => ret (Some Continue)
    end.

(** The handlers of the loop's [try]. *)
Definition main_handler (e : exn) : M (option loop_step) :=
  match exn_kind_of e with
  | KKeyboardInterrupt => ret (Some Continue)
  | KEOFError => ret (Some Break)
  | _ => if is_Exception e then emit EvLogError ;; ret (Some Continue)
         else raise e
  end.

(** The [while True] of [main]; [false] means the fuel ran out. *)
Fixpoint main_loop (env : environment) (fuel : nat) : M bool :=
  match fuel with
  | O => ret false
  | S fuel' =>
      step <- try_catch (main_body env) main_handler ;;
      match step with
      | None => ret false
      | Some Break => ret true
      | Some Continue => main_loop env fuel'
      end
  end.

Definition _display_welcome (env : environment) : M unit :=
  emit EvWelcome ;;
  match welcome_outcome env with
  | Some e => raise e
  | None => ret tt
  end.

(** [save_command_history] reports its own failures and goes on. *)
Definition save_command_history : M unit :=
  cmds <- get command_history ;; emit (EvSaveHistory cmds).

(** [main]: every turn of the loop reads at least one line, so one more
    turn than there are pending input events is enough fuel. *)
Definition main (env : environment) : M bool :=
  try_finally
    (_display_welcome env ;;
     fuel <- get (fun w => S (List.length (stdin w))) ;;
     main_loop env fuel)
    save_command_history.

(* ================================================================== *)
(** * The script's entry point *)

(** The parsed command line. *)
Record arguments : Type := mkArgs {
  arg_api_key : option pystr;
  arg_model : option pystr;
  arg_timeout : option Z
}.

(** How the process ends. *)
Inductive exit_status : Type :=
| ExitCode (code : Z)
| Uncaught (e : exn)                  (* a BaseException nobody caught *)
| OutOfFuel.

(** [ECNUShellAssistant()]: fresh histories, the default model, the
    limiter switched on, then the system prompt.  The fields that come
    from the configuration file are those of the starting world. *)
Definition construct (env : environment) : M unit :=
  match init_outcome env with
  | Some e => raise e
  | None =>
      modify (fun w =>
        set_model (lit "GLM-4.6")
          (set_rate_limit_enabled true
             (set_requests []
                (set_command_history [] (set_history [] w))))) ;;
      setup_prompt env
  end.

Definition apply_arguments (args : arguments) : M unit :=
  (match arg_api_key args with
   | Some (c :: k) => modify (set_api_key (Some (c :: k)))
   | _ => ret tt
   end) ;;
  (match arg_model args with
   | Some (c :: m) => modify (set_model (c :: m))
   | _ => ret tt
   end) ;;
  (match arg_timeout args with
   | Some t => if t =? 0 then ret tt
               else modify (set_command_timeout (Some t))
   | None => ret tt
   end).

(** The [if __name__ == "__main__"] block after argument parsing. *)
Definition program (env : environment) (args : arguments) (w : world)
  : exit_status * world :=
  let body :=
    try_catch (construct env ;; apply_arguments args ;; main env)
      (fun e => if is_Exception e then raise (mkExn (KSystemExit 1) [])
                else raise e) in
  match body w with
  | (Ok true, w') => (ExitCode 0, w')
  | (Ok false, w') => (OutOfFuel, w')
  | (Exn e, w') =>
      match exn_kind_of e with
      | KSystemExit code => (ExitCode code, w')
      | _ => (Uncaught e, w')
      end
  end.

(* ================================================================== *)
(** * Vocabulary of the statements *)

(** A word, as [split()] produces them: not empty and free of
    whitespace. *)
Definition word (w : pystr) : Prop :=
  w <> [] /\ forallb (fun c => negb (is_space c)) w = true.

(** [record()] called at instant [t], and at each instant of a list. *)
Definition record_at (t : Z) (w : world) : world :=
  snd (_record_request (set_clock t w)).

Definition record_all (ts : list Z) (w : world) : world :=
  fold_left (fun w t => record_at t w) ts w.

(** The verdict of [check()]. *)
Definition refused (w : world) : Prop := fst (_check_rate_limit w) = Ok false.
Definition allowed (w : world) : Prop := fst (_check_rate_limit w) = Ok true.

(** ** Sample sessions and environments *)

(** [str.lower] restricted to ASCII letters. *)
Definition ascii_lower (s : pystr) : pystr :=
  map (fun c => if ((65 <=? c) && (c <=? 90))%N then (c + 32)%N else c) s.

(** A child that prints nothing and exits with code 0 at once. *)
Definition quiet_script : process_script :=
  mkScript None [] None [] None 0 [] true None true false (Ok 0) 0 [] [].

(** Console commands that change no setting. *)
Definition same_settings (user_input : pystr) (w : world) : settings :=
  mkSettings (model w) (api_key w) (command_timeout w).

(** A Unix machine where every import succeeds and nothing raises; the
    model's reply, the result of [os.system] and the child's behaviour
    are given. *)
Definition sample_env (reply : api_outcome) (status : result Z)
    (script : process_script) : environment :=
  mkEnv false ascii_lower true true (fun _ _ => reply) (fun _ => None)
    (fun _ => status) (fun _ => script) same_settings (fun _ => None)
    None None.

(** A session right after start-up with the given key, history cap and
    limits. *)
Definition sample_session (key : option pystr) (cap per_minute per_hour
    per_day : Z) : world :=
  mkWorld [system_prompt (sample_env ApiNoChoices (Ok 0) quiet_script)]
    key (lit "GLM-4.6") cap per_minute per_hour per_day [] true [] false
    None 0 [] false 0 [].

Definition sample_key : option pystr := Some (lit "ms-0123456789abcdef").

(** A request in plain English, and the environments used to exercise
    the translator: the model answers ["ls"], or the call fails. *)
Definition list_files : pystr := lit "list files".

Definition answering_env : environment :=
  sample_env (ApiContent (Some (lit "ls"))) (Ok 0) quiet_script.

Definition failing_env (e : exn) : environment :=
  sample_env (ApiRaise e) (Ok 0) quiet_script.

Definition network_timeout : exn :=
  mkExn KRequestsTimeout (lit "Request timed out.").
Definition connection_failure : exn :=
  mkExn KRequestsConnectionError (lit "Connection error.").
Definition generic_failure : exn :=
  mkExn KOtherException (lit "Internal Server Error").

(** The user turn the translator records for a request. *)
Definition user_turn (env : environment) (natural_language : pystr)
  : message :=
  mkMessage User (enhanced_input env (strip natural_language)).

(** The translation of "list files" when the remote call raises [e], in
    a fresh session with a usable key. *)
Definition failed_translation (e : exn) : result (option pystr) * world :=
  natural_language_to_shell (failing_env e) list_files
    (sample_session sample_key 100 10 60 100).

(** The effects of such a run: the safety delay and the call itself. *)
Definition call_only (e : exn) : list event :=
  [ EvSleep 1;
    EvApiCall (lit "ZhipuAI/GLM-4.6")
      [system_prompt (failing_env e); user_turn (failing_env e) list_files]
      false ].

(** A fresh session whose configuration caps the history at one entry,
    and the same with the user about to type the request and ["y"]. *)
Definition capped_session : world := sample_session sample_key 1 10 60 100.

Definition capped_console : world :=
  set_stdin [Line list_files; Line (lit "y")] capped_session.

(** ** Frames *)

(** A computation frames a relation between worlds when every run, from
    any world, ends in a related one. *)
Definition frames {A} (R : world -> world -> Prop) (m : M A) : Prop :=
  forall w, R w (snd (m w)).

(** What neither the translator nor the executor ever touches: the
    pending console input and the configuration. *)
Definition stable (w w' : world) : Prop :=
  stdin w' = stdin w
  /\ rate_limit_enabled w' = rate_limit_enabled w
  /\ rpm w' = rpm w /\ rph w' = rph w /\ rpd w' = rpd w
  /\ api_key w' = api_key w /\ model w' = model w
  /\ max_history_size w' = max_history_size w
  /\ command_timeout w' = command_timeout w.

(** Console input is only ever consumed. *)
Definition consumes (w w' : world) : Prop :=
  (List.length (stdin w') <= List.length (stdin w))%nat.

(** ** Conditions under which the advisor returns *)

(** [check()] cannot fail on [min()]: the limiter is off or its
    per-minute limit is positive. *)
Definition limiter_safe (w : world) : Prop :=
  rate_limit_enabled w = false \/ 0 < rpm w.

(** The advisor's HTTP call raises nothing beyond ordinary exceptions and
    a keyboard interrupt. *)
Definition advisor_benign (env : environment) : Prop :=
  forall command e,
    advisor_post env command = Some e ->
    is_Exception e || is_KeyboardInterrupt e = true.

(** What the outer handlers of the executor make of an exception. *)
Definition handled (e : exn) : result exec_return :=
  if is_KeyboardInterrupt e || is_Exception e then Ok (RetInt (-1))
  else Exn e.

(** A buffer with the residual output appended. *)
Definition with_rest (lines : list pystr) (rest : pystr) : list pystr :=
  if nonempty rest then lines ++ [rest] else lines.

(** ** Signals and sample commands *)

(** The termination requests among a list of effects. *)
Definition signals (evs : list event) : list event :=
  filter (fun ev => match ev with
                    | EvSigterm | EvKill => true
                    | _ => false
                    end) evs.

(** Is the force-kill reached after the graceful signal? *)
Definition kill_needed (script : process_script) (running : bool) : bool :=
  match ps_sigterm script with
  | Some _ => true
  | None =>
      ps_grace_interrupted script
      || (running && negb (ps_sigterm_obeyed script))
  end.

(** A child whose pipes stay open and silent for [seconds] seconds.  An
    ordinary one has exited by then; a [stubborn] one is still running
    and ignores SIGTERM. *)
Definition sleeper (seconds : Z) (stubborn : bool) : process_script :=
  mkScript None [] None [] None seconds [] (negb stubborn) None
    (negb stubborn) false (Ok 0) 0 [] [].

Definition sleep_100 : pystr := lit "sleep 100".

Definition sleeping_env : environment :=
  sample_env ApiNoChoices (Ok 0) (sleeper 100 false).

Definition stubborn_env : environment :=
  sample_env ApiNoChoices (Ok 0) (sleeper 100 true).

(** A child that closes its two pipes at once and goes on running for
    [seconds] seconds, as [sleep 100 >/dev/null 2>&1] does: the reads
    end immediately and [wait()] takes the rest. *)
Definition detached (seconds : Z) : process_script :=
  mkScript None [] None [] None 0 [] false None true false (Ok 0) seconds
    [] [].

Definition detached_sleep : pystr := lit "sleep 100 >/dev/null 2>&1".

Definition detached_env : environment :=
  sample_env ApiNoChoices (Ok 0) (detached 100).

(** A child during whose output the user presses Ctrl-C. *)
Definition interrupted_env : environment :=
  sample_env ApiNoChoices (Ok 0)
    (mkScript None [] (Some interrupt) [] None 5 [] false None true false
       (Ok 0) 0 [] []).

(** A sudo command with an embedded NUL, which [os.system] rejects. *)
Definition sudo_nul : pystr := lit "sudo ls " ++ [0%N].

Definition sudo_env : environment :=
  sample_env ApiNoChoices
    (Exn (mkExn KValueError (lit "embedded null byte"))) quiet_script.

Definition fresh_session : world := sample_session sample_key 100 10 60 100.

(** A command that prints nothing and exits with code 1, run in a
    session whose configuration sets the per-minute limit to 0. *)
Definition exit_one_env : environment :=
  sample_env ApiNoChoices (Ok 0)
    (mkScript None [] None [] None 0 [] true None true false (Ok 1) 0
       [] []).

Definition zero_rpm_session : world :=
  sample_session sample_key 100 0 60 100.

(** A start-up that fails: no key is configured anywhere, so the
    constructor reaches the prompt for a key, whose first line reads
    [self.model] before [__init__] has set it. *)
Definition broken_env : environment :=
  mkEnv false ascii_lower true true (fun _ _ => ApiNoChoices)
    (fun _ => None) (fun _ => Ok 0) (fun _ => quiet_script) same_settings
    (fun _ => None) None
    (Some (mkExn KAttributeError
             (lit "'ECNUShellAssistant' object has no attribute 'model'"))).

Definition no_arguments : arguments := mkArgs None None None.

(** ** The loop, turn by turn *)

(** One turn of the main loop: the body of the [while] under its three
    handlers. *)
Definition turn (env : environment) : M (option loop_step) :=
  try_catch (main_body env) main_handler.

(** The world in which the loop starts: the assistant is constructed,
    the command line applied and the welcome screen shown. *)
Definition started (env : environment) (args : arguments) (w : world)
  : world :=
  snd ((construct env ;; apply_arguments args ;; _display_welcome env) w).

(** [continues env w w']: the loop gets from [w] to [w'] by turns that
    all end in [continue]. *)
Inductive continues (env : environment) : world -> world -> Prop :=
| continues_here (w : world) : continues env w w
| continues_on (w w1 w2 : world) :
    turn env w = (Ok (Some Continue), w1) ->
    continues env w1 w2 ->
    continues env w w2.

(** A turn of the loop gives an answer when it does not report that the
    fuel ran out. *)
Definition answers (m : M (option loop_step)) : Prop :=
  forall w, fst (m w) <> Ok None.

(* ================================================================== *)
(** * What the patterns of the danger classifier mean *)

(** The strings a pattern matches in full, as Python's [re] reads this
    fragment of its syntax. *)
Inductive matches : regex -> pystr -> Prop :=
| MEps : matches REps []
| MLit (c : pychar) : matches (RLit c) [c]
| MDot (c : pychar) : c <> 10%N -> matches RDot [c]
| MCat (a b : regex) (s t : pystr) :
    matches a s -> matches b t -> matches (RCat a b) (s ++ t)
| MAltL (a b : regex) (s : pystr) : matches a s -> matches (RAlt a b) s
| MAltR (a b : regex) (s : pystr) : matches b s -> matches (RAlt a b) s
| MStar0 (a : regex) : matches (RStar a) []
| MStarS (a : regex) (s t : pystr) :
    matches a s -> matches (RStar a) t -> matches (RStar a) (s ++ t).

(** The four patterns that are plain words, and the five of the shape
    [a.*b]. *)
Definition danger_words : list string :=
  ["mkfs."; "shutdown"; "reboot"; "poweroff"]%string.

Definition danger_pairs : list (string * string) :=
  [ ("rm", "-rf"); ("dd", "of="); ("chmod", "777"); (">", "/etc/");
    ("||", "rm") ]%string.

(** A string without a line feed: what [.*] can span. *)
Definition one_line (s : pystr) : Prop := ~ In 10%N s.

(** [p] occurs in [s]. *)
Definition occurs (p s : pystr) : Prop := exists x y, s = x ++ p ++ y.

(** [a] occurs in [s] and [b] occurs after it on the same line. *)
Definition occurs_then (a b s : pystr) : Prop :=
  exists x m y, s = x ++ a ++ m ++ b ++ y /\ one_line m.

(* ================================================================== *)
(** * The limiter's invariant *)

(** The number of recorded requests that fall in the trailing window of
    [a] seconds, as [check()] counts them. *)
Definition window_count (a : Z) (w : world) : Z :=
  count_if (within a (clock w)) (requests w).

(** The limiter is on and no window holds more than its limit. *)
Definition within_limits (w : world) : Prop :=
  rate_limit_enabled w = true
  /\ window_count 60 w <= rpm w
  /\ window_count 3600 w <= rph w
  /\ window_count 86400 w <= rpd w.

(** The limiter is on and every window has room for one more request. *)
Definition has_room (w : world) : Prop :=
  rate_limit_enabled w = true
  /\ window_count 60 w < rpm w
  /\ window_count 3600 w < rph w
  /\ window_count 86400 w < rpd w.

(** Time passing and pruning: the limiter's settings stay and no window
    count grows. *)
Definition ages (w w' : world) : Prop :=
  rate_limit_enabled w' = rate_limit_enabled w
  /\ rpm w' = rpm w /\ rph w' = rph w /\ rpd w' = rpd w
  /\ forall a, a <= 86400 -> window_count a w' <= window_count a w.

(** A computation run from a world satisfying [P] ends in one satisfying
    [Q] when it returns and [E] when it raises. *)
Definition hoare {A} (P : world -> Prop) (m : M A)
    (Q : A -> world -> Prop) (E : world -> Prop) : Prop :=
  forall w, P w ->
    match m w with
    | (Ok a, w') => Q a w'
    | (Exn _, w') => E w'
    end.

(** ** A request on its way to the model *)

(** The world in which the remote call starts once a request has been
    admitted: the user turn is recorded, the limiter has pruned its
    list and recorded the request, and the one-second safety delay is
    over. *)
Definition admitted (env : environment) (natural_language : pystr)
    (w : world) : world :=
  snd ((append_history (user_turn env natural_language) ;;
        _check_rate_limit ;;
        _record_request ;;
        sleep 1) w).

(** The content of the system message sent upstream: that of the first
    system entry of the history, or the built-in default. *)
Definition system_content (hist : list message) : pystr :=
  match find (fun m => role_eqb (msg_role m) System) hist with
  | Some m => msg_content m
  | None => default_system_prompt
  end.

(** The trace only grows: [w'] continues the trace of [w]. *)
Definition extends (w w' : world) : Prop :=
  exists tail, trace w' = trace w ++ tail.

(** ** What a run of the executor leaves behind *)

(** The events of [w'] are those of [w] followed by events that all pass
    the test [ok]. *)
Definition emits (ok : event -> bool) (w w' : world) : Prop :=
  exists tail, trace w' = trace w ++ tail /\ forallb ok tail = true.

(** Events other than the start of a child process. *)
Definition not_popen (ev : event) : bool :=
  match ev with EvPopen _ => false | _ => true end.

(** Events other than a call of the advisor or its HTTP request. *)
Definition not_advice (ev : event) : bool :=
  match ev with
  | EvAdvisor _ _ _ _ | EvAdvisorPost _ _ _ _ => false
  | _ => true
  end.

(** The two histories are left as they were. *)
Definition untouched (w w' : world) : Prop :=
  command_history w' = command_history w /\ history w' = history w.

(** The events since [w] are free of advice. *)
Definition advice_free (w w' : world) : Prop := emits not_advice w w'.

(** Since [w], the output of [command] has been logged as the last
    event, and the advisor was not consulted before that. *)
Definition logged_last (w : world) (command out err : pystr) (rc : Z)
    (w' : world) : Prop :=
  exists evs,
    trace w' = trace w ++ evs ++ [EvLogOutput command out err rc]
    /\ forallb not_advice evs = true.

(** What a call started in [w] owes its caller when it returns: a tuple
    with exit code 0 comes with its output logged and no advice asked. *)
Definition clean_exit (w : world) (command : pystr) (r : exec_return)
    (w' : world) : Prop :=
  match r with
  | RetTuple out err rc => rc = 0 -> logged_last w command out err 0 w'
  | RetInt _ => True
  end.

(* ================================================================== *)
(** * The console *)

(** The tests [main] makes of a line before it treats it as a request
    to translate: the exit words, the console commands, teach and
    explain mode, and the empty line. *)
Definition is_console_command (env : environment) (user_input : pystr)
  : bool :=
  let lower := py_lower env user_input in
  one_of lower ["exit"; "quit"; "q"]%string
  || (one_of lower ["help"; "h"; "clear"; "cls"; "history"]%string
      || startswith (lit "emblem_rgb") lower
      || startswith (lit "emblem") lower
      || startswith (lit "show_emblem") lower
      || startswith (lit "config") lower
      || startswith (lit "model") lower)
  || one_of lower ["rate_limit off"; "ratelimit off"]%string
  || one_of lower ["rate_limit on"; "ratelimit on"]%string
  || one_of lower ["rate_limit status"; "ratelimit status"]%string
  || startswith (lit "teach") lower
  || startswith (lit "explain ") lower
  || negb (nonempty user_input).

(** The word that confirms a command: [yes] for a dangerous one, [y]
    for any other. *)
Definition consent_word (command : pystr) : pystr :=
  if _is_dangerous_command command then lit "yes" else lit "y".

(* ================================================================== *)
(** * Properties of the danger classifier *)

(** C7. The danger classifier is a function of the command text alone,
    and it flags "rm -rf /tmp/x" and "sudo shutdown now" while it lets
    "ls -la" through. *)
Theorem danger_classifier_examples :
  _is_dangerous_command (lit "rm -rf /tmp/x") = true
  /\ _is_dangerous_command (lit "ls -la") = false
  /\ _is_dangerous_command (lit "sudo shutdown now") = true.
Proof. repeat split; vm_compute; reflexivity. Qed.

(* ================================================================== *)
(** * Properties of command cleaning *)

Section Words.

Lemma is_space_32 : is_space 32%N = true.
Proof. reflexivity. Qed.

Lemma word_cons (c : pychar) (w : pystr) :
  word (c :: w) -> is_space c = false /\ (w = [] \/ word w).
Proof.
  intros [_ H]. cbn in H. apply andb_true_iff in H as [Hc Hw].
  split.
  - now apply negb_true_iff.
  - destruct w as [|d w']; [now left | right].
    split; [discriminate | exact Hw].
Qed.
Lemma word_rev (w : pystr) : word w -> word (rev w).
Proof.
  intros [Hne Hall]. split.
  - intro E. apply Hne. rewrite <- (rev_involutive w), E. reflexivity.
  - rewrite forallb_forall in *. intros c Hc.
    apply Hall. now apply in_rev.
Qed.

Lemma split_ws_cons (c : pychar) (r : pystr) :
  split_ws (c :: r) =
  if is_space c then split_ws r
  else match r with
       | [] => [[c]]
       | d :: _ =>
           if is_space d then [c] :: split_ws r
           else match split_ws r with
                | h :: t => (c :: h) :: t
                | [] => [[c]]
                end
       end.
Proof. reflexivity. Qed.

Lemma split_ws_word_then (w r : pystr) :
  word w ->
  split_ws (w ++ 32%N :: r) = w :: split_ws r.
Proof.
  induction w as [|c w IH]; intros Hw.
  - destruct Hw as [Hne _]. now contradiction Hne.
  - destruct (word_cons _ _ Hw) as [Hc Hrest].
    destruct Hrest as [-> | Hw'].
    + cbn [app]. rewrite split_ws_cons, Hc, is_space_32. reflexivity.
    + destruct w as [|d w'].
      * destruct Hw' as [Hne _]. now contradiction Hne.
      * specialize (IH Hw').
        destruct (word_cons _ _ Hw') as [Hd _].
        rewrite <- !app_comm_cons in *.
        rewrite split_ws_cons, Hc, Hd, IH. reflexivity.
Qed.

Lemma split_ws_word (w : pystr) : word w -> split_ws w = [w].
Proof.
  induction w as [|c w IH]; intros Hw.
  - destruct Hw as [Hne _]. now contradiction Hne.
  - destruct (word_cons _ _ Hw) as [Hc Hrest].
    destruct Hrest as [-> | Hw'].
    + cbn. rewrite Hc. reflexivity.
    + destruct w as [|d w'].
      * destruct Hw' as [Hne _]. now contradiction Hne.
      * specialize (IH Hw').
        destruct (word_cons _ _ Hw') as [Hd _].
        rewrite split_ws_cons, Hc, Hd, IH. reflexivity.
Qed.

(** [split()] yields words only. *)
Lemma split_ws_words (s : pystr) : Forall word (split_ws s).
Proof.
  induction s as [|c r IH]; [constructor|].
  rewrite split_ws_cons.
  destruct (is_space c) eqn:Hc; [exact IH|].
  assert (Hone : word [c]).
  { split; [discriminate|]. cbn. now rewrite Hc. }
  destruct r as [|d r']; [now constructor|].
  destruct (is_space d) eqn:Hd; [now constructor|].
  destruct (split_ws (d :: r')) as [|h t] eqn:E; [now constructor|].
  inversion IH as [|? ? Hh Ht]; subst.
  constructor; [|exact Ht].
  destruct Hh as [_ Hall]. split; [discriminate|].
  cbn. now rewrite Hc, Hall.
Qed.
Lemma split_ws_join (ws : list pystr) :
  Forall word ws -> split_ws (join space ws) = ws.
Proof.
  induction 1 as [|w ws Hw Hws IH]; [reflexivity|].
  destruct ws as [|v ws'].
  - cbn. now apply split_ws_word.
  - change (join space (w :: v :: ws'))
      with (w ++ 32%N :: join space (v :: ws')).
    rewrite split_ws_word_then by exact Hw.
    now rewrite IH.
Qed.

Lemma lstrip_join (ws : list pystr) :
  Forall word ws -> lstrip (join space ws) = join space ws.
Proof.
  intros H. destruct H as [|w ws Hw Hws]; [reflexivity|].
  destruct w as [|c w']; [destruct Hw as [Hne _]; now contradiction Hne|].
  destruct (word_cons _ _ Hw) as [Hc _].
  destruct ws as [|v ws']; cbn; now rewrite Hc.
Qed.

Lemma join_snoc (sep x : pystr) (l : list pystr) :
  l <> [] -> join sep (l ++ [x]) = join sep l ++ sep ++ x.
Proof.
  induction l as [|y l IH]; intros Hne; [now contradiction Hne|].
  destruct l as [|z l'].
  - reflexivity.
  - change (join sep ((y :: z :: l') ++ [x]))
      with (y ++ sep ++ join sep ((z :: l') ++ [x])).
    rewrite IH by discriminate.
    change (join sep (y :: z :: l')) with (y ++ sep ++ join sep (z :: l')).
    now rewrite <- !app_assoc.
Qed.

Lemma rev_join (ws : list pystr) :
  rev (join space ws) = join space (rev (map (@rev pychar) ws)).
Proof.
  induction ws as [|w ws IH]; [reflexivity|].
  destruct ws as [|v ws'].
  - reflexivity.
  - change (join space (w :: v :: ws'))
      with (w ++ space ++ join space (v :: ws')).
    rewrite !rev_app_distr, IH.
    change (map (@rev pychar) (w :: v :: ws'))
      with (rev w :: map (@rev pychar) (v :: ws')).
    change (rev (rev w :: map (@rev pychar) (v :: ws')))
      with (rev (map (@rev pychar) (v :: ws')) ++ [rev w]).
    rewrite join_snoc.
    + now rewrite <- app_assoc.
    + cbn. intro E. apply app_eq_nil in E as [_ E]. discriminate.
Qed.

(** A string of words joined by single spaces has nothing to strip. *)
Lemma strip_join (ws : list pystr) :
  Forall word ws -> strip (join space ws) = join space ws.
Proof.
  intros H. unfold strip, rstrip.
  rewrite lstrip_join by exact H.
  rewrite rev_join, lstrip_join.
  - rewrite <- rev_join. apply rev_involutive.
  - apply Forall_rev. rewrite Forall_map.
    eapply Forall_impl; [|exact H]. intros w. apply word_rev.
Qed.

End Words.

Lemma strip_first_prefix_none (ps : list pystr) (s : pystr) :
  (forall p, In p ps -> startswith p s = false) ->
  strip_first_prefix ps s = s.
Proof.
  induction ps as [|p ps IH]; intros H; [reflexivity|].
  cbn. rewrite (H p (or_introl eq_refl)).
  apply IH. intros q Hq. apply H. now right.
Qed.

(** Cleaning always ends in words joined by single spaces. *)
Lemma clean_is_joined (x : pystr) :
  exists ws, Forall word ws /\ _clean_command x = join space ws.
Proof.
  unfold _clean_command.
  set (z := strip_first_prefix prefixes (unfence (strip x))).
  exists (split_ws z). split; [apply split_ws_words|].
  apply strip_join, split_ws_words.
Qed.

(** C6, as the code has it. Cleaning is idempotent on every input
    whose cleaned form opens with neither a code fence nor one of the
    four labels: for every such input, cleaning twice equals cleaning
    once. *)
Theorem clean_idempotent_when_bare (x : pystr) :
  startswith fence (_clean_command x) = false ->
  (forall p, In p prefixes -> startswith p (_clean_command x) = false) ->
  _clean_command (_clean_command x) = _clean_command x.
Proof.
  intros Hfence Hprefix.
  destruct (clean_is_joined x) as [ws [Hws E]].
  rewrite E in *.
  unfold _clean_command at 1.
  rewrite (strip_join ws Hws).
  unfold unfence. rewrite Hfence.
  rewrite strip_first_prefix_none by exact Hprefix.
  rewrite split_ws_join by exact Hws.
  apply strip_join, Hws.
Qed.

(** The theorem applies to a fenced reply with irregular spacing. *)
Lemma clean_idempotent_when_bare_witness :
  _clean_command (_clean_command (lit "```bash
ls   -la
```"))
  = _clean_command (lit "```bash
ls   -la
```").
Proof.
  apply clean_idempotent_when_bare.
  - vm_compute. reflexivity.
  - intros p Hp. cbn in Hp.
    repeat (destruct Hp as [<- | Hp]; [vm_compute; reflexivity|]).
    contradiction.
Defined.

(** C6 as stated fails. Only the first matching label is removed in a
    pass, so ["$ $ ls"] cleans to ["$ ls"], which cleans to ["ls"]; and
    a label in front of a bare fence leaves the fence, which the next
    pass removes: ["$ ```"] cleans to ["```"], which cleans to the
    empty string. *)
Lemma clean_not_idempotent :
  _clean_command (lit "$ $ ls") = lit "$ ls"
  /\ _clean_command (_clean_command (lit "$ $ ls")) = lit "ls"
  /\ _clean_command (_clean_command (lit "$ $ ls"))
     <> _clean_command (lit "$ $ ls")
  /\ _clean_command (lit "$ ```") = lit "```"
  /\ _clean_command (_clean_command (lit "$ ```")) = []
  /\ _clean_command (_clean_command (lit "$ ```"))
     <> _clean_command (lit "$ ```").
Proof.
  repeat split; try (vm_compute; reflexivity);
    vm_compute; discriminate.
Qed.

(* ================================================================== *)
(** * Properties of the rate limiter *)

Section RateLimiter.

Lemma within_narrow (a b now t : Z) :
  a <= b -> within a now t = true -> within b now t = true.
Proof. unfold within. intros Hab H. apply Z.ltb_lt in H. apply Z.ltb_lt. lia. Qed.

Lemma filter_filter_narrow (a b now : Z) (l : list Z) :
  a <= b ->
  filter (within a now) (filter (within b now) l) = filter (within a now) l.
Proof.
  intros Hab. induction l as [|t l IH]; [reflexivity|].
  cbn. destruct (within b now t) eqn:Hb.
  - cbn. now rewrite IH.
  - rewrite IH. destruct (within a now t) eqn:Ha; [|reflexivity].
    apply (within_narrow a b) in Ha; [congruence | exact Hab].
Qed.

Lemma count_if_pruned (a now : Z) (l : list Z) :
  a <= 86400 ->
  count_if (within a now) (filter (within 86400 now) l)
  = count_if (within a now) l.
Proof. intros H. unfold count_if. now rewrite filter_filter_narrow. Qed.

Lemma count_if_le_length {A} (p : A -> bool) (l : list A) :
  0 <= count_if p l <= Z.of_nat (List.length l).
Proof.
  unfold count_if. pose proof (filter_length_le p l). lia.
Qed.

Lemma count_if_all {A} (p : A -> bool) (l : list A) :
  Forall (fun x => p x = true) l -> count_if p l = Z.of_nat (List.length l).
Proof.
  intros H. unfold count_if. f_equal. f_equal.
  induction H as [|x l Hx Hl IH]; [reflexivity|].
  cbn. now rewrite Hx, IH.
Qed.

Lemma count_if_none {A} (p : A -> bool) (l : list A) :
  Forall (fun x => p x = false) l -> filter p l = [].
Proof.
  induction 1 as [|x l Hx Hl IH]; [reflexivity|].
  cbn. now rewrite Hx.
Qed.

(** A non-empty tail is what [l[-m:]] returns for [1 <= m <= len(l)]. *)
Lemma slice_from_last_nonempty {A} (m : Z) (l : list A) :
  0 < m <= Z.of_nat (List.length l) -> slice_from (- m) l <> [].
Proof.
  intros Hm. unfold slice_from.
  replace (- m <? 0) with true by (symmetry; apply Z.ltb_lt; lia).
  intro E.
  assert (Hlen : List.length
            (skipn (Z.to_nat (Z.max 0 (- m + Z.of_nat (List.length l)))) l)
            = 0%nat) by now rewrite E.
  rewrite length_skipn in Hlen. lia.
Qed.

(** What [check()] answers and leaves behind, for a limiter that is
    switched on and has a positive per-minute limit. *)
Lemma check_rate_limit_spec (w : world) :
  rate_limit_enabled w = true -> 0 < rpm w ->
  let now := clock w in
  _check_rate_limit w =
  (Ok (negb ((rpm w <=? count_if (within 60 now) (requests w))
             || (rph w <=? count_if (within 3600 now) (requests w))
             || (rpd w <=? count_if (within 86400 now) (requests w)))),
   set_requests (filter (within 86400 now) (requests w)) w).
Proof.
  intros Hon Hrpm now. unfold _check_rate_limit. rewrite Hon. cbn [negb].
  fold now.
  rewrite !count_if_pruned by lia.
  change (Z.of_nat (List.length (filter (within 86400 now) (requests w))))
    with (count_if (within 86400 now) (requests w)).
  set (kept := filter (within 86400 now) (requests w)).
  destruct (rpm w <=? count_if (within 60 now) (requests w)) eqn:Hm.
  - apply Z.leb_le in Hm.
    destruct (slice_from (- count_if (within 60 now) kept) kept) eqn:E.
    + exfalso. revert E. apply slice_from_last_nonempty.
      unfold kept at 1. rewrite count_if_pruned by lia.
      pose proof (count_if_le_length (within 60 now) kept) as Hle.
      unfold kept in Hle at 1. rewrite count_if_pruned in Hle by lia.
      lia.
    + unfold kept in E. rewrite count_if_pruned in E by lia.
      fold kept in E. rewrite E. reflexivity.
  - cbn [orb].
    destruct (rph w <=? count_if (within 3600 now) (requests w));
      [reflexivity|].
    cbn [orb].
    destruct (rpd w <=? count_if (within 86400 now) (requests w));
      reflexivity.
Qed.

Lemma record_all_fields (ts : list Z) (w : world) :
  requests (record_all ts w) = requests w ++ ts
  /\ rate_limit_enabled (record_all ts w) = rate_limit_enabled w
  /\ rpm (record_all ts w) = rpm w
  /\ rph (record_all ts w) = rph w
  /\ rpd (record_all ts w) = rpd w.
Proof.
  revert w. induction ts as [|t ts IH]; intros w.
  - cbn. now rewrite app_nil_r.
  - cbn [record_all fold_left].
    destruct (IH (record_at t w)) as (Hr & He & Hm & Hh & Hd).
    unfold record_all in *. rewrite Hr, He, Hm, Hh, Hd.
    cbn. rewrite <- app_assoc. repeat split; reflexivity.
Qed.

Lemma refused_iff (w : world) :
  rate_limit_enabled w = true -> 0 < rpm w ->
  let now := clock w in
  refused w <->
  (rpm w <= count_if (within 60 now) (requests w)
   \/ rph w <= count_if (within 3600 now) (requests w)
   \/ rpd w <= count_if (within 86400 now) (requests w)).
Proof.
  intros Hon Hrpm now. unfold refused.
  rewrite (check_rate_limit_spec w Hon Hrpm). fold now. cbn [fst].
  destruct (rpm w <=? _) eqn:Hm; destruct (rph w <=? _) eqn:Hh;
    destruct (rpd w <=? _) eqn:Hd; cbn;
    rewrite ?Z.leb_le, ?Z.leb_gt in *;
    split; intros H; try reflexivity; try discriminate; try lia;
    auto.
Qed.

Lemma allowed_iff (w : world) :
  rate_limit_enabled w = true -> 0 < rpm w ->
  let now := clock w in
  allowed w <->
  (count_if (within 60 now) (requests w) < rpm w
   /\ count_if (within 3600 now) (requests w) < rph w
   /\ count_if (within 86400 now) (requests w) < rpd w).
Proof.
  intros Hon Hrpm now. unfold allowed.
  rewrite (check_rate_limit_spec w Hon Hrpm). fold now. cbn [fst].
  destruct (rpm w <=? _) eqn:Hm; destruct (rph w <=? _) eqn:Hh;
    destruct (rpd w <=? _) eqn:Hd; cbn;
    rewrite ?Z.leb_le, ?Z.leb_gt in *;
    split; intros H; try reflexivity; try discriminate; try lia.
Qed.

End RateLimiter.

(** C2. With the limiter switched on and positive limits, take a fresh
    limiter, any [N] calls of [record()] at the instants [ts], and a
    [check()] at [now].  The check is refused exactly when one of the
    trailing 60 s, 3600 s and 86400 s windows holds at least its limit;
    when all [N] calls fall in the window the count is [N] itself; the
    check first drops the timestamps that are 24 hours old or older; and
    once the clock has moved past the window the check passes again. *)
Theorem rate_limiter_windows (w : world) (ts : list Z) (now : Z) :
  rate_limit_enabled w = true ->
  requests w = [] ->
  0 < rpm w -> 0 < rph w -> 0 < rpd w ->
  let N := Z.of_nat (List.length ts) in
  let w1 := set_clock now (record_all ts w) in
  (refused w1 <->
     rpm w <= count_if (within 60 now) ts
     \/ rph w <= count_if (within 3600 now) ts
     \/ rpd w <= count_if (within 86400 now) ts)
  /\ (refused w1 \/ allowed w1)
  /\ requests (snd (_check_rate_limit w1)) = filter (within 86400 now) ts
  /\ (Forall (fun t => now - t < 60) ts ->
      (refused w1 <-> rpm w <= N \/ rph w <= N \/ rpd w <= N))
  /\ (Forall (fun t => now - t < 3600) ts ->
      (refused w1 <->
         rpm w <= count_if (within 60 now) ts \/ rph w <= N \/ rpd w <= N))
  /\ (Forall (fun t => now - t < 86400) ts ->
      (refused w1 <->
         rpm w <= count_if (within 60 now) ts
         \/ rph w <= count_if (within 3600 now) ts \/ rpd w <= N))
  /\ (forall later, Forall (fun t => 60 <= later - t) ts ->
      N < rph w -> N < rpd w -> allowed (set_clock later w1))
  /\ (forall later, Forall (fun t => 3600 <= later - t) ts ->
      N < rpd w -> allowed (set_clock later w1))
  /\ (forall later, Forall (fun t => 86400 <= later - t) ts ->
      allowed (set_clock later w1)
      /\ requests (snd (_check_rate_limit (set_clock later w1))) = []).
Proof.
  intros Hon Hempty Hm Hh Hd N w1. subst N.
  destruct (record_all_fields ts w) as (Hr & He & Hpm & Hph & Hpd).
  rewrite Hempty in Hr. cbn [app] in Hr.
  assert (Hon1 : forall t, rate_limit_enabled (set_clock t w1) = true)
    by (intro; cbn; congruence).
  assert (Hm1 : forall t, 0 < rpm (set_clock t w1)) by (intro; cbn; lia).
  assert (Hall : forall (win : Z),
            Forall (fun t => now - t < win) ts ->
            count_if (within win now) ts = Z.of_nat (List.length ts)).
  { intros win H. apply count_if_all.
    eapply Forall_impl; [|exact H]. intros t Ht. now apply Z.ltb_lt. }
  assert (Hnone : forall (win later : Z),
            Forall (fun t => win <= later - t) ts ->
            count_if (within win later) ts = 0).
  { intros win later H. unfold count_if. rewrite count_if_none; [reflexivity|].
    eapply Forall_impl; [|exact H]. intros t Ht. now apply Z.ltb_ge. }
  assert (Hiff : forall t,
            refused (set_clock t w1) <->
            rpm w <= count_if (within 60 t) ts
            \/ rph w <= count_if (within 3600 t) ts
            \/ rpd w <= count_if (within 86400 t) ts).
  { intro t. rewrite (refused_iff _ (Hon1 t) (Hm1 t)). cbn.
    rewrite Hr, Hpm, Hph, Hpd. reflexivity. }
  assert (Hok : forall t,
            allowed (set_clock t w1) <->
            count_if (within 60 t) ts < rpm w
            /\ count_if (within 3600 t) ts < rph w
            /\ count_if (within 86400 t) ts < rpd w).
  { intro t. rewrite (allowed_iff _ (Hon1 t) (Hm1 t)). cbn.
    rewrite Hr, Hpm, Hph, Hpd. reflexivity. }
  assert (Hsame : set_clock now w1 = w1) by reflexivity.
  pose proof (Hiff now) as Hiff0. rewrite Hsame in Hiff0.
  pose proof (Hok now) as Hok0. rewrite Hsame in Hok0.
  pose proof (count_if_le_length (within 60 now) ts) as L60.
  pose proof (count_if_le_length (within 3600 now) ts) as L3600.
  pose proof (count_if_le_length (within 86400 now) ts) as L86400.
  assert (Hweak : forall a b : Z, a <= b ->
            Forall (fun t => now - t < a) ts ->
            Forall (fun t => now - t < b) ts).
  { intros a b Hab H. eapply Forall_impl; [|exact H]. cbn. intros. lia. }
  assert (Hold : forall (a b later : Z), a <= b ->
            Forall (fun t => b <= later - t) ts ->
            Forall (fun t => a <= later - t) ts).
  { intros a b later Hab H. eapply Forall_impl; [|exact H]. cbn. intros. lia. }
  split; [exact Hiff0|].
  split; [rewrite Hiff0, Hok0; lia|].
  split.
  { rewrite <- Hsame.
    rewrite (check_rate_limit_spec _ (Hon1 now) (Hm1 now)). cbn.
    now rewrite Hr. }
  split.
  { intros HF. rewrite Hiff0.
    rewrite (Hall 60 HF), (Hall 3600 (Hweak 60 3600 ltac:(lia) HF)),
      (Hall 86400 (Hweak 60 86400 ltac:(lia) HF)).
    reflexivity. }
  split.
  { intros HF. rewrite Hiff0.
    rewrite (Hall 3600 HF), (Hall 86400 (Hweak 3600 86400 ltac:(lia) HF)).
    reflexivity. }
  split.
  { intros HF. rewrite Hiff0. rewrite (Hall 86400 HF). reflexivity. }
  split.
  { intros later HF Hlh Hld. apply Hok. rewrite (Hnone 60 later HF).
    pose proof (count_if_le_length (within 3600 later) ts).
    pose proof (count_if_le_length (within 86400 later) ts).
    lia. }
  split.
  { intros later HF Hld. apply Hok.
    rewrite (Hnone 3600 later HF),
      (Hnone 60 later (Hold 60 3600 later ltac:(lia) HF)).
    pose proof (count_if_le_length (within 86400 later) ts).
    lia. }
  intros later HF. split.
  - apply Hok.
    rewrite (Hnone 86400 later HF),
      (Hnone 3600 later (Hold 3600 86400 later ltac:(lia) HF)),
      (Hnone 60 later (Hold 60 86400 later ltac:(lia) HF)).
    lia.
  - rewrite (check_rate_limit_spec _ (Hon1 later) (Hm1 later)). cbn.
    rewrite Hr. apply count_if_none.
    eapply Forall_impl; [|exact HF]. intros t Ht. now apply Z.ltb_ge.
Qed.

(** Two requests in the last minute against a limit of two per minute
    are refused, and the check passes once they are a minute old. *)
Lemma rate_limiter_windows_witness :
  let w := sample_session sample_key 100 2 60 100 in
  refused (set_clock 120 (record_all [100; 110] w))
  /\ allowed (set_clock 170 (set_clock 120 (record_all [100; 110] w))).
Proof.
  intro w.
  pose proof (rate_limiter_windows w [100; 110] 120
                eq_refl eq_refl eq_refl eq_refl eq_refl) as H.
  cbv zeta in H.
  destruct H as (_ & _ & _ & Hminute & _ & _ & Hlater & _).
  split.
  - apply Hminute.
    + repeat constructor; lia.
    + left. cbn. lia.
  - apply Hlater.
    + repeat constructor; lia.
    + cbn. lia.
    + cbn. lia.
Defined.

(* ================================================================== *)
(** * Properties of the translator *)

Section Translator.

Variable env : environment.

Lemma check_snd (w : world) :
  snd (_check_rate_limit w) =
  if rate_limit_enabled w
  then set_requests (filter (within 86400 (clock w)) (requests w)) w
  else w.
Proof.
  unfold _check_rate_limit.
  destruct (rate_limit_enabled w); cbn [negb]; [|reflexivity].
  repeat match goal with
         | |- context [if ?b then _ else _] => destruct b
         | |- context [match ?l with [] => _ | _ :: _ => _ end] => destruct l
         end; reflexivity.
Qed.

(** The verdict of [check()] does not look at the conversation. *)
Lemma check_set_history (h : list message) (w : world) :
  _check_rate_limit (set_history h w) =
  (fst (_check_rate_limit w), set_history h (snd (_check_rate_limit w))).
Proof.
  unfold _check_rate_limit. cbn.
  destruct (rate_limit_enabled w); cbn [negb]; [|reflexivity].
  repeat match goal with
         | |- context [if ?b then _ else _] => destruct b
         | |- context [match ?l with [] => _ | _ :: _ => _ end] => destruct l
         end; reflexivity.
Qed.

Lemma check_set_trace (t : list event) (w : world) :
  _check_rate_limit (set_trace t w) =
  (fst (_check_rate_limit w), set_trace t (snd (_check_rate_limit w))).
Proof.
  unfold _check_rate_limit. cbn.
  destruct (rate_limit_enabled w); cbn [negb]; [|reflexivity].
  repeat match goal with
         | |- context [if ?b then _ else _] => destruct b
         | |- context [match ?l with [] => _ | _ :: _ => _ end] => destruct l
         end; reflexivity.
Qed.

Lemma filter_day_later (now later : Z) (l : list Z) :
  now <= later ->
  filter (within 86400 later) (filter (within 86400 now) l)
  = filter (within 86400 later) l.
Proof.
  intros Hle. induction l as [|t l IH]; [reflexivity|].
  cbn. destruct (within 86400 now t) eqn:Hn.
  - cbn. now rewrite IH.
  - rewrite IH. destruct (within 86400 later t) eqn:Hl; [|reflexivity].
    unfold within in *. apply Z.ltb_lt in Hl. apply Z.ltb_ge in Hn. lia.
Qed.

(** Pruning at an earlier instant does not change a later verdict. *)
Lemma check_after_prune (later : Z) (w : world) :
  clock w <= later ->
  fst (_check_rate_limit (set_clock later (snd (_check_rate_limit w))))
  = fst (_check_rate_limit (set_clock later w)).
Proof.
  intros Hle. rewrite check_snd.
  destruct (rate_limit_enabled w) eqn:Hon; [|reflexivity].
  unfold _check_rate_limit. cbn. rewrite Hon. cbn [negb].
  rewrite (filter_day_later _ _ _ Hle). reflexivity.
Qed.

(** The verdict depends on the limiter's fields and the clock only. *)
Lemma check_fst_ext (a b : world) :
  rate_limit_enabled a = rate_limit_enabled b ->
  clock a = clock b ->
  requests a = requests b ->
  rpm a = rpm b -> rph a = rph b -> rpd a = rpd b ->
  fst (_check_rate_limit a) = fst (_check_rate_limit b).
Proof.
  intros He Hc Hr Hm Hh Hd. unfold _check_rate_limit.
  rewrite He, Hc, Hr, Hm, Hh, Hd.
  destruct (rate_limit_enabled b); cbn [negb]; [|reflexivity].
  repeat match goal with
         | |- context [if ?c then _ else _] => destruct c
         | |- context [match ?l with [] => _ | _ :: _ => _ end] => destruct l
         end; reflexivity.
Qed.

Local Opaque enhanced_input _check_rate_limit.

(** C5, as the code has it. Without a usable credential (no key, an
    empty key or one shorter than ten characters) the translator
    produces no command at all: it returns None, consults neither the
    network nor the fallback matcher, and leaves the limiter alone;
    the conversation is at most one user turn longer. *)
Theorem no_credential_no_command (w : world) (natural_language : pystr) :
  credential_invalid (api_key w) = true ->
  let r := natural_language_to_shell env natural_language w in
  fst r = Ok None
  /\ trace (snd r) = trace w
  /\ requests (snd r) = requests w
  /\ (history (snd r) = history w
      \/ history (snd r) =
         history w
         ++ [mkMessage User (enhanced_input env (strip natural_language))]).
Proof.
  intros Hkey r. subst r. unfold natural_language_to_shell.
  destruct (has_anthropic env); cbn [negb]; [|cbn; auto].
  destruct (strip natural_language) as [|c s]; [cbn; auto|].
  unfold try_catch, bind, append_history, modify, get. cbn.
  rewrite Hkey. cbn. auto.
Qed.

(** What the translator does when validation fails. *)
Lemma failed_validation_run (w : world) (natural_language : pystr) :
  has_anthropic env = true ->
  strip natural_language <> [] ->
  credential_invalid (api_key w) = true
  \/ (refused w /\ refused (set_clock (clock w + 2) w)) ->
  exists w',
    natural_language_to_shell env natural_language w = (Ok None, w')
    /\ history w' =
       history w
       ++ [mkMessage User (enhanced_input env (strip natural_language))].
Proof.
  intros Hanth Hne Hfail. unfold natural_language_to_shell.
  rewrite Hanth. cbn [negb].
  destruct (strip natural_language) as [|c s]; [now contradiction Hne|].
  set (turn := mkMessage User (enhanced_input env (c :: s))).
  unfold try_catch, bind, append_history, modify, get, ret. cbn.
  destruct (credential_invalid (api_key w)) eqn:Hkey.
  { eexists. split; reflexivity. }
  destruct Hfail as [Hfail | [H1 H2]]; [discriminate|].
  rewrite check_set_history.
  unfold refused in H1. rewrite H1.
  unfold sleep, emit, bind, modify. cbn.
  match goal with
  | |- context [_check_rate_limit (set_clock ?a ?b)] =>
      set (X := set_clock a b)
  end.
  assert (HX : fst (_check_rate_limit X) = Ok false).
  { unfold refused in H2. rewrite <- H2.
    rewrite <- (check_after_prune (clock w + 2) w) by lia.
    apply check_fst_ext; subst X; cbn; rewrite ?check_snd;
      destruct (rate_limit_enabled w); reflexivity. }
  pose proof (check_snd X) as HS.
  destruct (_check_rate_limit X) as [r2 w2].
  cbn in HX, HS. subst r2. cbn.
  eexists. split; [reflexivity|].
  rewrite HS. subst X. cbn. rewrite !check_snd.
  destruct (rate_limit_enabled w) eqn:Hon; cbn; rewrite ?Hon; reflexivity.
Qed.

(** C10. When the anthropic import succeeds and the request is not
    blank, the user turn is appended before the credential and the
    limiter are looked at: if the credential is unusable, or the
    limiter refuses both the first check and the retry two seconds
    later, the function returns None and the conversation is exactly
    one user entry longer. *)
Theorem failed_validation_keeps_user_turn (w : world)
    (natural_language : pystr) :
  has_anthropic env = true ->
  strip natural_language <> [] ->
  credential_invalid (api_key w) = true
  \/ (refused w /\ refused (set_clock (clock w + 2) w)) ->
  let r := natural_language_to_shell env natural_language w in
  fst r = Ok None
  /\ history (snd r) =
     history w
     ++ [mkMessage User (enhanced_input env (strip natural_language))].
Proof.
  intros Hanth Hne Hfail r. subst r.
  destruct (failed_validation_run w natural_language Hanth Hne Hfail)
    as [w' [E Hh]].
  rewrite E. split; [reflexivity | exact Hh].
Qed.

(** Whatever [Exception] the remote call raises, the inner handler
    swallows it: the translator returns None and the fallback matcher
    is never reached. *)
Lemma remote_failure_run (w : world) (natural_language : pystr) (e : exn) :
  has_anthropic env = true ->
  has_openai env = true ->
  strip natural_language <> [] ->
  credential_invalid (api_key w) = false ->
  allowed w ->
  (forall id messages, chat_reply env id messages = ApiRaise e) ->
  is_Exception e = true ->
  exists evs,
    fst (natural_language_to_shell env natural_language w) = Ok None
    /\ trace (snd (natural_language_to_shell env natural_language w))
       = trace w ++ evs
    /\ (exists id messages flag, In (EvApiCall id messages flag) evs)
    /\ (forall text, ~ In (EvFallback text) evs).
Proof.
  intros Hanth Hopen Hne Hkey Hok Hreply Hexn.
  unfold natural_language_to_shell.
  rewrite Hanth. cbn [negb].
  destruct (strip natural_language) as [|c s]; [now contradiction Hne|].
  set (turn := mkMessage User (enhanced_input env (c :: s))).
  unfold try_catch, bind, append_history, modify, get, ret. cbn.
  rewrite Hkey. rewrite check_set_history.
  unfold allowed in Hok. rewrite Hok. cbn.
  unfold _record_request, sleep, emit, bind, modify. cbn.
  unfold call_model. rewrite Hopen. cbn [negb].
  unfold bind, get, emit, modify, raise. cbn.
  rewrite Hreply. unfold api_error_handler. rewrite Hexn.
  unfold bind, sleep, emit, modify, ret, bind. cbn.
  rewrite !check_snd.
  match goal with
  | |- context [if ?b then _ else _] => destruct b
  end;
    cbn; destruct (rate_limit_enabled w); cbn;
    rewrite <- ?app_assoc; cbn;
    eexists; (split; [reflexivity|]); (split; [reflexivity|]);
    (split; [do 3 eexists; cbn; right; left; reflexivity|]);
    intros text Hin; cbn in Hin;
    repeat (destruct Hin as [Hin|Hin]; [discriminate|]); exact Hin.
Qed.

End Translator.

(** Without a key the theorem applies to the request "list files". *)
Lemma no_credential_no_command_witness :
  let r := natural_language_to_shell answering_env list_files
             (sample_session None 100 10 60 100) in
  fst r = Ok None /\ trace (snd r) = [].
Proof.
  intro r.
  destruct (no_credential_no_command answering_env
              (sample_session None 100 10 60 100) list_files eq_refl)
    as (Hr & Ht & _).
  split; [exact Hr | exact Ht].
Defined.

(** C5 as stated fails: with no key configured the request "list files"
    yields None, although the fallback matcher would answer ["dir"]. *)
Lemma no_credential_no_fallback :
  let w := sample_session None 100 10 60 100 in
  _simple_command_fallback answering_env list_files = lit "dir"
  /\ fst (natural_language_to_shell answering_env list_files w) = Ok None
  /\ fst (natural_language_to_shell answering_env list_files w)
     <> Ok (Some (_simple_command_fallback answering_env list_files)).
Proof.
  repeat split; try (vm_compute; reflexivity).
  vm_compute. discriminate.
Qed.

(** Two requests a second ago against a limit of two per minute: the
    limiter refuses now and two seconds later, and the theorem applies. *)
Lemma failed_validation_keeps_user_turn_witness :
  let w := set_clock 1 (record_all [0; 0]
                          (sample_session sample_key 100 2 60 100)) in
  let r := natural_language_to_shell answering_env list_files w in
  fst r = Ok None
  /\ history (snd r) = history w ++ [user_turn answering_env list_files].
Proof.
  intros w r.
  apply (failed_validation_keeps_user_turn answering_env w list_files).
  - reflexivity.
  - vm_compute. discriminate.
  - right. split; vm_compute; reflexivity.
Defined.

(** C3 at its failing inputs. With a usable key and budget left, a
    network timeout, a connection failure and a generic exception of the
    remote call all end the same way: the call is made, the translator
    returns None, and the fallback matcher, which would have answered
    ["dir"], is not consulted. *)
Theorem remote_failure_skips_fallback :
  (fst (failed_translation network_timeout) = Ok None
   /\ trace (snd (failed_translation network_timeout))
      = call_only network_timeout)
  /\ (fst (failed_translation connection_failure) = Ok None
      /\ trace (snd (failed_translation connection_failure))
         = call_only connection_failure)
  /\ (fst (failed_translation generic_failure) = Ok None
      /\ trace (snd (failed_translation generic_failure))
         = call_only generic_failure)
  /\ _simple_command_fallback (failing_env network_timeout) list_files
     = lit "dir".
Proof. repeat split; vm_compute; reflexivity. Qed.

(* ================================================================== *)
(** * Properties of the history cap *)

(** The cap inside the translator keeps entry zero and leaves exactly
    [max_history_size] entries, provided the cap is at least two. *)
Lemma trim_history_keeps_head (w : world) (first : message)
    (others : list message) :
  history w = first :: others ->
  2 <= max_history_size w < Z.of_nat (List.length (history w)) ->
  fst (trim_history w) = Ok tt
  /\ hd_error (history (snd (trim_history w))) = Some first
  /\ Z.of_nat (List.length (history (snd (trim_history w))))
     = max_history_size w.
Proof.
  intros Hh Hcap. unfold trim_history.
  replace (max_history_size w <? Z.of_nat (List.length (history w)))
    with true by (symmetry; apply Z.ltb_lt; lia).
  rewrite Hh in *. cbn [fst snd history set_history hd_error].
  repeat split.
  unfold slice_from.
  replace (- max_history_size w + 1 <? 0) with true
    by (symmetry; apply Z.ltb_lt; lia).
  cbn [List.length]. rewrite length_skipn. cbn [List.length] in *. lia.
Qed.

(** The cap in [main] keeps the last [max_history_size] entries, so when
    it fires the old entry zero is cut off. *)
Lemma main_trim_is_suffix (w : world) :
  0 < max_history_size w < Z.of_nat (List.length (history w)) ->
  history (snd (main_trim_history w))
  = skipn (List.length (history w) - Z.to_nat (max_history_size w))
          (history w)
  /\ (0 < List.length (history w) - Z.to_nat (max_history_size w))%nat.
Proof.
  intros Hcap. unfold main_trim_history, modify. cbn [snd].
  replace (max_history_size w <? Z.of_nat (List.length (history w)))
    with true by (symmetry; apply Z.ltb_lt; lia).
  cbn [history set_history]. unfold slice_from.
  replace (- max_history_size w <? 0) with true
    by (symmetry; apply Z.ltb_lt; lia).
  split; [f_equal|]; lia.
Qed.

(** C4 at its failing input. With the history capped at one entry, the
    first translated request leaves two system entries behind (the slice
    [-1+1] keeps the whole list), and once the command has been confirmed
    and run the cap in [main] keeps only the assistant's reply: the
    system prompt is gone. *)
Theorem history_cap_evicts_system_prompt :
  history (snd (natural_language_to_shell answering_env list_files
                  capped_session))
  = [ system_prompt answering_env; system_prompt answering_env;
      user_turn answering_env list_files; mkMessage Assistant (lit "ls") ]
  /\ fst (main_body answering_env capped_console) = Ok (Some Continue)
  /\ history (snd (main_body answering_env capped_console))
     = [mkMessage Assistant (lit "ls")].
Proof. repeat split; vm_compute; reflexivity. Qed.

(* ================================================================== *)
(** * Properties of the entry point *)

Section ExitCodes.

Variable env : environment.
Variable args : arguments.

Lemma construct_ok (w : world) :
  init_outcome env = None ->
  exists w', construct env w = (Ok tt, w') /\ stdin w' = stdin w.
Proof.
  intros Hinit. unfold construct. rewrite Hinit.
  unfold bind, modify, setup_prompt, modify. cbn.
  eexists. split; reflexivity.
Qed.

Lemma apply_arguments_ok (w : world) :
  exists w', apply_arguments args w = (Ok tt, w') /\ stdin w' = stdin w.
Proof.
  unfold apply_arguments, bind, modify, ret.
  destruct (arg_api_key args) as [[|? ?]|];
    destruct (arg_model args) as [[|? ?]|];
    destruct (arg_timeout args) as [t|];
    try destruct (t =? 0); cbn; eexists; split; reflexivity.
Qed.

(** The run up to the first prompt, when start-up succeeds. *)
Lemma startup_ok (w : world) :
  init_outcome env = None ->
  welcome_outcome env = None ->
  exists w1,
    stdin w1 = stdin w
    /\ program env args w =
       match try_finally
               (main_loop env (S (List.length (stdin w1))))
               save_command_history w1 with
       | (Ok true, w') => (ExitCode 0, w')
       | (Ok false, w') => (OutOfFuel, w')
       | (Exn e, w') =>
           if is_Exception e then (ExitCode 1, w')
           else match exn_kind_of e with
                | KSystemExit code => (ExitCode code, w')
                | _ => (Uncaught e, w')
                end
       end.
Proof.
  intros Hinit Hwelcome.
  destruct (construct_ok w Hinit) as [wa [Ea Hsa]].
  destruct (apply_arguments_ok wa) as [wb [Eb Hsb]].
  exists (set_trace (trace wb ++ [EvWelcome]) wb).
  split; [cbn; congruence|].
  unfold program, try_catch. unfold bind at 1. rewrite Ea.
  unfold bind at 1. rewrite Eb.
  unfold main, try_finally, _display_welcome. rewrite Hwelcome.
  unfold bind, ret, get, emit, modify, save_command_history, raise.
  cbn -[main_loop].
  destruct (main_loop env (S (List.length (stdin wb)))
              (set_trace (trace wb ++ [EvWelcome]) wb)) as [[b|e] w2];
    cbn.
  - destruct b; reflexivity.
  - destruct (is_Exception e) eqn:He; cbn.
    + reflexivity.
    + destruct (exn_kind_of e); reflexivity.
Qed.

End ExitCodes.

(* ================================================================== *)
(** * Frame rules for the monad *)

Section Frames.

Variable R : world -> world -> Prop.
Hypothesis R_refl : forall w, R w w.
Hypothesis R_trans : forall a b c, R a b -> R b c -> R a c.

Lemma frames_ret {A} (a : A) : frames R (ret a).
Proof. intro w. apply R_refl. Qed.

Lemma frames_raise {A} (e : exn) : frames R (@raise A e).
Proof. intro w. apply R_refl. Qed.

Lemma frames_get {A} (f : world -> A) : frames R (get f).
Proof. intro w. apply R_refl. Qed.

Lemma frames_modify (f : world -> world) :
  (forall w, R w (f w)) -> frames R (modify f).
Proof. intros H w. apply H. Qed.

Lemma frames_bind {A B} (m : M A) (f : A -> M B) :
  frames R m -> (forall a, frames R (f a)) -> frames R (bind m f).
Proof.
  intros Hm Hf w. unfold bind. specialize (Hm w).
  destruct (m w) as [[a|e] w1]; cbn [snd] in *.
  - eapply R_trans; [exact Hm | apply Hf].
  - exact Hm.
Qed.

Lemma frames_try_catch {A} (m : M A) (h : exn -> M A) :
  frames R m -> (forall e, frames R (h e)) -> frames R (try_catch m h).
Proof.
  intros Hm Hh w. unfold try_catch. specialize (Hm w).
  destruct (m w) as [[a|e] w1]; cbn [snd] in *.
  - exact Hm.
  - eapply R_trans; [exact Hm | apply Hh].
Qed.

Lemma frames_try_finally {A} (m : M A) (f : M unit) :
  frames R m -> frames R f -> frames R (try_finally m f).
Proof.
  intros Hm Hf w. unfold try_finally. specialize (Hm w).
  destruct (m w) as [r w1]. specialize (Hf w1).
  destruct (f w1) as [[u|e] w2]; cbn [snd] in *;
    eapply R_trans; eassumption.
Qed.

End Frames.

Lemma stable_refl (w : world) : stable w w.
Proof. unfold stable. repeat split. Qed.

Lemma stable_trans (a b c : world) : stable a b -> stable b c -> stable a c.
Proof. unfold stable. intuition congruence. Qed.

Lemma consumes_refl (w : world) : consumes w w.
Proof. unfold consumes. lia. Qed.

Lemma consumes_trans (a b c : world) :
  consumes a b -> consumes b c -> consumes a c.
Proof. unfold consumes. lia. Qed.

Lemma stable_consumes (a b : world) : stable a b -> consumes a b.
Proof. intros [H _]. unfold consumes. rewrite H. lia. Qed.

Lemma frames_stable_consumes {A} (m : M A) :
  frames stable m -> frames consumes m.
Proof. intros H w. apply stable_consumes, H. Qed.

(** Splits a frame goal along the structure of the computation. *)
Ltac frame_step R_refl R_trans :=
  lazymatch goal with
  | |- frames _ (bind _ _) => apply (frames_bind _ R_trans)
  | |- frames _ (try_catch _ _) => apply (frames_try_catch _ R_trans)
  | |- frames _ (try_finally _ _) => apply (frames_try_finally _ R_trans)
  | |- frames _ (ret _) => apply (frames_ret _ R_refl)
  | |- frames _ (raise _) => apply (frames_raise _ R_refl)
  | |- frames _ (get _) => apply (frames_get _ R_refl)
  | |- frames _ (modify _) =>
      apply frames_modify; intro; cbn; repeat split
  | |- frames _ (emit _) =>
      unfold emit; apply frames_modify; intro; cbn; repeat split
  | |- frames _ (sleep _) => unfold sleep
  | |- frames _ (match ?x with _ => _ end) => destruct x
  | |- forall _, _ => intro
  end.

Ltac stable_frame :=
  repeat first [ assumption | frame_step stable_refl stable_trans ].

Create HintDb stable.

Section Stability.

Variable env : environment.

Lemma check_stable : frames stable _check_rate_limit.
Proof.
  intro w. rewrite check_snd.
  destruct (rate_limit_enabled w); cbn; repeat split.
Qed.

Lemma record_stable : frames stable _record_request.
Proof. unfold _record_request. stable_frame. Qed.

Lemma append_history_stable (m : message) : frames stable (append_history m).
Proof. unfold append_history. stable_frame. Qed.

Lemma trim_history_stable : frames stable trim_history.
Proof.
  intro w. unfold trim_history.
  destruct (max_history_size w <? _); [|apply stable_refl].
  destruct (history w); cbn; repeat split.
Qed.

Hint Resolve check_stable record_stable append_history_stable
  trim_history_stable : stable.

Ltac stable_auto :=
  repeat first [ solve [auto with stable]
               | frame_step stable_refl stable_trans ].

Lemma call_model_stable (nl : pystr) : frames stable (call_model env nl).
Proof. unfold call_model. stable_auto. Qed.

Lemma api_error_handler_stable (e : exn) :
  frames stable (api_error_handler env e).
Proof. unfold api_error_handler. stable_auto. Qed.

Lemma translate_error_handler_stable (nl : pystr) (e : exn) :
  frames stable (translate_error_handler env nl e).
Proof. unfold translate_error_handler. stable_auto. Qed.

Hint Resolve call_model_stable api_error_handler_stable
  translate_error_handler_stable : stable.

Lemma translate_stable (nl : pystr) :
  frames stable (natural_language_to_shell env nl).
Proof. unfold natural_language_to_shell. stable_auto. Qed.

Lemma advisor_stable (command out err : pystr) (rc : Z) :
  frames stable (_get_error_solution_from_llm env command out err rc).
Proof.
  unfold _get_error_solution_from_llm, _log_command_output. stable_auto.
Qed.

Hint Resolve translate_stable advisor_stable : stable.

Lemma kill_stable : frames stable kill.
Proof. unfold kill. stable_auto. Qed.

Lemma popen_stable (script : process_script) (command : pystr) :
  frames stable (popen script command).
Proof. unfold popen. stable_auto. Qed.

Lemma read_directly_stable (script : process_script) :
  frames stable (read_directly script).
Proof. unfold read_directly. stable_auto. Qed.

Lemma select_loop_stable (timeout start : Z) (rounds : list select_round)
    (readable : list stream) (out err : list pystr) :
  frames stable (select_loop timeout start rounds readable out err).
Proof.
  revert readable out err.
  induction rounds as [|r rounds IH]; intros readable out err w;
    cbn [select_loop]; destruct readable as [|s readable'];
    try apply stable_refl;
    destruct (timeout <=? clock w - start); try apply stable_refl.
  - cbn. repeat split.
  - destruct (round_interrupted r); [cbn; repeat split|].
    destruct (read_ready _ _ _) as [[readable2 out2] err2].
    eapply stable_trans; [|apply IH]. cbn. repeat split.
Qed.

Hint Resolve kill_stable popen_stable read_directly_stable
  select_loop_stable : stable.

Lemma terminate_child_stable (script : process_script) :
  frames stable (terminate_child env script).
Proof. unfold terminate_child. stable_auto. Qed.

Lemma read_output_stable (command : pystr) (timeout : Z) :
  frames stable (read_output env command timeout).
Proof. unfold read_output. stable_auto. Qed.

Lemma finish_child_stable (command : pystr) (out err : list pystr) :
  frames stable (finish_child env command out err).
Proof. unfold finish_child, _log_command_output. stable_auto. Qed.

Hint Resolve terminate_child_stable read_output_stable
  finish_child_stable : stable.

Lemma run_sudo_stable (command : pystr) :
  frames stable (run_sudo env command).
Proof. unfold run_sudo, _log_command_output. stable_auto. Qed.

Lemma run_child_stable (command : pystr) :
  frames stable (run_child env command).
Proof. unfold run_child. stable_auto. Qed.

Hint Resolve run_sudo_stable run_child_stable : stable.

Lemma execute_stable (command : pystr) :
  frames stable (execute_shell_command env command).
Proof. unfold execute_shell_command. stable_auto. Qed.

End Stability.

(* ================================================================== *)
(** * Properties of the executor *)

Section Executor.

Variable env : environment.

Lemma limiter_safe_stable (w w' : world) :
  stable w w' -> limiter_safe w -> limiter_safe w'.
Proof.
  unfold stable, limiter_safe. intros (_ & He & Hm & _) [H|H];
    [left | right]; congruence.
Qed.

Lemma check_returns (w : world) :
  limiter_safe w -> exists b, fst (_check_rate_limit w) = Ok b.
Proof.
  intros [Hoff | Hpos].
  - exists true. unfold _check_rate_limit. now rewrite Hoff.
  - destruct (rate_limit_enabled w) eqn:Hon.
    + eexists. rewrite (check_rate_limit_spec w Hon Hpos). reflexivity.
    + exists true. unfold _check_rate_limit. now rewrite Hon.
Qed.

(** The advisor returns normally. *)
Lemma advisor_returns (w : world) (command out err : pystr) (rc : Z) :
  limiter_safe w -> advisor_benign env ->
  fst (_get_error_solution_from_llm env command out err rc w) = Ok tt.
Proof.
  intros Hsafe Hbenign. unfold _get_error_solution_from_llm.
  unfold bind at 1. unfold emit at 1, modify at 1.
  unfold bind at 1. rewrite check_set_trace.
  destruct (check_returns w Hsafe) as [b Hb]. rewrite Hb.
  destruct b; cbn [negb]; [|reflexivity].
  unfold try_catch, bind, get, ret, emit, modify, raise, _record_request.
  cbn.
  destruct (lookup_model _); [|reflexivity].
  destruct (key_missing _); [reflexivity|].
  destruct (advisor_post env command) as [e|] eqn:Hpost; [|reflexivity].
  cbn. specialize (Hbenign command e Hpost).
  destruct (is_RequestException e); [reflexivity|]. cbn [orb].
  rewrite orb_comm in Hbenign. rewrite Hbenign. reflexivity.
Qed.

Lemma advisor_run (w : world) (command out err : pystr) (rc : Z) :
  limiter_safe w -> advisor_benign env ->
  exists w',
    _get_error_solution_from_llm env command out err rc w = (Ok tt, w').
Proof.
  intros Hsafe Hbenign.
  pose proof (advisor_returns w command out err rc Hsafe Hbenign) as H.
  destruct (_get_error_solution_from_llm env command out err rc w)
    as [r w'].
  cbn in H. subst r. now exists w'.
Qed.

(** The deadline branch always returns. *)
Lemma terminate_child_run (script : process_script) (w : world) :
  exists w',
    terminate_child env script w = (Ok tt, w')
    /\ child_running w' = false.
Proof.
  unfold terminate_child, kill, try_catch, bind, emit, modify, sleep,
    raise, ret, get.
  destruct (os_nt env); cbn; [eexists; split; reflexivity|].
  destruct (ps_sigterm script); cbn; [eexists; split; reflexivity|].
  destruct (ps_sigterm_obeyed script); cbn;
    destruct (ps_grace_interrupted script); cbn;
    try destruct (child_running w) eqn:Hrun; cbn;
    eexists; (split; [reflexivity | cbn; auto]).
Qed.

(** What the outer handlers return for an exception raised in a world
    where the advisor is safe to call. *)
Lemma outer_handler_run (command : pystr) (e : exn) (w : world) :
  limiter_safe w -> advisor_benign env ->
  fst ((if is_KeyboardInterrupt e then ret (RetInt (-1))
        else if is_Exception e then
          _get_error_solution_from_llm env command [] (exn_str e) (-1) ;;
          ret (RetInt (-1))
        else raise e) w)
  = handled e.
Proof.
  intros Hsafe Hbenign. unfold handled.
  destruct (is_KeyboardInterrupt e); [reflexivity|]. cbn [orb].
  destruct (is_Exception e); [|reflexivity].
  unfold bind.
  destruct (advisor_run w command [] (exn_str e) (-1) Hsafe Hbenign)
    as [w' E].
  rewrite E. reflexivity.
Qed.

(** Runs the advisor call at the head of the goal. *)
Ltac use_advisor :=
  match goal with
  | Hb : advisor_benign env
    |- context [_get_error_solution_from_llm env ?c ?o ?e ?rc ?wx] =>
      let E := fresh "E" in
      let w' := fresh "w'" in
      destruct (advisor_run wx c o e rc) as [w' E];
      [ first [ assumption
              | repeat match goal with x := _ : world |- _ => subst x end;
                unfold limiter_safe in *; cbn; assumption ]
      | exact Hb
      | rewrite E ]
  end.


(** The signals the deadline branch sends. *)
Lemma terminate_child_signals (script : process_script) (w : world) :
  exists tail,
    trace (snd (terminate_child env script w)) = trace w ++ tail
    /\ signals tail =
       if os_nt env then [EvKill]
       else EvSigterm
            :: (if kill_needed script (child_running w)
                then [EvKill] else []).
Proof.
  unfold terminate_child, kill, try_catch, bind, emit, sleep, raise, ret,
    get, kill_needed.
  unfold modify.
  destruct (os_nt env); cbn; [exists [EvKill]; split; reflexivity|].
  destruct (ps_sigterm script); cbn.
  { exists [EvSigterm; EvKill]. rewrite <- app_assoc. split; reflexivity. }
  destruct (ps_sigterm_obeyed script); cbn;
    destruct (ps_grace_interrupted script); cbn;
    destruct (child_running w); cbn;
    rewrite <- ?app_assoc; cbn;
    eexists; (split; [reflexivity|]); reflexivity.
Qed.

(** The deadline branch. For a command run through [Popen], when
    the clock read once output reading has ended is at or past the
    configured deadline (60 seconds unless configured), the function
    returns the bare integer -1, a non-zero synthetic status that
    carries no timed-out flag; the child it holds is no longer running
    when it returns; on Windows it is killed outright, elsewhere
    SIGTERM is sent first and the kill follows if the signal could not
    be sent, the grace second was interrupted, or the child is still
    running after it. *)
Theorem deadline_returns_minus_one (w : world) (command : pystr)
    (out err : list pystr) (start_time : Z) (w1 : world) :
  is_sudo_command command && negb (os_nt env) = false ->
  read_output env command (configured_timeout w)
    (set_command_history (command_history w ++ [command]) w)
  = (Ok (out, err, start_time), w1) ->
  configured_timeout w <= clock w1 - start_time ->
  let r := execute_shell_command env command w in
  fst r = Ok (RetInt (-1))
  /\ child_running (snd r) = false
  /\ exists tail,
       trace (snd r) = trace w1 ++ tail
       /\ signals tail =
          if os_nt env then [EvKill]
          else EvSigterm
               :: (if kill_needed (spawn env command) (child_running w1)
                   then [EvKill] else []).
Proof.
  intros Hsudo Hread Hlate r. subst r.
  unfold execute_shell_command, run_child.
  unfold try_catch, bind, ret, raise, get. unfold modify.
  cbn beta iota. rewrite Hsudo.
  change (configured_timeout
            (set_command_history (command_history w ++ [command]) w))
    with (configured_timeout w).
  rewrite Hread.
  replace (configured_timeout w <=? clock w1 - start_time) with true
    by (symmetry; apply Z.leb_le; exact Hlate).
  destruct (terminate_child_run (spawn env command) w1) as [w2 [E Hrun]].
  destruct (terminate_child_signals (spawn env command) w1)
    as [tail [Htrace Hsig]].
  rewrite E in *. cbn [fst snd] in *.
  split; [reflexivity|]. split; [exact Hrun|].
  exists tail. split; [exact Htrace|].
  exact Hsig.
Qed.

End Executor.

(** C1. The deadline is not enforced. With the default timeout of 60
    seconds on a system other than Windows, a command whose child
    closes its pipes at once and runs for 100 seconds is waited for to
    its end: the function returns the tuple ('', '', 0) at second 100,
    no signal is ever sent and the advisor is not asked. And when the
    deadline branch is taken, for a child whose pipes stay open for 100
    seconds, it is taken only at second 100, once the reads have ended.
    In both runs the command was started twice, and the child started
    first is left to itself: it is never waited for or signalled. *)
Theorem deadline_is_not_enforced :
  let r := execute_shell_command detached_env detached_sleep
             fresh_session in
  let r' := execute_shell_command stubborn_env sleep_100 fresh_session in
  configured_timeout fresh_session = 60
  /\ fst r = Ok (RetTuple [] [] 0)
  /\ clock (snd r) = 100
  /\ trace (snd r)
     = [ EvPopen detached_sleep; EvPopen detached_sleep; EvWait;
         EvLogOutput detached_sleep [] [] 0 ]
  /\ abandoned (snd r) = 1%nat
  /\ fst r' = Ok (RetInt (-1))
  /\ clock (snd r') = 101
  /\ trace (snd r')
     = [ EvPopen sleep_100; EvPopen sleep_100; EvSigterm; EvSleep 1;
         EvKill ]
  /\ abandoned (snd r') = 1%nat.
Proof. vm_compute. repeat split; reflexivity. Qed.

(** A stubborn child that is still running a hundred seconds in, against
    the default deadline of sixty: -1 comes back, and the child is gone. *)
Lemma deadline_returns_minus_one_witness :
  let r := execute_shell_command stubborn_env sleep_100 fresh_session in
  fst r = Ok (RetInt (-1))
  /\ child_running (snd r) = false
  /\ signals (trace (snd r)) = [EvSigterm; EvKill].
Proof.
  intro r.
  destruct (deadline_returns_minus_one stubborn_env fresh_session sleep_100
              [] [] 0
              (snd (read_output stubborn_env sleep_100 60
                      (set_command_history [sleep_100] fresh_session)))
              eq_refl eq_refl ltac:(cbn; lia))
    as (Hret & Hrun & _).
  split; [exact Hret|]. split; [exact Hrun|].
  vm_compute. reflexivity.
Defined.

(** [sleep 100] against the default deadline comes back as the bare
    -1, the very value an interrupted run returns, so nothing marks the
    result as timed out; and the run ends without the Error Advisor
    being invoked. *)
Lemma deadline_skips_advisor :
  let r := execute_shell_command sleeping_env sleep_100 fresh_session in
  fst r = Ok (RetInt (-1))
  /\ trace (snd r)
     = [EvPopen sleep_100; EvPopen sleep_100; EvSigterm; EvSleep 1]
  /\ (forall out err code, ~ In (EvAdvisor sleep_100 out err code)
                                (trace (snd r)))
  /\ fst (execute_shell_command interrupted_env sleep_100 fresh_session)
     = fst r.
Proof.
  intro r.
  assert (Ht : trace (snd r)
               = [EvPopen sleep_100; EvPopen sleep_100; EvSigterm; EvSleep 1])
    by (vm_compute; reflexivity).
  split; [vm_compute; reflexivity|]. split; [exact Ht|].
  split; [|vm_compute; reflexivity].
  intros out err code Hin. rewrite Ht in Hin. cbn in Hin.
  repeat (destruct Hin as [Hin|Hin]; [discriminate|]). exact Hin.
Qed.



(* ================================================================== *)
(** * The interactive loop terminates *)

Section Termination.

Variable env : environment.

Ltac consumes_frame :=
  repeat first
    [ assumption
    | apply frames_stable_consumes;
      first [ apply translate_stable | apply execute_stable ]
    | frame_step consumes_refl consumes_trans
    | solve [unfold consumes; cbn; lia] ].

Lemma input_consumes : frames consumes input.
Proof.
  intro w. unfold input, consumes.
  destruct (stdin w) as [|[s| |] rest] eqn:E; cbn; rewrite ?E; cbn; lia.
Qed.

Lemma run_builtin_consumes (s : pystr) : frames consumes (run_builtin env s).
Proof. unfold run_builtin. consumes_frame. Qed.

Lemma main_trim_consumes : frames consumes main_trim_history.
Proof.
  intro w. unfold main_trim_history, modify, consumes. cbn.
  destruct (max_history_size w <? _); cbn; lia.
Qed.

(** A computation that starts by reading a line either finds the
    console closed or leaves it strictly shorter. *)
Lemma reads_first {A} (k : pystr -> M A) (w : world) :
  (forall s, frames consumes (k s)) ->
  match stdin w with
  | [] => bind input k w = (Exn (mkExn KEOFError []), w)
  | _ :: _ =>
      (List.length (stdin (snd (bind input k w)))
       < List.length (stdin w))%nat
  end.
Proof.
  intros Hk. unfold bind, input.
  destruct (stdin w) as [|[s| |] rest] eqn:E.
  - reflexivity.
  - specialize (Hk s (set_stdin rest w)). unfold consumes in Hk.
    cbn in *. lia.
  - cbn. lia.
  - cbn. lia.
Qed.

Lemma teach_step (w : world) :
  match stdin w with
  | [] => teach_body env w = (Exn (mkExn KEOFError []), w)
  | _ :: _ =>
      (List.length (stdin (snd (teach_body env w)))
       < List.length (stdin w))%nat
  end.
Proof.
  unfold teach_body. apply reads_first. intro raw. cbv zeta.
  repeat first
    [ apply input_consumes
    | apply run_builtin_consumes
    | frame_step consumes_refl consumes_trans
    | solve [unfold consumes; cbn; lia] ].
Qed.

(** With more fuel than pending input the teach loop never runs dry,
    and it only consumes input. *)
Lemma teach_loop_total (fuel : nat) :
  forall w, (List.length (stdin w) < fuel)%nat ->
            fst (teach_loop env fuel w) <> Ok false
            /\ consumes w (snd (teach_loop env fuel w)).
Proof.
  induction fuel as [|fuel IH]; intros w Hlen; [lia|].
  cbn [teach_loop]. unfold bind, try_catch.
  pose proof (teach_step w) as Hstep.
  destruct (stdin w) as [|i rest] eqn:Hin.
  - rewrite Hstep. cbn. split; [discriminate | apply consumes_refl].
  - destruct (teach_body env w) as [[[|]|e] w1]; cbn [snd] in Hstep.
    + destruct (IH w1) as [Hne Hc]; [lia|].
      split; [exact Hne|].
      unfold consumes in *. rewrite Hin. lia.
    + cbn. split; [discriminate|].
      unfold consumes. rewrite Hin. lia.
    + destruct (is_KeyboardInterrupt e).
      * unfold ret. destruct (IH w1) as [Hne Hc]; [lia|].
        split; [exact Hne|].
        unfold consumes in *. rewrite Hin. lia.
      * cbn. split; [discriminate|].
        unfold consumes. rewrite Hin. lia.
Qed.

Lemma answers_ret (s : loop_step) : answers (ret (Some s)).
Proof. intro w. discriminate. Qed.

Lemma answers_bind {A} (m : M A) (k : A -> M (option loop_step)) :
  (forall a, answers (k a)) -> answers (bind m k).
Proof.
  intros Hk w. unfold bind.
  destruct (m w) as [[a|e] w1]; [apply Hk | discriminate].
Qed.

(** Entering teach mode with one more unit of fuel than there is
    pending input never reports exhaustion. *)
Lemma teach_branch_answers :
  answers
    (fuel <- get (fun w => S (List.length (stdin w))) ;;
     finished <- teach_loop env fuel ;;
     ret (if finished : bool then Some Continue else None)).
Proof.
  intro w. unfold bind, get, ret.
  destruct (teach_loop_total (S (List.length (stdin w))) w) as [Hne _];
    [lia|].
  destruct (teach_loop env (S (List.length (stdin w))) w) as [[[|]|e] w1];
    cbn in *; congruence.
Qed.

Lemma teach_branch_consumes :
  frames consumes
    (fuel <- get (fun w => S (List.length (stdin w))) ;;
     finished <- teach_loop env fuel ;;
     ret (if finished : bool then Some Continue else None)).
Proof.
  intro w. unfold bind, get, ret.
  destruct (teach_loop_total (S (List.length (stdin w))) w) as [_ Hc];
    [lia|].
  destruct (teach_loop env (S (List.length (stdin w))) w) as [[b|e] w1];
    exact Hc.
Qed.

(** One turn of the main loop: it finds the console closed, or it
    shortens the pending input and answers. *)
Lemma main_step (w : world) :
  match stdin w with
  | [] => main_body env w = (Exn (mkExn KEOFError []), w)
  | _ :: _ =>
      (List.length (stdin (snd (main_body env w)))
       < List.length (stdin w))%nat
  end.
Proof.
  unfold main_body. apply reads_first. intro raw. cbv zeta.
  repeat first
    [ apply teach_branch_consumes
    | apply input_consumes
    | apply run_builtin_consumes
    | apply main_trim_consumes
    | apply frames_stable_consumes;
      first [ apply translate_stable | apply execute_stable ]
    | frame_step consumes_refl consumes_trans
    | solve [unfold consumes; cbn; lia] ].
Qed.

Lemma main_body_answers : answers (main_body env).
Proof.
  unfold main_body. apply answers_bind. intro raw. cbv zeta.
  repeat first
    [ apply teach_branch_answers
    | apply answers_ret
    | apply answers_bind; intro
    | match goal with
      | |- answers (match ?x with _ => _ end) => destruct x
      end ].
Qed.

(** With more fuel than pending input the main loop never runs dry. *)
Lemma main_loop_total (fuel : nat) :
  forall w, (List.length (stdin w) < fuel)%nat ->
            fst (main_loop env fuel w) <> Ok false.
Proof.
  induction fuel as [|fuel IH]; intros w Hlen; [lia|].
  cbn [main_loop]. unfold bind, try_catch.
  pose proof (main_step w) as Hstep.
  pose proof (main_body_answers w) as Hans.
  destruct (stdin w) as [|i rest] eqn:Hin.
  - rewrite Hstep. cbn. discriminate.
  - destruct (main_body env w) as [[[[|]|]|e] w1];
      cbn [fst snd] in Hstep, Hans.
    + apply IH. lia.
    + cbn. discriminate.
    + congruence.
    + unfold main_handler.
      destruct (exn_kind_of e); try destruct (is_Exception e);
        unfold ret, raise, bind, emit, modify; cbn [fst snd];
        first [ discriminate | apply IH; cbn; lia ].
Qed.

(** The program model never reports exhausted fuel: every run ends
    with an exit code or an uncaught exception. *)
Theorem program_terminates (args : arguments) (w : world) :
  fst (program env args w) <> OutOfFuel.
Proof.
  unfold program, try_catch. unfold bind at 1.
  unfold construct.
  destruct (init_outcome env) as [e|].
  { unfold raise. destruct (is_Exception e); cbn;
      [discriminate | destruct (exn_kind_of e); discriminate]. }
  unfold bind at 1. unfold modify at 1. unfold setup_prompt, modify.
  cbn [fst snd]. unfold bind at 1.
  match goal with
  | |- context [apply_arguments args ?x] =>
      destruct (apply_arguments_ok args x) as [wb [Eb Hsb]]; rewrite Eb
  end.
  unfold main, try_finally, _display_welcome, save_command_history.
  unfold bind, emit, ret, raise, get.
  unfold modify. cbn beta iota.
  destruct (welcome_outcome env) as [e|]; cbn beta iota.
  { destruct (is_Exception e); cbn;
      [discriminate | destruct (exn_kind_of e); discriminate]. }
  match goal with
  | |- context [main_loop env ?f ?x] =>
      pose proof (main_loop_total f x) as Htot;
      destruct (main_loop env f x) as [[[|]|e] w2]
  end; cbn -[main_loop] in *.
  - discriminate.
  - exfalso. apply Htot; [lia | reflexivity].
  - destruct (is_Exception e); cbn;
      [discriminate | destruct (exn_kind_of e); discriminate].
Qed.

End Termination.

(* ================================================================== *)
(** * How the program ends *)

Section ExitStatus.

Variable env : environment.
Variable args : arguments.

(** The handlers of a turn leave the console input alone. *)
Lemma turn_stdin (w : world) :
  stdin (snd (turn env w)) = stdin (snd (main_body env w)).
Proof.
  unfold turn, try_catch.
  destruct (main_body env w) as [[step | e] w1]; [reflexivity|].
  unfold main_handler.
  destruct (exn_kind_of e); try destruct (is_Exception e); reflexivity.
Qed.

(** A turn that ends in [continue] has read at least one line. *)
Lemma turn_continue_consumes (w w1 : world) :
  turn env w = (Ok (Some Continue), w1) ->
  (List.length (stdin w1) < List.length (stdin w))%nat.
Proof.
  intro H. pose proof (turn_stdin w) as Hs. rewrite H in Hs. cbn in Hs.
  pose proof (main_step env w) as Hstep.
  destruct (stdin w) as [|i rest] eqn:Hin.
  - unfold turn, try_catch in H. rewrite Hstep in H. discriminate.
  - rewrite Hs. exact Hstep.
Qed.

(** Turns that continue are turns of the [while]: the loop run from the
    first world is the loop run from the last one. *)
Lemma loop_continues (w w1 : world) :
  continues env w w1 ->
  forall fuel, (List.length (stdin w) < fuel)%nat ->
  exists fuel1,
    (List.length (stdin w1) < fuel1)%nat
    /\ main_loop env fuel w = main_loop env fuel1 w1.
Proof.
  induction 1 as [w | w wa w1 Hturn Hrest IH]; intros fuel Hlen.
  - exists fuel. auto.
  - destruct fuel as [|fuel]; [lia|].
    pose proof (turn_continue_consumes w wa Hturn) as Hc.
    destruct (IH fuel ltac:(lia)) as (fuel1 & Hl & E).
    exists fuel1. split; [exact Hl|].
    rewrite <- E. cbn [main_loop]. unfold bind.
    fold (turn env). rewrite Hturn. reflexivity.
Qed.

(** A turn that ends in [break] ends the loop. *)
Lemma loop_breaks (w w1 : world) (fuel : nat) :
  turn env w = (Ok (Some Break), w1) ->
  main_loop env (S fuel) w = (Ok true, w1).
Proof.
  intro H. cbn [main_loop]. unfold bind. fold (turn env).
  rewrite H. reflexivity.
Qed.

(** After a start-up without exception the program is the loop, followed
    by the save of the command history. *)
Lemma program_started (w : world) :
  init_outcome env = None ->
  welcome_outcome env = None ->
  program env args w =
  match try_finally
          (main_loop env (S (List.length (stdin (started env args w)))))
          save_command_history (started env args w) with
  | (Ok true, w') => (ExitCode 0, w')
  | (Ok false, w') => (OutOfFuel, w')
  | (Exn e, w') =>
      if is_Exception e then (ExitCode 1, w')
      else match exn_kind_of e with
           | KSystemExit code => (ExitCode code, w')
           | _ => (Uncaught e, w')
           end
  end.
Proof.
  intros Hinit Hwelcome.
  destruct (construct_ok env w Hinit) as [wa [Ea Hsa]].
  destruct (apply_arguments_ok args wa) as [wb [Eb Hsb]].
  assert (Es : started env args w = set_trace (trace wb ++ [EvWelcome]) wb).
  { unfold started. unfold bind at 1. rewrite Ea.
    unfold bind at 1. rewrite Eb.
    unfold _display_welcome. rewrite Hwelcome. reflexivity. }
  rewrite Es.
  unfold program, try_catch. unfold bind at 1. rewrite Ea.
  unfold bind at 1. rewrite Eb.
  unfold main, try_finally, _display_welcome. rewrite Hwelcome.
  unfold bind, ret, get, emit, modify, save_command_history, raise.
  cbn -[main_loop].
  destruct (main_loop env (S (List.length (stdin wb)))
              (set_trace (trace wb ++ [EvWelcome]) wb)) as [[b|e] w2];
    cbn.
  - destruct b; reflexivity.
  - destruct (is_Exception e) eqn:He; cbn.
    + reflexivity.
    + destruct (exn_kind_of e); reflexivity.
Qed.

(** C8. The process exits with code 1 when the constructor or the
    welcome screen raises an exception during start-up. After a
    start-up without exception it exits with code 0 whenever the loop
    ends, after any number of turns that continued, in a turn that
    breaks; and the turns that break are those in which the user types
    exit, quit or q at the prompt, in which the prompt finds the input
    closed, and in which any later read of the turn does. *)
Theorem exit_codes (w : world) :
  (forall e, init_outcome env = Some e -> is_Exception e = true ->
             fst (program env args w) = ExitCode 1)
  /\ (forall e, init_outcome env = None -> welcome_outcome env = Some e ->
                is_Exception e = true ->
                fst (program env args w) = ExitCode 1)
  /\ (forall w1 w2,
        init_outcome env = None -> welcome_outcome env = None ->
        continues env (started env args w) w1 ->
        turn env w1 = (Ok (Some Break), w2) ->
        fst (program env args w) = ExitCode 0)
  /\ (forall w1 raw rest,
        stdin w1 = Line raw :: rest ->
        one_of (py_lower env (strip raw)) ["exit"; "quit"; "q"]%string
        = true ->
        turn env w1 = (Ok (Some Break), set_stdin rest w1))
  /\ (forall w1,
        stdin w1 = [] \/ (exists rest, stdin w1 = CtrlD :: rest) ->
        exists w2, turn env w1 = (Ok (Some Break), w2))
  /\ (forall w1 w2 e,
        main_body env w1 = (Exn e, w2) ->
        exn_kind_of e = KEOFError ->
        turn env w1 = (Ok (Some Break), w2)).
Proof.
  split; [|split; [|split; [|split; [|split]]]].
  - intros e Hinit He. unfold program, try_catch, bind, construct.
    rewrite Hinit. unfold raise. rewrite He. reflexivity.
  - intros e Hinit Hwelcome He.
    destruct (construct_ok env w Hinit) as [wa [Ea Hsa]].
    destruct (apply_arguments_ok args wa) as [wb [Eb Hsb]].
    unfold program, try_catch. unfold bind at 1. rewrite Ea.
    unfold bind at 1. rewrite Eb.
    unfold main, try_finally, _display_welcome. rewrite Hwelcome.
    unfold bind, emit, modify, raise, save_command_history, get. cbn.
    rewrite He. reflexivity.
  - intros w1 w2 Hinit Hwelcome Hcont Hbreak.
    rewrite (program_started w Hinit Hwelcome).
    destruct (loop_continues _ _ Hcont
                (S (List.length (stdin (started env args w))))
                ltac:(lia)) as (fuel1 & Hl & E).
    destruct fuel1 as [|fuel1]; [lia|].
    unfold try_finally. rewrite E, (loop_breaks w1 w2 fuel1 Hbreak).
    unfold save_command_history, bind, get, emit, modify. reflexivity.
  - intros w1 raw rest Hin Hexit.
    unfold turn, try_catch, main_body.
    unfold bind at 1. unfold input at 1. rewrite Hin.
    cbv zeta. rewrite Hexit. reflexivity.
  - intros w1 Hin.
    unfold turn, try_catch, main_body.
    unfold bind at 1. unfold input at 1.
    destruct Hin as [-> | [rest ->]]; eexists; reflexivity.
  - intros w1 w2 e Hbody Hkind.
    unfold turn, try_catch. rewrite Hbody.
    unfold main_handler. rewrite Hkind. reflexivity.
Qed.

End ExitStatus.

(** A failing start-up exits with 1. A session of three turns, in which
    the user asks for help, has a request translated and declines to
    run the command, then types " Quit ", exits with 0; so does one
    whose input ends while the confirmation is awaited. *)
Lemma exit_codes_witness :
  fst (program broken_env no_arguments fresh_session) = ExitCode 1
  /\ fst (program answering_env no_arguments
            (set_stdin [ Line (lit "help"); Line list_files;
                         Line (lit "n"); Line (lit " Quit ") ]
               fresh_session)) = ExitCode 0
  /\ fst (program answering_env no_arguments
            (set_stdin [Line (lit "help"); Line list_files]
               fresh_session)) = ExitCode 0.
Proof.
  split; [|split].
  - destruct (exit_codes broken_env no_arguments fresh_session)
      as (H & _).
    apply (H (mkExn KAttributeError
                (lit "'ECNUShellAssistant' object has no attribute 'model'")));
      reflexivity.
  - set (w := set_stdin [ Line (lit "help"); Line list_files;
                          Line (lit "n"); Line (lit " Quit ") ]
                fresh_session).
    set (w0 := started answering_env no_arguments w).
    set (w1 := snd (turn answering_env w0)).
    set (w2 := snd (turn answering_env w1)).
    destruct (exit_codes answering_env no_arguments w)
      as (_ & _ & H & _).
    apply (H w2 (snd (turn answering_env w2)));
      [ reflexivity | reflexivity | | vm_compute; reflexivity ].
    apply (continues_on answering_env w0 w1 w2);
      [vm_compute; reflexivity|].
    apply (continues_on answering_env w1 w2 w2);
      [vm_compute; reflexivity|].
    apply continues_here.
  - set (w := set_stdin [Line (lit "help"); Line list_files]
                fresh_session).
    set (w0 := started answering_env no_arguments w).
    set (w1 := snd (turn answering_env w0)).
    destruct (exit_codes answering_env no_arguments w)
      as (_ & _ & H & _).
    apply (H w1 (snd (turn answering_env w1)));
      [ reflexivity | reflexivity | | vm_compute; reflexivity ].
    apply (continues_on answering_env w0 w1 w1);
      [vm_compute; reflexivity|].
    apply continues_here.
Defined.

(* ================================================================== *)
(** * The danger classifier, for every command *)

Section Patterns.

Lemma matches_nil_app (r : regex) (s t : pystr) :
  matches r (s ++ t) -> s = [] -> t = [] -> matches r [].
Proof. intros H -> ->. exact H. Qed.

Lemma nullable_iff (r : regex) : nullable r = true <-> matches r [].
Proof.
  split.
  - induction r; cbn; intro H; try discriminate.
    + constructor.
    + apply andb_true_iff in H as [Ha Hb].
      change (@nil pychar) with (@nil pychar ++ []). constructor; auto.
    + apply orb_true_iff in H as [H | H].
      * apply MAltL; auto.
      * apply MAltR; auto.
    + constructor.
  - intro H. remember (@nil pychar) as u eqn:Eu.
    induction H; cbn; try discriminate; auto.
    + apply app_eq_nil in Eu as [-> ->].
      rewrite IHmatches1, IHmatches2; auto.
    + rewrite IHmatches; auto.
    + rewrite IHmatches; auto. apply orb_true_r.
Qed.

Lemma matches_star_cons (a : regex) (c : pychar) (s : pystr) :
  matches (RStar a) (c :: s) ->
  exists s1 s2, s = s1 ++ s2 /\ matches a (c :: s1) /\ matches (RStar a) s2.
Proof.
  intro H. remember (RStar a) as r eqn:Er. remember (c :: s) as u eqn:Eu.
  revert s Eu.
  induction H; intros s0 Eu; try discriminate.
  injection Er as ->.
  destruct s as [|d s1].
  - cbn in Eu. apply IHmatches2; auto.
  - cbn in Eu. injection Eu as -> <-.
    exists s1, t. auto.
Qed.

Lemma deriv_iff (c : pychar) (r : regex) :
  forall s, matches (deriv c r) s <-> matches r (c :: s).
Proof.
  induction r; intro s; cbn.
  - split; intro H; inversion H.
  - split; intro H; inversion H.
  - unfold pychar_eqb. destruct (N.eqb_spec c p) as [-> | Hne].
    + split; intro H; inversion H; subst; constructor.
    + split; intro H; inversion H; subst. contradiction.
  - unfold pychar_eqb. destruct (N.eqb_spec c 10%N) as [-> | Hne].
    + split; intro H; inversion H; subst. contradiction.
    + split; intro H; inversion H; subst; constructor; auto.
  - destruct (nullable r1) eqn:En.
    + split; intro H.
      * inversion H as [| | | | a b u Hu | a b u Hu | |]; subst.
        -- inversion Hu as [| | |a b s1 s2 H1 H2| | | |]; subst.
           apply IHr1 in H1.
           change (c :: s1 ++ s2) with ((c :: s1) ++ s2).
           constructor; auto.
        -- apply IHr2 in Hu.
           change (c :: s) with ([] ++ c :: s).
           constructor; auto. apply nullable_iff; auto.
      * inversion H as [| | |a b s1 s2 H1 H2 E1 E2| | | |]; subst.
        destruct s1 as [|d s1].
        -- cbn in E2. subst s2. apply MAltR. apply IHr2; auto.
        -- cbn in E2. injection E2 as -> <-.
           apply MAltL. constructor; auto. apply IHr1; auto.
    + split; intro H.
      * inversion H as [| | |a b s1 s2 H1 H2| | | |]; subst.
        apply IHr1 in H1.
        change (c :: s1 ++ s2) with ((c :: s1) ++ s2).
        constructor; auto.
      * inversion H as [| | |a b s1 s2 H1 H2 E1 E2| | | |]; subst.
        destruct s1 as [|d s1].
        -- apply nullable_iff in H1. congruence.
        -- cbn in E2. injection E2 as -> <-.
           constructor; auto. apply IHr1; auto.
  - split; intro H.
    + inversion H; subst; [apply MAltL; apply IHr1 | apply MAltR; apply IHr2];
        auto.
    + inversion H; subst; [apply MAltL; apply IHr1 | apply MAltR; apply IHr2];
        auto.
  - split; intro H.
    + inversion H as [| | |a b s1 s2 H1 H2| | | |]; subst.
      apply IHr in H1.
      change (c :: s1 ++ s2) with ((c :: s1) ++ s2).
      constructor; auto.
    + apply matches_star_cons in H as (s1 & s2 & -> & H1 & H2).
      constructor; auto. apply IHr; auto.
Qed.

Lemma re_match_iff (s : pystr) :
  forall r, re_match r s = true <-> exists p q, s = p ++ q /\ matches r p.
Proof.
  induction s as [|c s IH]; intro r; cbn.
  - rewrite orb_false_r. rewrite nullable_iff. split.
    + intro H. exists [], []. auto.
    + intros (p & q & E & H). symmetry in E.
      apply app_eq_nil in E as [-> _]. exact H.
  - rewrite orb_true_iff, nullable_iff, IH. split.
    + intros [H | (p & q & -> & H)].
      * exists [], (c :: s). auto.
      * exists (c :: p), q. split; auto. apply deriv_iff; auto.
    + intros (p & q & E & H). destruct p as [|d p].
      * left; auto.
      * cbn in E. injection E as <- ->. right.
        exists p, q. split; auto. apply deriv_iff; auto.
Qed.

Lemma re_search_iff (r : regex) (s : pystr) :
  re_search r s = true <-> exists x p y, s = x ++ p ++ y /\ matches r p.
Proof.
  induction s as [|c s IH]; cbn [re_search].
  - rewrite orb_false_r. rewrite (re_match_iff []). split.
    + intros (p & q & E & H). exists [], p, q. auto.
    + intros (x & p & y & E & H). symmetry in E.
      apply app_eq_nil in E as [-> E].
      apply app_eq_nil in E as [-> ->]. exists [], []. auto.
  - rewrite orb_true_iff, IH.
    rewrite re_match_iff. split.
    + intros [(p & q & E & H) | (x & p & y & -> & H)].
      * exists [], p, q. auto.
      * exists (c :: x), p, y. auto.
    + intros (x & p & y & E & H). destruct x as [|d x].
      * left. exists p, y. auto.
      * cbn in E. injection E as <- ->. right. exists x, p, y. auto.
Qed.

Lemma matches_lit (s p : pystr) : matches (re_lit s) p <-> p = s.
Proof.
  revert p. induction s as [|c s IH]; intro p; cbn.
  - split; intro H; [inversion H | subst; constructor]; auto.
  - split; intro H.
    + inversion H as [| | |a b s1 s2 H1 H2| | | |]; subst.
      inversion H1; subst. apply IH in H2. subst. reflexivity.
    + subst. change (c :: s) with ([c] ++ s). constructor.
      * constructor.
      * apply IH; auto.
Qed.

Lemma matches_dots (m : pystr) : matches (RStar RDot) m <-> one_line m.
Proof.
  unfold one_line. split.
  - intro H. remember (RStar RDot) as r eqn:Er.
    induction H; try discriminate.
    + intros [].
    + injection Er as ->. inversion H; subst.
      intros [E | Hin]; [congruence | apply IHmatches2; auto].
  - induction m as [|c m IH]; intro H.
    + constructor.
    + change (c :: m) with ([c] ++ m). constructor.
      * constructor. intro E. apply H. left. auto.
      * apply IH. intro Hin. apply H. right. auto.
Qed.

Lemma matches_gap (a b : string) (p : pystr) :
  matches (re_gap a b) p <->
  exists m, p = lit a ++ m ++ lit b /\ one_line m.
Proof.
  unfold re_gap, lit. split.
  - intro H.
    inversion H as [| | |r1 r2 s1 s2 H1 H2| | | |]; subst.
    inversion H2 as [| | |r3 r4 s3 s4 H3 H4| | | |]; subst.
    apply matches_lit in H1, H4. subst.
    exists s3. split; auto. apply matches_dots; auto.
  - intros (m & -> & Hm).
    constructor; [apply matches_lit; auto |].
    constructor; [apply matches_dots; auto | apply matches_lit; auto].
Qed.

Lemma search_word (w : string) (c : pystr) :
  re_search (re_lit (of_ascii w)) c = true <-> occurs (lit w) c.
Proof.
  rewrite re_search_iff. unfold occurs, lit. split.
  - intros (x & p & y & -> & H). apply matches_lit in H. subst.
    exists x, y. auto.
  - intros (x & y & ->). exists x, (of_ascii w), y. split; auto.
    apply matches_lit; auto.
Qed.

Lemma search_pair (a b : string) (c : pystr) :
  re_search (re_gap a b) c = true <-> occurs_then (lit a) (lit b) c.
Proof.
  rewrite re_search_iff. unfold occurs_then. split.
  - intros (x & p & y & -> & H). apply matches_gap in H as (m & -> & Hm).
    exists x, m, y. split; auto. now rewrite <- !app_assoc.
  - intros (x & m & y & -> & Hm). exists x, (lit a ++ m ++ lit b), y.
    split; [now rewrite <- !app_assoc |].
    apply matches_gap. exists m. auto.
Qed.

End Patterns.

(** X1. The classifier flags exactly the commands in which one of the
    words mkfs., shutdown, reboot, poweroff occurs, or in which the
    first string of one of the pairs (rm, -rf), (dd, of=), (chmod, 777),
    (>, /etc/), (||, rm) occurs and the second one occurs after it with
    no line feed in between. *)
Theorem dangerous_iff_pattern_occurs (command : pystr) :
  _is_dangerous_command command = true <->
  (exists w, In w danger_words /\ occurs (lit w) command)
  \/ (exists a b, In (a, b) danger_pairs
                  /\ occurs_then (lit a) (lit b) command).
Proof.
  unfold _is_dangerous_command, dangerous_patterns.
  cbn [existsb]. rewrite orb_false_r, !orb_true_iff.
  rewrite !search_word, !search_pair.
  unfold danger_words, danger_pairs. split.
  - intros [H | [H | [H | [H | [H | [H | [H | [H | H]]]]]]]].
    + right. eexists _, _. split; [| exact H]. cbn; auto.
    + left. eexists. split; [| exact H]. cbn; auto.
    + right. eexists _, _. split; [| exact H]. cbn; auto.
    + right. eexists _, _. split; [| exact H]. cbn; auto 6.
    + right. eexists _, _. split; [| exact H]. cbn; auto 6.
    + right. eexists _, _. split; [| exact H]. cbn; auto 7.
    + left. eexists. split; [| exact H]. cbn; auto.
    + left. eexists. split; [| exact H]. cbn; auto.
    + left. eexists. split; [| exact H]. cbn; auto 6.
  - intros [(w & Hin & H) | (a & b & Hin & H)].
    + cbn in Hin.
      destruct Hin as [<- | [<- | [<- | [<- | []]]]]; tauto.
    + cbn in Hin.
      destruct Hin as [E | [E | [E | [E | [E | []]]]]];
        injection E as <- <-; tauto.
Qed.

(** X2. Text added before or after a flagged command never hides it:
    whatever surrounds a dangerous command, the whole is flagged too. *)
Theorem dangerous_in_any_context (before command after : pystr) :
  _is_dangerous_command command = true ->
  _is_dangerous_command (before ++ command ++ after) = true.
Proof.
  unfold _is_dangerous_command. rewrite !existsb_exists.
  intros (r & Hin & H). exists r. split; auto.
  apply re_search_iff in H as (x & p & y & -> & H).
  apply re_search_iff. exists (before ++ x), p, (y ++ after).
  split; auto. now rewrite <- !app_assoc.
Qed.

Lemma dangerous_in_any_context_witness :
  _is_dangerous_command (lit "sudo " ++ lit "rm -rf /" ++ lit " && ls")
  = true.
Proof.
  apply (dangerous_in_any_context (lit "sudo ") (lit "rm -rf /")
           (lit " && ls")).
  vm_compute; reflexivity.
Defined.

(* ================================================================== *)
(** * The cleaner, for every reply *)

Section Cleaner.

Lemma word_no_space (w : pystr) (c : pychar) :
  word w -> In c w -> is_space c = false.
Proof.
  intros [_ H] Hin. rewrite forallb_forall in H.
  apply H in Hin. now apply negb_true_iff in Hin.
Qed.

Lemma join_cons2 (sep x y : pystr) (l : list pystr) :
  join sep (x :: y :: l) = x ++ sep ++ join sep (y :: l).
Proof. reflexivity. Qed.

(** The only whitespace among joined words is the separator. *)
Lemma join_spaces (ws : list pystr) (c : pychar) :
  Forall word ws -> In c (join space ws) -> is_space c = true -> c = 32%N.
Proof.
  induction ws as [|w ws IH]; intros H Hin Hsp; [destruct Hin|].
  inversion H as [|? ? Hw Hws]; subst.
  destruct ws as [|w2 ws].
  - cbn in Hin. rewrite (word_no_space w c Hw Hin) in Hsp. discriminate.
  - rewrite join_cons2 in Hin. apply in_app_or in Hin as [Hin | Hin].
    + rewrite (word_no_space w c Hw Hin) in Hsp. discriminate.
    + cbn in Hin. destruct Hin as [E | Hin]; [now symmetry|].
      apply IH; auto.
Qed.

Lemma join_head (w : pystr) (ws : list pystr) :
  Forall word (w :: ws) ->
  exists d j, join space (w :: ws) = d :: j /\ is_space d = false.
Proof.
  intro H. inversion H as [|? ? Hw Hws]; subst.
  destruct w as [|d w']; [destruct Hw as [Hw _]; congruence|].
  assert (Hd : is_space d = false)
    by (apply (word_no_space (d :: w') d Hw); now left).
  destruct ws as [|w2 ws].
  - exists d, w'. auto.
  - rewrite join_cons2. cbn [app]. eexists d, _. split; [reflexivity | auto].
Qed.

Lemma join_no_double_space (ws : list pystr) :
  Forall word ws -> ~ occurs [32%N; 32%N] (join space ws).
Proof.
  induction ws as [|w ws IH]; intros H (x & y & E).
  - cbn in E. destruct x; discriminate.
  - inversion H as [|? ? Hw Hws]; subst.
    destruct ws as [|w2 ws].
    + cbn [join] in E.
      assert (Hin : In 32%N w) by (rewrite E; apply in_or_app; right; now left).
      pose proof (word_no_space w _ Hw Hin). discriminate.
    + rewrite join_cons2 in E.
      destruct (join_head w2 ws Hws) as (d & j & Ej & Hd).
      rewrite Ej in E. symmetry in E.
      apply app_eq_app in E as [l [[Ex El] | [Ew El]]].
      * destruct l as [|c l].
        -- cbn in El. injection El as El. subst d. discriminate.
        -- cbn in El. injection El as _ El.
           apply IH; auto. rewrite Ej. exists l, y. exact El.
      * destruct l as [|c l].
        -- cbn in El. injection El as El. subst d. discriminate.
        -- cbn in El. injection El as <- _.
           assert (Hin : In 32%N w)
             by (rewrite Ew; apply in_or_app; right; now left).
           pose proof (word_no_space w _ Hw Hin). discriminate.
Qed.

Lemma lstrip_app (a b : pystr) :
  lstrip a = a -> a <> [] -> lstrip (a ++ b) = a ++ b.
Proof.
  destruct a as [|c a]; [congruence|]. intros H _. cbn in *.
  destruct (is_space c); auto.
  exfalso.
  assert (L : forall s, (List.length (lstrip s) <= List.length s)%nat).
  { induction s as [|d s IHs]; cbn; auto.
    destruct (is_space d); cbn; lia. }
  pose proof (L a) as La. rewrite H in La. cbn in La. lia.
Qed.

Lemma strip_app (a b : pystr) :
  lstrip a = a -> a <> [] -> rstrip b = b -> b <> [] ->
  strip (a ++ b) = a ++ b.
Proof.
  intros Ha Hna Hb Hnb. unfold strip. rewrite lstrip_app by auto.
  unfold rstrip in *. rewrite rev_app_distr.
  assert (Hr : lstrip (rev b) = rev b).
  { rewrite <- (rev_involutive (lstrip (rev b))), Hb. reflexivity. }
  rewrite lstrip_app; auto.
  - rewrite <- rev_app_distr. apply rev_involutive.
  - intro E. apply Hnb. rewrite <- (rev_involutive b), E. reflexivity.
Qed.

Lemma rstrip_join (ws : list pystr) :
  Forall word ws -> rstrip (join space ws) = join space ws.
Proof.
  intro H. pose proof (strip_join ws H) as E. unfold strip in E.
  rewrite lstrip_join in E by exact H. exact E.
Qed.

Lemma split_char_line (sep : pychar) (a : pystr) :
  ~ In sep a -> split_char sep a = [a].
Proof.
  induction a as [|c a IH]; intro H; [reflexivity|].
  cbn. unfold pychar_eqb. destruct (N.eqb_spec c sep) as [-> | Hne].
  - exfalso. apply H. now left.
  - rewrite IH; auto. intro Hin. apply H. now right.
Qed.

Lemma split_char_app (sep : pychar) (a r : pystr) :
  ~ In sep a -> split_char sep (a ++ sep :: r) = a :: split_char sep r.
Proof.
  induction a as [|c a IH]; intro H.
  - cbn. unfold pychar_eqb. now rewrite N.eqb_refl.
  - cbn. unfold pychar_eqb. destruct (N.eqb_spec c sep) as [-> | Hne].
    + exfalso. apply H. now left.
    + rewrite IH; auto. intro Hin. apply H. now right.
Qed.

Lemma join_one_line (ws : list pystr) :
  Forall word ws -> one_line (join space ws).
Proof.
  intros H Hin. pose proof (join_spaces ws 10%N H Hin eq_refl).
  discriminate.
Qed.

Lemma startswith_app (p s : pystr) : startswith p (p ++ s) = true.
Proof.
  induction p as [|c p IH]; [reflexivity|].
  cbn. unfold pychar_eqb. now rewrite N.eqb_refl.
Qed.

Lemma drop_prefix_app (p s : pystr) : drop_prefix p (p ++ s) = s.
Proof.
  unfold drop_prefix. induction p as [|c p IH]; [reflexivity | exact IH].
Qed.

Lemma normalise_join (ws : list pystr) :
  Forall word ws ->
  strip (join space (split_ws (join space ws))) = join space ws.
Proof.
  intro H. rewrite split_ws_join by exact H. apply strip_join, H.
Qed.

End Cleaner.

(** X3. Whatever the reply, the cleaned command is one line of words
    separated by single spaces: its only whitespace characters are plain
    spaces, no two of them are adjacent, nothing is left to strip at
    either end, and normalising it again gives the same string. *)
Theorem clean_is_single_spaced (reply : pystr) :
  let command := _clean_command reply in
  (forall c, In c command -> is_space c = true -> c = 32%N)
  /\ ~ occurs [32%N; 32%N] command
  /\ strip command = command
  /\ join space (split_ws command) = command.
Proof.
  cbv zeta. destruct (clean_is_joined reply) as (ws & Hws & ->).
  split; [|split; [|split]].
  - intros c. apply join_spaces, Hws.
  - apply join_no_double_space, Hws.
  - apply strip_join, Hws.
  - now rewrite split_ws_join.
Qed.

(** X4. A fenced reply gives back the command it wraps: for any
    language tag on the opening fence line, and any single-spaced
    command that opens with neither a fence nor a label, cleaning
    fence + tag + newline + command + newline + fence returns the
    command. *)
Theorem clean_unwraps_fence (tag : pystr) (ws : list pystr) :
  one_line tag ->
  Forall word ws ->
  startswith fence (join space ws) = false ->
  (forall p, In p prefixes -> startswith p (join space ws) = false) ->
  _clean_command
    (fence ++ tag ++ newline ++ join space ws ++ newline ++ fence)
  = join space ws.
Proof.
  intros Htag Hws Hfence Hlabel.
  set (command := join space ws) in *.
  unfold _clean_command.
  assert (E : strip (fence ++ tag ++ newline ++ command ++ newline ++ fence)
              = (fence ++ tag) ++ 10%N :: command ++ 10%N :: fence).
  { replace (fence ++ tag ++ newline ++ command ++ newline ++ fence)
      with ((fence ++ tag ++ newline ++ command ++ newline) ++ fence)
      by (now rewrite <- !app_assoc).
    rewrite strip_app; try reflexivity; try discriminate.
    unfold newline. rewrite <- !app_assoc. reflexivity. }
  rewrite E. unfold unfence.
  replace (startswith fence ((fence ++ tag) ++ 10%N :: command ++ 10%N :: fence))
    with true by (rewrite <- app_assoc; symmetry; apply startswith_app).
  rewrite split_char_app.
  2:{ intro Hin. apply in_app_or in Hin as [Hin | Hin].
      - vm_compute in Hin. intuition discriminate.
      - apply Htag, Hin. }
  rewrite split_char_app by (apply join_one_line, Hws).
  rewrite split_char_line by (vm_compute; intuition discriminate).
  cbn [tl filter]. rewrite Hfence.
  replace (startswith fence fence) with true by reflexivity.
  cbn [negb join].
  rewrite strip_first_prefix_none by exact Hlabel.
  apply normalise_join, Hws.
Qed.

Lemma clean_unwraps_fence_witness :
  _clean_command
    (fence ++ lit "bash" ++ newline
     ++ join space [lit "ls"; lit "-la"] ++ newline ++ fence)
  = lit "ls -la".
Proof.
  apply (clean_unwraps_fence (lit "bash") [lit "ls"; lit "-la"]).
  - vm_compute. intuition discriminate.
  - repeat constructor; discriminate.
  - reflexivity.
  - intros p Hp. vm_compute in Hp.
    destruct Hp as [<- | [<- | [<- | [<- | []]]]]; reflexivity.
Defined.

(** X5. One leading label is removed: for each of the four labels and
    any non-empty single-spaced command, cleaning label + command
    returns the command, whatever the command itself opens with. *)
Theorem clean_drops_label (p : pystr) (ws : list pystr) :
  In p prefixes ->
  ws <> [] ->
  Forall word ws ->
  _clean_command (p ++ join space ws) = join space ws.
Proof.
  intros Hp Hne Hws.
  assert (Hj : join space ws <> []).
  { destruct ws as [|w ws]; [congruence|].
    destruct (join_head w ws Hws) as (d & j & -> & _). discriminate. }
  unfold _clean_command.
  assert (E : strip (p ++ join space ws) = p ++ join space ws).
  { apply strip_app; auto using rstrip_join.
    - cbn in Hp. destruct Hp as [<- | [<- | [<- | [<- | []]]]]; reflexivity.
    - cbn in Hp.
      destruct Hp as [<- | [<- | [<- | [<- | []]]]]; discriminate. }
  rewrite E.
  assert (U : unfence (p ++ join space ws) = p ++ join space ws).
  { unfold unfence.
    cbn in Hp. destruct Hp as [<- | [<- | [<- | [<- | []]]]]; reflexivity. }
  rewrite U.
  assert (P : strip_first_prefix prefixes (p ++ join space ws)
              = join space ws).
  { cbn in Hp. unfold prefixes.
    destruct Hp as [<- | [<- | [<- | [<- | []]]]].
    - cbn [strip_first_prefix]. rewrite startswith_app.
      apply drop_prefix_app.
    - cbn [strip_first_prefix].
      replace (startswith _ (of_ascii "bash: " ++ join space ws))
        with false by reflexivity.
      rewrite startswith_app. apply drop_prefix_app.
    - cbn [strip_first_prefix].
      replace (startswith [21629%N; 20196%N; 58%N; 32%N]
                 (of_ascii "shell: " ++ join space ws))
        with false by reflexivity.
      replace (startswith (of_ascii "bash: ")
                 (of_ascii "shell: " ++ join space ws))
        with false by reflexivity.
      rewrite startswith_app. apply drop_prefix_app.
    - cbn [strip_first_prefix].
      replace (startswith [21629%N; 20196%N; 58%N; 32%N]
                 (of_ascii "$ " ++ join space ws))
        with false by reflexivity.
      replace (startswith (of_ascii "bash: ")
                 (of_ascii "$ " ++ join space ws))
        with false by reflexivity.
      replace (startswith (of_ascii "shell: ")
                 (of_ascii "$ " ++ join space ws))
        with false by reflexivity.
      rewrite startswith_app. apply drop_prefix_app. }
  rewrite P. apply normalise_join, Hws.
Qed.

Lemma clean_drops_label_witness :
  _clean_command (lit "$ " ++ join space [lit "$"; lit "ls"]) = lit "$ ls".
Proof.
  apply (clean_drops_label (lit "$ ") [lit "$"; lit "ls"]).
  - vm_compute. auto.
  - discriminate.
  - repeat constructor; discriminate.
Defined.

(* ================================================================== *)
(** * The fallback matcher *)

Lemma fallback_nonempty (env : environment) (natural_language : pystr) :
  _simple_command_fallback env natural_language <> [].
Proof.
  unfold _simple_command_fallback.
  destruct (find _ command_map) as [[key cmd]|] eqn:E.
  - apply find_some in E as [Hin _].
    unfold command_map in Hin. cbn [In] in Hin.
    repeat (destruct Hin as [Hin | Hin];
            [injection Hin as _ <-; discriminate|]).
    destruct Hin.
  - repeat match goal with
           | |- (if ?b then _ else _) <> [] => destruct b
           end; discriminate.
Qed.

(** X6. The outer handler never ends without a command: the fallback
    matcher answers every request with a non-empty string, so for every
    exception that reaches the last [except Exception] the translator
    returns the fallback command and appends it to the history as the
    assistant turn. *)
Theorem outer_handler_always_has_command (env : environment)
    (natural_language : pystr) (e : exn) (w : world) :
  is_Exception e = true ->
  is_RequestException e = false ->
  let command := _simple_command_fallback env natural_language in
  let r := translate_error_handler env natural_language e w in
  command <> []
  /\ fst r = Ok (Some command)
  /\ history (snd r) = history w ++ [mkMessage Assistant command]
  /\ trace (snd r) = trace w ++ [EvLogError; EvFallback natural_language].
Proof.
  intros Hex Hreq command r. subst command r.
  pose proof (fallback_nonempty env natural_language) as H.
  split; [exact H|].
  unfold translate_error_handler. rewrite Hex.
  unfold is_RequestException in Hreq.
  unfold bind, emit, append_history. unfold modify.
  destruct (_simple_command_fallback env natural_language) as [|c s];
    [congruence|].
  destruct (exn_kind_of e); try discriminate; cbn;
    rewrite <- app_assoc; auto.
Qed.

Lemma outer_handler_always_has_command_witness :
  let r := translate_error_handler answering_env list_files
             (mkExn KValueError (lit "min() arg is an empty sequence"))
             fresh_session in
  lit "dir" <> []
  /\ fst r = Ok (Some (lit "dir"))
  /\ history (snd r)
     = history fresh_session ++ [mkMessage Assistant (lit "dir")]
  /\ trace (snd r) = [EvLogError; EvFallback list_files].
Proof.
  apply (outer_handler_always_has_command answering_env list_files
           (mkExn KValueError (lit "min() arg is an empty sequence"))
           fresh_session); reflexivity.
Defined.

(* ================================================================== *)
(** * The rate limiter as an invariant of the session *)

Section Hoare.

Lemma hoare_ret {A} (P : world -> Prop) (a : A) (Q : A -> world -> Prop)
    (E : world -> Prop) :
  (forall w, P w -> Q a w) -> hoare P (ret a) Q E.
Proof. intros H w Hw. cbn. auto. Qed.

Lemma hoare_raise {A} (P : world -> Prop) (e : exn)
    (Q : A -> world -> Prop) (E : world -> Prop) :
  (forall w, P w -> E w) -> hoare P (@raise A e) Q E.
Proof. intros H w Hw. cbn. auto. Qed.

Lemma hoare_bind {A B} (P : world -> Prop) (m : M A) (f : A -> M B)
    (Q : A -> world -> Prop) (Q' : B -> world -> Prop) (E : world -> Prop) :
  hoare P m Q E -> (forall a, hoare (Q a) (f a) Q' E) ->
  hoare P (bind m f) Q' E.
Proof.
  intros Hm Hf w Hw. unfold bind. specialize (Hm w Hw).
  destruct (m w) as [[a | e] w']; auto.
  apply Hf, Hm.
Qed.

Lemma hoare_try_catch {A} (P : world -> Prop) (m : M A) (h : exn -> M A)
    (Q : A -> world -> Prop) (E' E : world -> Prop) :
  hoare P m Q E' -> (forall e, hoare E' (h e) Q E) ->
  hoare P (try_catch m h) Q E.
Proof.
  intros Hm Hh w Hw. unfold try_catch. specialize (Hm w Hw).
  destruct (m w) as [[a | e] w']; auto.
  apply Hh, Hm.
Qed.

Lemma hoare_weaken {A} (P P' : world -> Prop) (m : M A)
    (Q Q' : A -> world -> Prop) (E E' : world -> Prop) :
  hoare P m Q E ->
  (forall w, P' w -> P w) ->
  (forall a w, Q a w -> Q' a w) ->
  (forall w, E w -> E' w) ->
  hoare P' m Q' E'.
Proof.
  intros Hm HP HQ HE w Hw. specialize (Hm w (HP w Hw)).
  destruct (m w) as [[a | e] w']; auto.
Qed.

(** A computation that frames a relation keeps whatever the relation
    keeps. *)
Lemma hoare_frames {A} (R : world -> world -> Prop) (P : world -> Prop)
    (m : M A) :
  (forall w w', R w w' -> P w -> P w') ->
  frames R m -> hoare P m (fun _ => P) P.
Proof.
  intros HR Hm w Hw. specialize (Hm w).
  destruct (m w) as [[a | e] w']; cbn in Hm; eauto.
Qed.

End Hoare.

Section Limits.

Variable env : environment.

Lemma count_antitone (a now now' : Z) (l : list Z) :
  now <= now' ->
  count_if (within a now') l <= count_if (within a now) l.
Proof.
  intro H. unfold count_if.
  induction l as [|t l IH]; cbn [filter]; [lia|].
  destruct (within a now' t) eqn:E1, (within a now t) eqn:E2;
    cbn [List.length]; try lia.
  unfold within in E1, E2.
  apply Z.ltb_lt in E1. apply Z.ltb_ge in E2. lia.
Qed.

Lemma count_record (a now : Z) (l : list Z) :
  0 < a ->
  count_if (within a now) (l ++ [now]) = count_if (within a now) l + 1.
Proof.
  intro H. unfold count_if. rewrite filter_app, length_app.
  cbn [filter]. unfold within at 2.
  replace (now - now <? a) with true by (symmetry; apply Z.ltb_lt; lia).
  cbn. lia.
Qed.

Lemma ages_refl (w : world) : ages w w.
Proof. unfold ages. repeat split; auto. intros; lia. Qed.

Lemma ages_trans (a b c : world) : ages a b -> ages b c -> ages a c.
Proof.
  unfold ages. intros (E1 & E2 & E3 & E4 & H1) (F1 & F2 & F3 & F4 & H2).
  repeat split; try congruence.
  intros x Hx. specialize (H1 x Hx). specialize (H2 x Hx). lia.
Qed.

Lemma ages_within_limits (w w' : world) :
  ages w w' -> within_limits w -> within_limits w'.
Proof.
  unfold ages, within_limits.
  intros (E1 & E2 & E3 & E4 & H) (I1 & I2 & I3 & I4).
  pose proof (H 60 ltac:(lia)). pose proof (H 3600 ltac:(lia)).
  pose proof (H 86400 ltac:(lia)).
  repeat split; try congruence; lia.
Qed.

Lemma ages_has_room (w w' : world) :
  ages w w' -> has_room w -> has_room w'.
Proof.
  unfold ages, has_room.
  intros (E1 & E2 & E3 & E4 & H) (I1 & I2 & I3 & I4).
  pose proof (H 60 ltac:(lia)). pose proof (H 3600 ltac:(lia)).
  pose proof (H 86400 ltac:(lia)).
  repeat split; try congruence; lia.
Qed.

Lemma has_room_within_limits (w : world) : has_room w -> within_limits w.
Proof. unfold has_room, within_limits. intuition lia. Qed.

Create HintDb ages.

Ltac ages_frame :=
  repeat first
    [ assumption
    | solve [ auto with ages ]
    | frame_step ages_refl ages_trans
    | solve [ unfold window_count; cbn; lia ]
    | solve [ unfold window_count; cbn; apply count_antitone; lia ] ].

Lemma check_ages : frames ages _check_rate_limit.
Proof.
  intro w. rewrite check_snd.
  destruct (rate_limit_enabled w); [|apply ages_refl].
  unfold ages. cbn. repeat split.
  intros a Ha. unfold window_count. cbn.
  rewrite count_if_pruned by exact Ha. lia.
Qed.

Lemma append_history_ages (m : message) : frames ages (append_history m).
Proof. unfold append_history. ages_frame. Qed.

Lemma trim_history_ages : frames ages trim_history.
Proof.
  intro w. unfold trim_history.
  destruct (_ <? _); [|apply ages_refl].
  destruct (history w); cbn; [apply ages_refl|].
  unfold ages, window_count. cbn. repeat split. intros; lia.
Qed.

Hint Resolve check_ages append_history_ages trim_history_ages : ages.

Lemma call_model_ages (nl : pystr) : frames ages (call_model env nl).
Proof. unfold call_model. ages_frame. Qed.

Lemma api_error_handler_ages (e : exn) :
  frames ages (api_error_handler env e).
Proof. unfold api_error_handler. ages_frame. Qed.

Lemma translate_error_handler_ages (nl : pystr) (e : exn) :
  frames ages (translate_error_handler env nl e).
Proof.
  unfold translate_error_handler.
  destruct (exn_kind_of e); ages_frame.
Qed.

Hint Resolve call_model_ages api_error_handler_ages
  translate_error_handler_ages : ages.

(** What [check()] establishes: room in every window when it allows the
    request, and nothing lost when it refuses or fails. *)
Lemma check_hoare :
  hoare within_limits _check_rate_limit
    (fun allowed w => if allowed then has_room w else within_limits w)
    within_limits.
Proof.
  intros w Hw. pose proof Hw as (En & H1 & H2 & H3).
  assert (Hp : within_limits (snd (_check_rate_limit w)))
    by (eapply ages_within_limits; [apply check_ages | exact Hw]).
  destruct (_check_rate_limit w) as [[[|] | e] w'] eqn:E; cbn in Hp; auto.
  unfold _check_rate_limit in E. rewrite En in E. cbn [negb] in E.
  rewrite !count_if_pruned in E by lia.
  fold (window_count 60 w) in E. fold (window_count 3600 w) in E.
  destruct (rpm w <=? window_count 60 w) eqn:C1.
  { destruct (slice_from _ _); discriminate. }
  destruct (rph w <=? window_count 3600 w) eqn:C2; [discriminate|].
  destruct (rpd w <=? _) eqn:C3; [discriminate|].
  injection E as <-.
  apply Z.leb_gt in C1, C2, C3.
  unfold has_room, window_count. cbn.
  rewrite !count_if_pruned by lia.
  repeat split; auto.
Qed.

(** Recording a request where there is room keeps the limits. *)
Lemma record_hoare :
  hoare has_room _record_request (fun _ => within_limits) within_limits.
Proof.
  intros w (En & H1 & H2 & H3). unfold _record_request, modify.
  unfold within_limits, window_count in *. cbn.
  rewrite !count_record by lia. repeat split; auto; lia.
Qed.

Lemma frames_within_limits {A} (m : M A) :
  frames ages m -> hoare within_limits m (fun _ => within_limits) within_limits.
Proof. apply hoare_frames. exact ages_within_limits. Qed.

Lemma frames_has_room {A} (m : M A) :
  frames ages m -> hoare has_room m (fun _ => has_room) has_room.
Proof. apply hoare_frames. exact ages_has_room. Qed.

Lemma translate_hoare (natural_language : pystr) :
  hoare within_limits (natural_language_to_shell env natural_language)
    (fun _ => within_limits) within_limits.
Proof.
  unfold natural_language_to_shell.
  destruct (negb (has_anthropic env)); [apply hoare_ret; auto|].
  eapply hoare_try_catch with (E' := within_limits).
  2:{ intro e. apply frames_within_limits, translate_error_handler_ages. }
  destruct (strip natural_language) as [|c nl]; [apply hoare_ret; auto|].
  eapply hoare_bind;
    [apply frames_within_limits, append_history_ages | intros ?; cbv beta].
  eapply hoare_bind;
    [apply frames_within_limits; ages_frame | intros key; cbv beta].
  destruct (credential_invalid key); [apply hoare_ret; auto|].
  eapply hoare_bind; [apply check_hoare | intros allowed1; cbv beta].
  eapply hoare_bind
    with (Q := fun (allowed : bool) (w : world) =>
                 if allowed then has_room w else within_limits w).
  { destruct allowed1; [apply hoare_ret; auto|].
    eapply hoare_bind;
      [apply frames_within_limits; ages_frame | intros ?; cbv beta].
    apply check_hoare. }
  intros [|]; cbn [negb]; [|apply hoare_ret; auto].
  eapply hoare_bind; [apply record_hoare | intros ?; cbv beta].
  eapply hoare_bind;
    [apply frames_within_limits; ages_frame | intros ?; cbv beta].
  apply frames_within_limits. ages_frame.
Qed.

Lemma advisor_hoare (command out err : pystr) (rc : Z) :
  hoare within_limits (_get_error_solution_from_llm env command out err rc)
    (fun _ => within_limits) within_limits.
Proof.
  unfold _get_error_solution_from_llm.
  eapply hoare_bind;
    [apply frames_within_limits; ages_frame | intros ?; cbv beta].
  eapply hoare_bind; [apply check_hoare | intros allowed; cbv beta].
  destruct allowed; cbn [negb]; [|apply hoare_ret; auto].
  eapply hoare_try_catch with (E' := within_limits).
  2:{ intro e. apply frames_within_limits. ages_frame. }
  eapply hoare_bind with (Q := fun _ : pystr => has_room);
    [ eapply hoare_weaken;
      [ apply frames_has_room; ages_frame | auto | auto
      | apply has_room_within_limits ]
    | intros name; cbv beta ].
  destruct (lookup_model name);
    [|apply hoare_ret; apply has_room_within_limits].
  eapply hoare_bind with (Q := fun _ : option pystr => has_room);
    [ eapply hoare_weaken;
      [ apply frames_has_room; ages_frame | auto | auto
      | apply has_room_within_limits ]
    | intros key; cbv beta ].
  destruct (key_missing key);
    [apply hoare_ret; apply has_room_within_limits|].
  eapply hoare_bind with (Q := fun _ : unit => has_room);
    [ eapply hoare_weaken;
      [ apply frames_has_room; ages_frame | auto | auto
      | apply has_room_within_limits ]
    | intros ?; cbv beta ].
  destruct (advisor_post env command).
  - apply hoare_raise. apply has_room_within_limits.
  - apply record_hoare.
Qed.

End Limits.

(** X7. While the limiter is on, translating never pushes the limiter
    past its limits: if the requests recorded in the trailing minute,
    hour and day are within the configured limits before a call of the
    translator, they are within them after it, whatever the call did. *)
Theorem translate_respects_limits (env : environment)
    (natural_language : pystr) (w : world) :
  within_limits w ->
  within_limits (snd (natural_language_to_shell env natural_language w)).
Proof.
  intro H. pose proof (translate_hoare env natural_language w H) as T.
  destruct (natural_language_to_shell env natural_language w)
    as [[a | e] w']; exact T.
Qed.

Lemma translate_respects_limits_witness :
  within_limits
    (snd (natural_language_to_shell answering_env list_files
            (set_clock 30 (record_all [10; 20]
                             (sample_session sample_key 100 3 60 100))))).
Proof.
  apply (translate_respects_limits answering_env list_files).
  unfold within_limits. vm_compute. repeat split; discriminate.
Defined.

(** X8. The same holds for the advisor, which records its own request
    only after a check that passed: a call of the advisor keeps the
    recorded requests within the limits. *)
Theorem advisor_respects_limits (env : environment)
    (command out err : pystr) (returncode : Z) (w : world) :
  within_limits w ->
  within_limits
    (snd (_get_error_solution_from_llm env command out err returncode w)).
Proof.
  intro H.
  pose proof (advisor_hoare env command out err returncode w H) as T.
  destruct (_get_error_solution_from_llm env command out err returncode w)
    as [[a | e] w']; exact T.
Qed.

Lemma advisor_respects_limits_witness :
  within_limits
    (snd (_get_error_solution_from_llm answering_env (lit "ls /nowhere") []
            (lit "No such file") 2
            (set_clock 30 (record_all [10; 20]
                             (sample_session sample_key 100 3 60 100))))).
Proof.
  apply (advisor_respects_limits answering_env).
  unfold within_limits. vm_compute. repeat split; discriminate.
Defined.

(* ================================================================== *)
(** * Edge cases of the limiter *)

Lemma slice_from_none {A} (l : list A) : slice_from (- 0) l = l.
Proof.
  unfold slice_from. cbn [Z.opp Z.ltb Z.compare].
  replace (Z.min 0 (Z.of_nat (List.length l))) with 0 by lia.
  reflexivity.
Qed.

(** With a per-minute limit of zero or less the first test of
    [check()] always fires, and [min()] fails when nothing is left to
    take the minimum of. *)
Lemma check_nonpositive (w : world) :
  rate_limit_enabled w = true -> rpm w <= 0 ->
  match filter (within 86400 (clock w)) (requests w) with
  | [] => exists e, fst (_check_rate_limit w) = Exn e
                    /\ exn_kind_of e = KValueError
  | _ :: _ => fst (_check_rate_limit w) = Ok false
  end.
Proof.
  intros En Hr. unfold _check_rate_limit. rewrite En. cbn [negb].
  set (kept := filter (within 86400 (clock w)) (requests w)).
  pose proof (count_if_le_length (within 60 (clock w)) kept) as [H0 Hl].
  replace (rpm w <=? count_if (within 60 (clock w)) kept) with true
    by (symmetry; apply Z.leb_le; lia).
  destruct kept as [|t k] eqn:Ek.
  - cbn. eexists. split; reflexivity.
  - rewrite <- Ek in *.
    destruct (Z.eq_dec (count_if (within 60 (clock w)) kept) 0) as [Z0 | Z0].
    + rewrite Z0, slice_from_none, Ek. reflexivity.
    + pose proof (slice_from_last_nonempty
                    (count_if (within 60 (clock w)) kept) kept
                    ltac:(lia)) as Hs.
      destruct (slice_from _ kept); [congruence | reflexivity].
Qed.

(** X9. A per-minute limit of zero or less never admits a request, and
    it does not always refuse cleanly: with the limiter on, [check()]
    returns False when some request was recorded in the last 24 hours
    and raises ValueError when none was. *)
Theorem nonpositive_limit_never_allows (w : world) :
  rate_limit_enabled w = true ->
  rpm w <= 0 ->
  fst (_check_rate_limit w) <> Ok true
  /\ (filter (within 86400 (clock w)) (requests w) <> [] ->
      fst (_check_rate_limit w) = Ok false)
  /\ (filter (within 86400 (clock w)) (requests w) = [] ->
      exists e, fst (_check_rate_limit w) = Exn e
                /\ exn_kind_of e = KValueError).
Proof.
  intros En Hr. pose proof (check_nonpositive w En Hr) as H.
  destruct (filter (within 86400 (clock w)) (requests w)) as [|t k].
  - destruct H as (e & E & K). rewrite E.
    split; [discriminate|]. split; [congruence|]. intros _. eauto.
  - rewrite H. split; [discriminate|]. split; [auto | discriminate].
Qed.

Lemma nonpositive_limit_never_allows_witness :
  let w := sample_session sample_key 100 0 60 100 in
  fst (_check_rate_limit w) <> Ok true
  /\ exists e, fst (_check_rate_limit w) = Exn e
               /\ exn_kind_of e = KValueError.
Proof.
  intro w.
  destruct (nonpositive_limit_never_allows w eq_refl ltac:(cbn; lia))
    as (H1 & _ & H3).
  split; [exact H1 | apply H3; reflexivity].
Defined.

(** X10. Pruning is invisible: a check leaves a list a second check
    would leave as it is, and a check made at a later instant gives the
    same verdict whether or not an earlier check has pruned the list. *)
Theorem pruning_is_invisible (w : world) (later : Z) :
  clock w <= later ->
  snd (_check_rate_limit (snd (_check_rate_limit w)))
  = snd (_check_rate_limit w)
  /\ fst (_check_rate_limit (set_clock later (snd (_check_rate_limit w))))
     = fst (_check_rate_limit (set_clock later w)).
Proof.
  intro Hle. split; [|apply check_after_prune, Hle].
  rewrite !check_snd.
  destruct (rate_limit_enabled w) eqn:En; cbn; rewrite En; [|reflexivity].
  rewrite filter_filter_narrow by lia. reflexivity.
Qed.

Lemma pruning_is_invisible_witness :
  let w := set_clock 90000 (record_all [10; 89990]
                              (sample_session sample_key 100 1 60 100)) in
  requests (snd (_check_rate_limit w)) = [89990]
  /\ fst (_check_rate_limit (set_clock 90060 (snd (_check_rate_limit w))))
     = fst (_check_rate_limit (set_clock 90060 w)).
Proof.
  intro w. split; [reflexivity|].
  apply (pruning_is_invisible w 90060). cbn. lia.
Defined.

(* ================================================================== *)
(** * The translator on its way to the model, and back *)

Lemma find_app_miss {A} (f : A -> bool) (l : list A) (x : A) :
  f x = false -> find f (l ++ [x]) = find f l.
Proof.
  intro H. induction l as [|y l IH]; cbn; [now rewrite H|].
  destruct (f y); auto.
Qed.

(** After the user turn has been appended, the messages sent upstream
    are the system prompt and that turn, whatever else the history
    holds. *)
Lemma outbound_latest (hist : list message) (content x : pystr) :
  outbound_messages (hist ++ [mkMessage User content]) x
  = [mkMessage System (system_content hist); mkMessage User content].
Proof.
  unfold outbound_messages, system_content.
  rewrite find_app_miss by reflexivity.
  rewrite filter_app. cbn [filter msg_role role_eqb].
  rewrite rev_app_distr. cbn [rev app msg_content].
  destruct (find _ hist); reflexivity.
Qed.

Lemma extends_refl (w : world) : extends w w.
Proof. exists []. now rewrite app_nil_r. Qed.

Lemma extends_trans (a b c : world) :
  extends a b -> extends b c -> extends a c.
Proof.
  intros [t1 E1] [t2 E2]. exists (t1 ++ t2).
  now rewrite E2, E1, app_assoc.
Qed.

Ltac extends_frame :=
  repeat first
    [ assumption
    | solve [ auto with extends ]
    | frame_step extends_refl extends_trans
    | solve [ apply extends_refl ]
    | solve [ eexists; cbn; reflexivity ]
    | solve [ exists []; cbn; now rewrite app_nil_r ] ].

Create HintDb extends.

Section Admission.

Variable env : environment.

Lemma check_extends : frames extends _check_rate_limit.
Proof.
  intro w. rewrite check_snd.
  destruct (rate_limit_enabled w); [|apply extends_refl].
  exists []. cbn. now rewrite app_nil_r.
Qed.

Lemma record_extends : frames extends _record_request.
Proof. unfold _record_request. extends_frame. Qed.

Lemma append_history_extends (m : message) :
  frames extends (append_history m).
Proof. unfold append_history. extends_frame. Qed.

Lemma trim_history_extends : frames extends trim_history.
Proof.
  intro w. unfold trim_history.
  destruct (_ <? _); [|apply extends_refl].
  destruct (history w); [apply extends_refl|].
  exists []. cbn. now rewrite app_nil_r.
Qed.

Hint Resolve check_extends record_extends append_history_extends
  trim_history_extends : extends.

Lemma api_error_handler_extends (e : exn) :
  frames extends (api_error_handler env e).
Proof. unfold api_error_handler. extends_frame. Qed.

Local Opaque enhanced_input _check_rate_limit.

(** The fields of the world in which the remote call starts. *)
Lemma admitted_fields (natural_language : pystr) (w : world) :
  allowed w ->
  history (admitted env natural_language w)
  = history w ++ [user_turn env natural_language]
  /\ requests (admitted env natural_language w)
     = requests (snd (_check_rate_limit w)) ++ [clock w]
  /\ clock (admitted env natural_language w) = clock w + 1
  /\ trace (admitted env natural_language w) = trace w ++ [EvSleep 1]
  /\ model (admitted env natural_language w) = model w
  /\ max_history_size (admitted env natural_language w)
     = max_history_size w.
Proof.
  intro Ha. unfold allowed in Ha. unfold admitted.
  unfold bind, append_history, modify. cbn.
  rewrite check_set_history, Ha.
  unfold _record_request, sleep, emit, bind, modify. cbn.
  rewrite !check_snd.
  destruct (rate_limit_enabled w); cbn; repeat split; reflexivity.
Qed.

Local Opaque call_model.

(** An admitted request reaches the inner [try] in that world, and what
    the inner [try] makes of it is what the function returns: the outer
    handlers see nothing they catch. *)
Lemma translate_admitted (natural_language : pystr) (w : world) :
  has_anthropic env = true ->
  strip natural_language <> [] ->
  credential_invalid (api_key w) = false ->
  allowed w ->
  natural_language_to_shell env natural_language w
  = try_catch (call_model env (strip natural_language))
      (api_error_handler env) (admitted env natural_language w).
Proof.
  intros Hanth Hne Hkey Ha. unfold allowed in Ha.
  unfold natural_language_to_shell, admitted, user_turn.
  rewrite Hanth. cbn [negb].
  destruct (strip natural_language) as [|c s] eqn:Es; [congruence|].
  unfold try_catch, bind, append_history, get, ret. unfold modify.
  cbn. rewrite Hkey.
  rewrite check_set_history, Ha.
  unfold _record_request, sleep, emit, bind, modify. cbn.
  match goal with
  | |- context [call_model env (c :: s) ?W] =>
      destruct (call_model env (c :: s) W) as [[a | e] w']
  end; [reflexivity|].
  unfold api_error_handler.
  destruct (is_Exception e) eqn:Ex.
  - unfold bind.
    destruct (contains (lit "429") (exn_str e)
              || contains (lit "rate limit") (py_lower env (exn_str e)));
      cbn; reflexivity.
  - unfold raise, translate_error_handler.
    unfold is_Exception in Ex.
    destruct (exn_kind_of e) eqn:K; try discriminate;
      unfold is_Exception; rewrite K; reflexivity.
Qed.

Local Transparent call_model.


(** What the inner [try] does with a reply that has content. *)
Lemma call_model_content (natural_language reply : pystr) (w : world) :
  has_openai env = true ->
  chat_reply env (request_model_id (model w))
    (outbound_messages (history w) natural_language)
  = ApiContent (Some reply) ->
  try_catch (call_model env natural_language) (api_error_handler env) w
  = try_catch
      (append_history (mkMessage Assistant (_clean_command reply)) ;;
       trim_history ;;
       ret (Some (_clean_command reply)))
      (api_error_handler env)
      (set_trace
         (trace w
          ++ [EvApiCall (request_model_id (model w))
                (outbound_messages (history w) natural_language)
                (pystr_eqb (model w) qwen)]) w).
Proof.
  intros Hopen Hreply. unfold call_model. rewrite Hopen. cbn [negb].
  unfold try_catch, bind at 1, get at 1. cbn beta iota.
  unfold bind at 1, get at 1. cbn beta iota.
  unfold bind at 1, emit at 1, modify at 1. cbn beta iota.
  rewrite Hreply. reflexivity.
Qed.




End Admission.

Lemma valid_sample_key : credential_invalid sample_key = false.
Proof. reflexivity. Qed.





(* ================================================================== *)
(** * What the executor leaves behind *)

Section Emits.

Variable ok : event -> bool.

Lemma emits_refl (w : world) : emits ok w w.
Proof. exists []. split; [now rewrite app_nil_r | reflexivity]. Qed.

Lemma emits_trans (a b c : world) :
  emits ok a b -> emits ok b c -> emits ok a c.
Proof.
  intros (t1 & E1 & F1) (t2 & E2 & F2). exists (t1 ++ t2). split.
  - now rewrite E2, E1, app_assoc.
  - rewrite forallb_app, F1, F2. reflexivity.
Qed.

Lemma frames_emit (ev : event) : ok ev = true -> frames (emits ok) (emit ev).
Proof.
  intros H w. exists [ev]. split; [reflexivity|]. cbn. now rewrite H.
Qed.

Lemma frames_quiet_modify (f : world -> world) :
  (forall w, trace (f w) = trace w) -> frames (emits ok) (modify f).
Proof.
  intros H w. exists []. cbn. rewrite H, app_nil_r. auto.
Qed.

Lemma check_emits : frames (emits ok) _check_rate_limit.
Proof.
  intro w. rewrite check_snd.
  destruct (rate_limit_enabled w); [|apply emits_refl].
  exists []. cbn. rewrite app_nil_r. auto.
Qed.

Lemma select_loop_emits (timeout start : Z) (rounds : list select_round)
    (readable : list stream) (out err : list pystr) :
  frames (emits ok) (select_loop timeout start rounds readable out err).
Proof.
  revert readable out err.
  induction rounds as [|r rounds IH]; intros readable out err w;
    cbn [select_loop]; destruct readable as [|s readable'];
    try apply emits_refl;
    destruct (timeout <=? clock w - start); try apply emits_refl.
  - exists []. cbn. rewrite app_nil_r. auto.
  - destruct (round_interrupted r).
    + exists []. cbn. rewrite app_nil_r. auto.
    + destruct (read_ready _ _ _) as [[readable2 out2] err2].
      eapply emits_trans; [|apply IH].
      exists []. cbn. rewrite app_nil_r. auto.
Qed.

End Emits.

Create HintDb emits.

#[local] Hint Resolve check_emits select_loop_emits : emits.

Ltac emits_frame :=
  repeat first
    [ assumption
    | solve [ auto with emits ]
    | lazymatch goal with
      | |- frames (emits _) (emit _) => apply frames_emit; reflexivity
      | |- frames (emits _) (modify _) =>
          apply frames_quiet_modify; intro; reflexivity
      | |- frames (emits ?ok) _ =>
          frame_step (emits_refl ok) (emits_trans ok)
      | |- forall _, _ => intro
      end ].

Section Leftovers.

Variable env : environment.

Lemma advisor_emits (command out err : pystr) (rc : Z) :
  frames (emits not_popen)
    (_get_error_solution_from_llm env command out err rc).
Proof. unfold _get_error_solution_from_llm, _record_request. emits_frame. Qed.

Lemma terminate_child_emits (script : process_script) :
  frames (emits not_popen) (terminate_child env script).
Proof. unfold terminate_child, kill. emits_frame. Qed.

Lemma finish_child_emits (command : pystr) (out err : list pystr) :
  frames (emits not_popen) (finish_child env command out err).
Proof.
  pose proof advisor_emits.
  unfold finish_child, _log_command_output. emits_frame.
Qed.

Lemma read_directly_emits (ok : event -> bool) (script : process_script) :
  frames (emits ok) (read_directly script).
Proof. unfold read_directly. emits_frame. Qed.

Lemma outer_handler_emits (command : pystr) (e : exn) :
  frames (emits not_popen)
    (if is_KeyboardInterrupt e then ret (RetInt (-1))
     else if is_Exception e then
       _get_error_solution_from_llm env command [] (exn_str e) (-1) ;;
       ret (RetInt (-1))
     else raise e).
Proof. pose proof advisor_emits. emits_frame. Qed.

Lemma run_sudo_emits (command : pystr) :
  frames (emits not_popen) (run_sudo env command).
Proof.
  pose proof advisor_emits.
  unfold run_sudo, _log_command_output. emits_frame.
Qed.

End Leftovers.

(** ** Running the head of a computation *)

Lemma try_catch_bind {A B} (m : M A) (f : A -> M B) (h : exn -> M B)
    (w w1 : world) (a : A) :
  m w = (Ok a, w1) -> try_catch (bind m f) h w = try_catch (f a) h w1.
Proof. intro E. unfold try_catch, bind. now rewrite E. Qed.

Lemma try_catch_assoc {A B C} (m : M A) (f : A -> M B) (g : B -> M C)
    (h : exn -> M C) (w : world) :
  try_catch (bind (bind m f) g) h w
  = try_catch (bind m (fun x => bind (f x) g)) h w.
Proof. unfold try_catch, bind. destruct (m w) as [[a | e] w']; reflexivity. Qed.

Lemma modify_run (f : world -> world) (w : world) :
  modify f w = (Ok tt, f w).
Proof. reflexivity. Qed.

Lemma get_run {A} (f : world -> A) (w : world) : get f w = (Ok (f w), w).
Proof. reflexivity. Qed.

Lemma ret_run {A} (a : A) (w : world) : ret a w = (Ok a, w).
Proof. reflexivity. Qed.

Lemma popen_run (script : process_script) (command : pystr) (w : world) :
  ps_popen script = None ->
  popen script command w
  = (Ok tt,
     set_child_running true
       (set_abandoned
          (if child_running w then S (abandoned w) else abandoned w)
          (set_trace (trace w ++ [EvPopen command]) w))).
Proof.
  intro H. unfold popen, bind, emit. unfold modify. now rewrite H.
Qed.

Section Logbook.

Variable env : environment.

Lemma untouched_refl (w : world) : untouched w w.
Proof. split; reflexivity. Qed.

Lemma untouched_trans (a b c : world) :
  untouched a b -> untouched b c -> untouched a c.
Proof. unfold untouched. intros [] []. split; congruence. Qed.

Lemma check_untouched : frames untouched _check_rate_limit.
Proof.
  intro w. rewrite check_snd.
  destruct (rate_limit_enabled w); split; reflexivity.
Qed.

Lemma select_loop_untouched (timeout start : Z)
    (rounds : list select_round) (readable : list stream)
    (out err : list pystr) :
  frames untouched (select_loop timeout start rounds readable out err).
Proof.
  revert readable out err.
  induction rounds as [|r rounds IH]; intros readable out err w;
    cbn [select_loop]; destruct readable as [|s readable'];
    try apply untouched_refl;
    destruct (timeout <=? clock w - start); try apply untouched_refl.
  - split; reflexivity.
  - destruct (round_interrupted r); [split; reflexivity|].
    destruct (read_ready _ _ _) as [[readable2 out2] err2].
    eapply untouched_trans; [|apply IH]. split; reflexivity.
Qed.

Ltac untouched_frame :=
  repeat first
    [ assumption
    | apply check_untouched
    | apply select_loop_untouched
    | frame_step untouched_refl untouched_trans ].

Lemma advisor_untouched (command out err : pystr) (rc : Z) :
  frames untouched (_get_error_solution_from_llm env command out err rc).
Proof.
  unfold _get_error_solution_from_llm, _record_request. untouched_frame.
Qed.

Lemma run_sudo_untouched (command : pystr) :
  frames untouched (run_sudo env command).
Proof.
  unfold run_sudo, _log_command_output, _get_error_solution_from_llm,
    _record_request.
  untouched_frame.
Qed.

Lemma run_child_untouched (command : pystr) :
  frames untouched (run_child env command).
Proof.
  unfold run_child, read_output, popen, read_directly, terminate_child,
    kill, finish_child, _log_command_output, _get_error_solution_from_llm,
    _record_request.
  untouched_frame.
Qed.

(** X15. Every call of the executor enters its command in the command
    history, once and at the end of the list, whatever happens to the
    command afterwards (a failed start, a deadline, an interrupt, an
    error), and no call changes the conversation history. *)
Theorem command_is_always_recorded (command : pystr) (w : world) :
  let r := execute_shell_command env command w in
  command_history (snd r) = command_history w ++ [command]
  /\ history (snd r) = history w.
Proof.
  cbv zeta. unfold execute_shell_command.
  rewrite (try_catch_bind _ _ _ _ _ _ (modify_run _ w)).
  match goal with
  | |- context [try_catch ?m ?h ?w0] =>
      assert (F : frames untouched (try_catch m h))
  end.
  { pose proof run_sudo_untouched. pose proof run_child_untouched.
    unfold _get_error_solution_from_llm, _record_request.
    untouched_frame; auto. }
  match goal with
  | |- context [try_catch ?m ?h ?w0] => destruct (F w0) as [E1 E2]
  end.
  rewrite E1, E2. split; reflexivity.
Qed.

End Logbook.

(* ================================================================== *)
(** * How often a command is started *)

Section Spawning.

Variable env : environment.

#[local] Hint Resolve check_emits select_loop_emits read_directly_emits
  advisor_emits terminate_child_emits finish_child_emits run_sudo_emits
  outer_handler_emits : emits.

(** The executor once the child processes are started: the rest of
    [read_output] and of [run_child], under the outer handlers. *)
Lemma execute_after_spawn (command : pystr) (w : world) :
  is_sudo_command command && negb (os_nt env) = false ->
  ps_popen (spawn env command) = None ->
  let w0 := set_command_history (command_history w ++ [command]) w in
  exists w2,
    trace w2
    = trace w ++ (if os_nt env then [EvPopen command]
                  else [EvPopen command; EvPopen command])
    /\ abandoned w2
       = ((if child_running w then 1 else 0)
          + (if os_nt env then 0 else 1) + abandoned w)%nat
    /\ child_running w2 = true
    /\ command_history w2 = command_history w ++ [command]
    /\ exists (A : Type) (m : M A) (k : A -> M exec_return),
    frames (emits not_popen) (bind m k)
    /\ execute_shell_command env command w
       = try_catch (bind m k)
           (fun e =>
              if is_KeyboardInterrupt e then ret (RetInt (-1))
              else if is_Exception e then
                _get_error_solution_from_llm env command [] (exn_str e)
                  (-1) ;;
                ret (RetInt (-1))
              else raise e) w2.
Proof.
  intros Hbranch Hpopen.
  unfold execute_shell_command.
  rewrite (try_catch_bind _ _ _ _ _ _ (modify_run _ w)).
  rewrite Hbranch.
  set (w0 := set_command_history (command_history w ++ [command]) w).
  unfold run_child.
  rewrite (try_catch_bind _ _ _ _ _ _ (get_run configured_timeout w0)).
  unfold read_output.
  rewrite try_catch_assoc.
  rewrite (try_catch_bind _ _ _ _ _ _
             (popen_run (spawn env command) command w0 Hpopen)).
  match goal with
  | |- context [try_catch _ _ ?x] => set (w1 := x)
  end.
  rewrite try_catch_assoc.
  destruct (os_nt env).
  - exists w1. subst w1 w0. cbn.
    split; [reflexivity|]. split; [destruct (child_running w); lia|].
    split; [reflexivity|]. split; [reflexivity|].
    eexists _, _, _. split;
      [|rewrite (try_catch_bind _ _ _ _ _ _ (ret_run tt _)); reflexivity].
    emits_frame.
  - rewrite (try_catch_bind _ _ _ _ _ _
               (popen_run (spawn env command) command w1 Hpopen)).
    eexists. split; [|split; [|split; [|split]]];
      [| | | |eexists _, _, _; split; [|reflexivity]; emits_frame].
    + subst w1 w0. cbn. now rewrite <- app_assoc.
    + subst w1 w0. cbn. destruct (child_running w); lia.
    + reflexivity.
    + reflexivity.
Qed.

(** X16. Outside Windows every command that does not take the sudo
    branch is started twice: the first [Popen] is followed by a second
    one for the same command line, and only the second child is read,
    waited for or terminated. On Windows it is started once, and the
    sudo branch starts no child through [Popen] at all. Nothing that
    follows starts another one. *)
Theorem command_is_started_twice (command : pystr) (w : world) :
  ps_popen (spawn env command) = None ->
  exists tail,
    forallb not_popen tail = true
    /\ trace (snd (execute_shell_command env command w))
       = trace w
         ++ (if is_sudo_command command && negb (os_nt env) then []
             else if os_nt env then [EvPopen command]
                  else [EvPopen command; EvPopen command])
         ++ tail.
Proof.
  intro Hpopen.
  destruct (is_sudo_command command && negb (os_nt env)) eqn:Hbranch.
  - assert (F : frames (emits not_popen)
                  (execute_shell_command env command)).
    { unfold execute_shell_command. rewrite Hbranch. emits_frame. }
    destruct (F w) as (tail & E & Hok). exists tail. auto.
  - destruct (execute_after_spawn command w Hbranch Hpopen)
      as (w2 & Ht & _ & _ & _ & A & m & k & F & E).
    rewrite E.
    match goal with
    | |- context [try_catch (bind m k) ?h w2] =>
        assert (G : frames (emits not_popen) (try_catch (bind m k) h))
          by emits_frame;
        destruct (G w2) as (tail & Et & Hok)
    end.
    exists tail. split; [exact Hok|]. rewrite Et, Ht.
    destruct (os_nt env); cbn; rewrite <- !app_assoc; reflexivity.
Qed.

End Spawning.

Lemma command_is_started_twice_witness :
  exists tail,
    forallb not_popen tail = true
    /\ trace (snd (execute_shell_command answering_env (lit "mkdir x")
                     fresh_session))
       = [EvPopen (lit "mkdir x"); EvPopen (lit "mkdir x")] ++ tail.
Proof.
  apply (command_is_started_twice answering_env (lit "mkdir x")
           fresh_session).
  reflexivity.
Defined.

(* ================================================================== *)
(** * A successful command asks for no advice *)

Section CleanExit.

Variable env : environment.
Variable w : world.
Variable command : pystr.

#[local] Hint Resolve check_emits select_loop_emits read_directly_emits
  : emits.

Lemma quiet_frames {A} (m : M A) :
  frames (emits not_advice) m ->
  hoare (advice_free w) m (fun _ => advice_free w) (fun _ => True).
Proof.
  intros F w0 H0. specialize (F w0).
  destruct (m w0) as [[a | e] w']; [|exact I].
  exact (emits_trans not_advice w w0 w' H0 F).
Qed.

Lemma hoare_any {A} (P : world -> Prop) (m : M A) :
  hoare P m (fun _ _ => True) (fun _ => True).
Proof. intros w0 _. destruct (m w0) as [[a | e] w']; exact I. Qed.

Ltac quiet_step :=
  eapply hoare_bind;
  [ apply quiet_frames; emits_frame | intros ?; cbv beta ].

(** From the log entry to the return, for a command that ended with
    [rc]. *)
Lemma report_clean_exit (out err : pystr) (rc : Z) :
  hoare (advice_free w)
    (_log_command_output command out err rc ;;
     (if rc =? 0 then ret tt
      else _get_error_solution_from_llm env command out err rc) ;;
     ret (RetTuple out err rc))
    (clean_exit w command) (fun _ => True).
Proof.
  destruct (Z.eqb_spec rc 0) as [-> | Hne].
  - eapply hoare_bind
      with (Q := fun _ : unit => logged_last w command out err 0).
    + intros w0 (evs & E & Hok). cbn. exists evs.
      rewrite E, <- app_assoc. auto.
    + intros _. eapply hoare_bind
        with (Q := fun _ : unit => logged_last w command out err 0).
      * apply hoare_ret. auto.
      * intros _. apply hoare_ret. cbn. auto.
  - eapply hoare_bind; [apply hoare_any | intros ?; cbv beta].
    eapply hoare_bind; [apply hoare_any | intros ?; cbv beta].
    apply hoare_ret. cbn. intros; contradiction.
Qed.

Lemma run_sudo_clean_exit :
  hoare (advice_free w) (run_sudo env command) (clean_exit w command) (fun _ => True).
Proof.
  unfold run_sudo.
  eapply hoare_try_catch with (E' := fun _ => True).
  - quiet_step.
    destruct (os_system env command) as [status | e];
      [|apply hoare_raise; auto].
    apply report_clean_exit.
  - intro e. destruct (is_Exception e).
    + apply hoare_ret. cbn. intros; discriminate.
    + apply hoare_raise. auto.
Qed.

Lemma read_output_quiet (timeout : Z) :
  frames (emits not_advice) (read_output env command timeout).
Proof. unfold read_output, popen. emits_frame. Qed.

Lemma run_child_clean_exit :
  hoare (advice_free w) (run_child env command) (clean_exit w command)
    (fun _ => True).
Proof.
  unfold run_child.
  quiet_step.
  eapply hoare_bind;
    [apply quiet_frames, read_output_quiet | intros [[out err] start]].
  quiet_step.
  match goal with |- context [if ?b then _ else _] => destruct b end.
  - eapply hoare_bind; [apply hoare_any | intros ?; cbv beta].
    apply hoare_ret. cbn. auto.
  - unfold finish_child.
    quiet_step. quiet_step.
    destruct (ps_wait (spawn env command)) as [rc | e];
      [|apply hoare_raise; auto].
    quiet_step.
    apply report_clean_exit.
Qed.

Lemma execute_clean_exit :
  hoare (fun w0 => w0 = w) (execute_shell_command env command)
    (clean_exit w command) (fun _ => True).
Proof.
  unfold execute_shell_command.
  eapply hoare_try_catch with (E' := fun _ => True).
  - eapply hoare_bind with (Q := fun _ : unit => advice_free w).
    + intros w0 ->. cbn. exists []. cbn. rewrite app_nil_r. auto.
    + intros _. destruct (is_sudo_command command && negb (os_nt env)).
      * apply run_sudo_clean_exit.
      * apply run_child_clean_exit.
  - intro e. destruct (is_KeyboardInterrupt e).
    + apply hoare_ret. cbn. auto.
    + destruct (is_Exception e).
      * eapply hoare_bind; [apply hoare_any | intros ?; cbv beta].
        apply hoare_ret. cbn. auto.
      * apply hoare_raise. auto.
Qed.

End CleanExit.

(** X17. Success is silent: whenever the executor returns a tuple whose
    exit code is 0, on the sudo branch or not, the advisor was never
    consulted during the call, and the last thing the call did was to
    log the command with exactly the output and exit code it
    returns. *)
Theorem zero_exit_asks_no_advice (env : environment) (command : pystr)
    (w : world) (out err : pystr) :
  fst (execute_shell_command env command w) = Ok (RetTuple out err 0) ->
  exists evs,
    trace (snd (execute_shell_command env command w))
    = trace w ++ evs ++ [EvLogOutput command out err 0]
    /\ forallb not_advice evs = true.
Proof.
  intro H. pose proof (execute_clean_exit env w command w eq_refl) as T.
  destruct (execute_shell_command env command w) as [[r | e] w'];
    cbn in H; [|discriminate].
  injection H as ->. cbn in T. exact (T eq_refl).
Qed.

Lemma zero_exit_asks_no_advice_witness :
  exists evs,
    trace (snd (execute_shell_command answering_env (lit "ls")
                  fresh_session))
    = evs ++ [EvLogOutput (lit "ls") [] [] 0]
    /\ forallb not_advice evs = true.
Proof.
  apply (zero_exit_asks_no_advice answering_env (lit "ls") fresh_session).
  reflexivity.
Defined.

(* ================================================================== *)
(** * What the executor hands back *)

Lemma concat_filter_nonempty (l : list pystr) :
  List.concat (filter nonempty l) = List.concat l.
Proof.
  induction l as [|x l IH]; [reflexivity|].
  destruct x as [|c x]; cbn; [exact IH | now rewrite IH].
Qed.

Lemma concat_with_rest (l : list pystr) (rest : pystr) :
  List.concat (with_rest l rest) = List.concat l ++ rest.
Proof.
  unfold with_rest. destruct rest as [|c rest]; cbn [nonempty].
  - now rewrite app_nil_r.
  - rewrite concat_app. cbn. now rewrite app_nil_r.
Qed.

Section Returned.

Variable env : environment.

(** The advisor announces itself first, with what it was given. *)
Lemma advisor_trace (command out err : pystr) (rc : Z) (w : world) :
  exists tail,
    trace (snd (_get_error_solution_from_llm env command out err rc w))
    = trace w ++ EvAdvisor command out err rc :: tail.
Proof.
  unfold _get_error_solution_from_llm.
  unfold bind at 1, emit at 1, modify at 1.
  match goal with
  | |- context [snd (?k ?w1)] =>
      assert (F : frames (emits (fun _ => true)) k)
  end.
  { pose proof (check_emits (fun _ => true)).
    unfold _record_request. emits_frame. }
  match goal with
  | |- context [snd (?k ?w1)] => destruct (F w1) as (tail & E & _)
  end.
  exists tail. rewrite E. cbn. now rewrite <- app_assoc.
Qed.


End Returned.


(** X19. On the sudo branch the exit code is the wait status divided by
    256, so a status below 256, which is what [os.system] reports for a
    command ended by a signal, reads as exit code 0: the executor
    returns ('', '', 0), logs that, and asks for no advice. *)
Theorem sudo_signal_reads_as_success (env : environment)
    (command : pystr) (w : world) (status : Z) :
  is_sudo_command command = true ->
  os_nt env = false ->
  os_system env command = Ok status ->
  0 <= status < 256 ->
  let r := execute_shell_command env command w in
  fst r = Ok (RetTuple [] [] 0)
  /\ trace (snd r)
     = trace w ++ [EvOsSystem command; EvLogOutput command [] [] 0].
Proof.
  intros Hsudo Hnt Hsys Hrange r. subst r.
  unfold execute_shell_command, run_sudo, _log_command_output.
  rewrite Hsudo, Hnt, Hsys. cbn [andb negb].
  rewrite (Z.div_small status 256) by lia.
  unfold try_catch, bind, emit, ret. unfold modify. cbn.
  rewrite <- app_assoc. split; reflexivity.
Qed.

Lemma sudo_signal_reads_as_success_witness :
  let env := sample_env ApiNoChoices (Ok 9) quiet_script in
  let r := execute_shell_command env (lit "sudo sleep 100") fresh_session in
  fst r = Ok (RetTuple [] [] 0)
  /\ trace (snd r)
     = [ EvOsSystem (lit "sudo sleep 100");
         EvLogOutput (lit "sudo sleep 100") [] [] 0 ].
Proof.
  intro env.
  apply (sudo_signal_reads_as_success env (lit "sudo sleep 100")
           fresh_session 9); try reflexivity.
  lia.
Defined.

(* ================================================================== *)
(** * The console loop *)

Section Console.

Variable env : environment.

(** A request for which the translator produced a command: what the
    turn of the loop does next depends on the answer alone. *)
Lemma main_body_request (w w2 : world) (raw answer : pystr)
    (rest rest2 : list input_event) (c : pychar) (cs : pystr) :
  stdin w = Line raw :: rest ->
  is_console_command env (strip raw) = false ->
  natural_language_to_shell env (strip raw) (set_stdin rest w)
  = (Ok (Some (c :: cs)), w2) ->
  stdin w2 = Line answer :: rest2 ->
  main_body env w
  = (if pystr_eqb (py_lower env answer) (consent_word (c :: cs))
     then execute_shell_command env (c :: cs) ;;
          main_trim_history ;;
          ret (Some Continue)
     else ret (Some Continue)) (set_stdin rest2 w2).
Proof.
  intros Hin Hcmd Htr Hans.
  unfold is_console_command in Hcmd. cbv zeta in Hcmd.
  do 7 (apply orb_false_iff in Hcmd as [Hcmd ?]).
  unfold main_body. unfold bind at 1. unfold input at 1. rewrite Hin.
  cbv zeta.
  repeat match goal with
         | H : ?b = false |- context [if ?b then _ else _] => rewrite H
         end.
  cbn beta iota.
  unfold bind at 1. rewrite Htr. cbn beta iota.
  unfold consent_word.
  destruct (_is_dangerous_command (c :: cs));
    unfold bind at 1; unfold bind at 1, input at 1; rewrite Hans;
    unfold ret at 1; cbn beta iota; reflexivity.
Qed.

(** X20. Nothing runs without consent: when the translator has produced
    a command, the turn executes it only if the next line typed is,
    in lower case, "yes" for a command the danger classifier flags and
    "y" for any other. After any other answer the turn ends in the
    world the translator left, with the answer consumed: no process is
    started and the command history is as it was. *)
Theorem no_consent_no_execution (w w2 : world) (raw answer : pystr)
    (rest rest2 : list input_event) (command : pystr) :
  stdin w = Line raw :: rest ->
  is_console_command env (strip raw) = false ->
  natural_language_to_shell env (strip raw) (set_stdin rest w)
  = (Ok (Some command), w2) ->
  command <> [] ->
  stdin w2 = Line answer :: rest2 ->
  pystr_eqb (py_lower env answer) (consent_word command) = false ->
  main_body env w = (Ok (Some Continue), set_stdin rest2 w2).
Proof.
  intros Hin Hcmd Htr Hne Hans Hno.
  destruct command as [|c cs]; [congruence|].
  rewrite (main_body_request w w2 raw answer rest rest2 c cs)
    by assumption.
  rewrite Hno. reflexivity.
Qed.

Lemma non_exception_is_exit (e : exn) :
  is_Exception e = false -> is_KeyboardInterrupt e = false ->
  exists code, exn_kind_of e = KSystemExit code.
Proof.
  unfold is_Exception, is_KeyboardInterrupt.
  destruct (exn_kind_of e); try discriminate. eauto.
Qed.

(** Only [SystemExit] leaves the loop: every other exception of a turn
    is caught by one of its three handlers. *)
Lemma main_loop_escape (fuel : nat) :
  forall w e w', main_loop env fuel w = (Exn e, w') ->
                 exists code, exn_kind_of e = KSystemExit code.
Proof.
  induction fuel as [|fuel IH]; intros w e w' H; [discriminate|].
  cbn [main_loop] in H. unfold bind, try_catch in H.
  destruct (main_body env w) as [[[[|]|]|e0] w1].
  - eapply IH, H.
  - discriminate.
  - discriminate.
  - unfold main_handler in H.
    destruct (exn_kind_of e0) eqn:K;
      try (unfold is_Exception in H; rewrite K in H);
      unfold ret, raise, bind, emit, modify in H; cbn beta iota in H;
      first [ discriminate
            | solve [eapply IH, H]
            | injection H as <- _; eauto ].
Qed.

(** X21. The program always ends with an exit code: unless start-up is
    interrupted from the keyboard, no exception escapes the script and
    the model's loop never runs out of turns; the console loop catches
    everything a turn can raise except [SystemExit]. *)
Theorem program_exits_with_code (args : arguments) (w : world) :
  (forall e, init_outcome env = Some e -> is_KeyboardInterrupt e = false) ->
  (forall e, welcome_outcome env = Some e ->
             is_KeyboardInterrupt e = false) ->
  exists code, fst (program env args w) = ExitCode code.
Proof.
  intros Hinit Hwelcome.
  assert (Hexit : forall (e : exn) (w' : world),
            is_KeyboardInterrupt e = false ->
            exists code,
              fst (match (if is_Exception e
                          then raise (mkExn (KSystemExit 1) [])
                          else raise e) w' return exit_status * world with
                   | (Ok true, w'') => (ExitCode 0, w'')
                   | (Ok false, w'') => (OutOfFuel, w'')
                   | (Exn e', w'') =>
                       match exn_kind_of e' with
                       | KSystemExit code => (ExitCode code, w'')
                       | _ => (Uncaught e', w'')
                       end
                   end) = ExitCode code).
  { intros e w' Hk. destruct (is_Exception e) eqn:Hx.
    - exists 1. reflexivity.
    - destruct (non_exception_is_exit e Hx Hk) as [code K].
      exists code. unfold raise. cbn beta iota. rewrite K. reflexivity. }
  unfold program, try_catch. unfold bind at 1.
  unfold construct.
  destruct (init_outcome env) as [e|] eqn:Hi.
  { unfold raise at 1. apply Hexit. eauto. }
  unfold bind at 1. unfold modify at 1. unfold setup_prompt, modify.
  cbn [fst snd]. unfold bind at 1.
  match goal with
  | |- context [apply_arguments args ?x] =>
      destruct (apply_arguments_ok args x) as [wb [Eb Hsb]]; rewrite Eb
  end.
  unfold main, try_finally, _display_welcome, save_command_history.
  unfold bind, emit, ret, get.
  unfold modify. cbn beta iota.
  destruct (welcome_outcome env) as [e|] eqn:Hw; cbn beta iota.
  { unfold raise at 1. cbn beta iota. apply Hexit. eauto. }
  match goal with
  | |- context [main_loop env ?f ?x] =>
      pose proof (main_loop_total env f x) as Htot;
      pose proof (main_loop_escape f x) as Hesc;
      destruct (main_loop env f x) as [[[|]|e] w2]
  end; cbn -[main_loop] in *.
  - eauto.
  - exfalso. apply Htot; [lia | reflexivity].
  - destruct (Hesc e w2 eq_refl) as [code K].
    apply Hexit. unfold is_KeyboardInterrupt. now rewrite K.
Qed.

(** The program ends in the world the save leaves. *)
Lemma program_ends_with_save (args : arguments) (w : world) :
  init_outcome env = None ->
  exists status w1,
    program env args w
    = (status,
       set_trace (trace w1 ++ [EvSaveHistory (command_history w1)]) w1).
Proof.
  intros Hinit.
  destruct (construct_ok env w Hinit) as [wa [Ea Hsa]].
  destruct (apply_arguments_ok args wa) as [wb [Eb Hsb]].
  unfold program, try_catch. unfold bind at 1. rewrite Ea.
  unfold bind at 1. rewrite Eb.
  unfold main, try_finally, save_command_history.
  match goal with
  | |- context [(let (r, w0) := ?m wb in _)] =>
      destruct (m wb) as [r w1]
  end.
  unfold bind, get, emit. unfold modify. cbn beta iota.
  destruct r as [[|] | e]; cbn; [eauto | eauto |].
  destruct (is_Exception e); cbn; [eauto|].
  destruct (exn_kind_of e); eauto.
Qed.

(** X22. The command history is saved on every way out: once the
    constructor has returned, whatever the welcome screen and the loop
    do, the last thing the program does is to save the command
    history, and what it saves is the list as the session left it. *)
Theorem history_is_saved_on_exit (args : arguments) (w : world) :
  init_outcome env = None ->
  let w' := snd (program env args w) in
  exists before,
    trace w' = before ++ [EvSaveHistory (command_history w')].
Proof.
  intros Hinit w'. subst w'.
  destruct (program_ends_with_save args w Hinit) as (status & w1 & E).
  rewrite E. exists (trace w1). reflexivity.
Qed.

End Console.

Lemma no_consent_no_execution_witness :
  let env := sample_env (ApiContent (Some (lit "rm -rf /tmp/x")))
               (Ok 0) quiet_script in
  let w := set_stdin [Line (lit "delete tmp"); Line (lit "y")]
             fresh_session in
  let w2 := snd (natural_language_to_shell env (lit "delete tmp")
                   (set_stdin [Line (lit "y")] fresh_session)) in
  main_body env w = (Ok (Some Continue), set_stdin [] w2)
  /\ command_history (set_stdin [] w2) = []
  /\ forallb not_popen (trace (set_stdin [] w2)) = true.
Proof.
  intros env w w2.
  split; [|split; vm_compute; reflexivity].
  apply (no_consent_no_execution env w w2 (lit "delete tmp") (lit "y")
           [Line (lit "y")] [] (lit "rm -rf /tmp/x")).
  - reflexivity.
  - vm_compute. reflexivity.
  - vm_compute. reflexivity.
  - discriminate.
  - vm_compute. reflexivity.
  - vm_compute. reflexivity.
Defined.

Lemma program_exits_with_code_witness :
  exists code,
    fst (program answering_env no_arguments
           (set_stdin [Line list_files; Line (lit "n"); CtrlC]
              fresh_session))
    = ExitCode code.
Proof.
  apply (program_exits_with_code answering_env no_arguments);
    intros e H; discriminate H.
Defined.

Lemma history_is_saved_on_exit_witness :
  let w' := snd (program answering_env no_arguments
                   (set_stdin [Line list_files; Line (lit "y")]
                      fresh_session)) in
  (exists before,
     trace w' = before ++ [EvSaveHistory (command_history w')])
  /\ command_history w' = [lit "ls"].
Proof.
  split; [|vm_compute; reflexivity].
  apply (history_is_saved_on_exit answering_env no_arguments
           (set_stdin [Line list_files; Line (lit "y")] fresh_session)).
  reflexivity.
Defined.
